(** * Multiple-Image-Viewer: the image handler (src/image_handler.py)
      and the viewer that drives it (src/image_viewer.py)

    A shallow embedding of [ImageHandler]: the list of validated paths, the
    cursor, the recorded original image and the displayed bitmap, with the
    methods that load a batch, move the cursor and render the current image.
    [ImageViewer] follows, as the texts, images and button states it sets on
    its widgets and the calls it makes to Tk.

    The handler talks to three collaborators that are not part of the
    repository: the file system ([os.path.exists]), the image codec (PIL's
    [Image.open], [verify], [copy], [resize]) and Tk ([ImageTk.PhotoImage]).
    They are modelled as a [World] whose answers the handler cannot
    influence; a call that raises is an answer [None] / [false].

    Python's [float] is IEEE 754 binary64; its arithmetic is the one of
    [SpecFloat] at precision 53 and maximal exponent 1024. *)

From Stdlib Require Import ZArith List Ascii String DecimalString Bool Lia.
From Stdlib Require Import Floats.SpecFloat.
From Stdlib Require QArith Qround Qminmax.
Import ListNotations.
Local Open Scope Z_scope.

(** ** Python runtime *)

Module Py.

(** The exceptions that can reach the handler's [except Exception]. *)
Inductive exn : Set :=
| IndexError
| ZeroDivisionError
| OverflowError
| ValueError
| CodecError.      (* anything raised inside PIL or Tk *)

Inductive outcome (A : Type) : Type :=
| Ok (a : A)
| Raise (e : exn).
Arguments Ok {A} a.
Arguments Raise {A} e.

(** [len(l)] *)
Definition len {A} (l : list A) : Z := Z.of_nat (List.length l).

(** [l[i]]: a negative index counts from the end, anything outside
    [-len(l) .. len(l)-1] raises [IndexError]. *)
Definition getitem {A} (l : list A) (i : Z) : outcome A :=
  let j := if i <? 0 then i + len l else i in
  if (j <? 0) || (len l <=? j) then Raise IndexError
  else match nth_error l (Z.to_nat j) with
       | Some x => Ok x
       | None => Raise IndexError
       end.

(** *** Floats *)

Definition prec : Z := 53.
Definition emax : Z := 1024.
Definition float := spec_float.

(** An [int] seen as an exact, unrounded operand. *)
Definition exact (n : Z) : float :=
  match n with
  | Z0 => S754_zero false
  | Zpos p => S754_finite false p 0
  | Zneg p => S754_finite true p 0
  end.

Definition checked (x : float) : outcome float :=
  match x with
  | S754_infinity _ => Raise OverflowError
  | _ => Ok x
  end.

(** [a / b] on two [int]s: the correctly rounded quotient;
    [ZeroDivisionError] on a zero divisor, [OverflowError] when the
    quotient is too large for a float. *)
Definition truediv (a b : Z) : outcome float :=
  if b =? 0 then Raise ZeroDivisionError
  else checked (SFdiv prec emax (exact a) (exact b)).

(** [float(n)]: nearest float, [OverflowError] when out of range. *)
Definition float_of_int (n : Z) : outcome float :=
  checked (binary_normalize prec emax n 0 false).

(** [n * x] with [n : int] and [x : float]. *)
Definition int_mul_float (n : Z) (x : float) : outcome float :=
  match float_of_int n with
  | Ok fn => Ok (SFmul prec emax fn x)
  | Raise e => Raise e
  end.

(** [int(x)]: truncation toward zero. *)
Definition int_of_float (x : float) : outcome Z :=
  match x with
  | S754_zero _ => Ok 0
  | S754_finite s m e =>
      let a := match e with
               | Zneg k => Z.shiftr (Zpos m) (Zpos k)
               | _ => Z.shiftl (Zpos m) e
               end in
      Ok (cond_Zopp s a)
  | S754_infinity _ => Raise OverflowError
  | S754_nan => Raise ValueError
  end.

Definition one : float := S754_finite false 4503599627370496 (-52).

(** [x < 1] *)
Definition lt_one (x : float) : bool := SFltb x one.

(** [min(a, b)]: the second argument only when it is strictly smaller. *)
Definition min (a b : float) : float := if SFltb b a then b else a.

End Py.
Import Py.

(** ** Collaborators *)

(** [PIL.Image.Image]: its size and its pixel data. *)
Record Image : Type := mkImage {
  size : Z * Z;
  pixels : list Z
}.

(** [ImageTk.PhotoImage]: the Tk bitmap made from an image. *)
Record PhotoImage : Type := mkPhotoImage {
  photo_of : Image
}.

Definition photo_size (p : PhotoImage) : Z * Z := size (photo_of p).

(** What [Image.open] hands back: the header is parsed, the pixel data is
    decoded later, by [copy] or [resize]. *)
Record ImageFile : Type := mkImageFile {
  file_size : Z * Z;                (* img.size *)
  file_verify : bool;               (* img.verify() does not raise *)
  file_load : option (list Z)       (* decoded pixels; None: decoding raises *)
}.

Record World : Type := mkWorld {
  path_exists : string -> bool;                     (* os.path.exists *)
  image_open : string -> option ImageFile;          (* Image.open; None: raises *)
  resample : Image -> Z * Z -> option (list Z);     (* pixels of img.resize(size, LANCZOS) *)
  photo_ok : Image -> bool                          (* ImageTk.PhotoImage(img) does not raise *)
}.

(** Calls that leave the handler. *)
Inductive event : Type :=
| EvExists (p : string)
| EvOpen (p : string)
| EvVerify
| EvCopy
| EvResize (sz : Z * Z)
| EvPhotoImage
| EvPrint (e : exn).

(** ** The handler *)

Record ImageHandler : Type := mkImageHandler {
  images : list string;
  current_index : Z;
  current_image : option PhotoImage;
  original_image : option Image
}.

(** A method body: it reads and writes [self], may raise, and leaves a
    trace of the outside calls it made.  Assignments made before an
    exception stay. *)
Definition M (A : Type) : Type :=
  ImageHandler -> outcome A * ImageHandler * list event.

Definition ret {A} (a : A) : M A := fun self => (Ok a, self, []).

Definition bind {A B} (m : M A) (f : A -> M B) : M B :=
  fun self =>
    match m self with
    | (Ok a, self1, t1) =>
        match f a self1 with
        | (r, self2, t2) => (r, self2, t1 ++ t2)
        end
    | (Raise e, self1, t1) => (Raise e, self1, t1)
    end.

Definition try_except {A} (body : M A) (handler : exn -> M A) : M A :=
  fun self =>
    match body self with
    | (Ok a, self1, t1) => (Ok a, self1, t1)
    | (Raise e, self1, t1) =>
        match handler e self1 with
        | (r, self2, t2) => (r, self2, t1 ++ t2)
        end
    end.

Definition get : M ImageHandler := fun self => (Ok self, self, []).
Definition put (s : ImageHandler) : M unit := fun _ => (Ok tt, s, []).
Definition lift {A} (o : outcome A) : M A := fun self => (o, self, []).
Definition emit (e : event) : M unit := fun self => (Ok tt, self, [e]).

Declare Scope py_scope.
Delimit Scope py_scope with py.
Notation "x <- m ;; k" := (bind m (fun x => k))
  (at level 61, m at next level, right associativity) : py_scope.
Notation "m ;; k" := (bind m (fun _ => k))
  (at level 61, right associativity) : py_scope.
Local Open Scope py_scope.

Definition result_of {A} (r : outcome A * ImageHandler * list event) : outcome A :=
  fst (fst r).
Definition state_of {A} (r : outcome A * ImageHandler * list event) : ImageHandler :=
  snd (fst r).
Definition trace_of {A} (r : outcome A * ImageHandler * list event) : list event :=
  snd r.

(** Attribute assignments. *)
Definition set_images (v : list string) : M unit :=
  self <- get ;;
  put (mkImageHandler v (current_index self) (current_image self) (original_image self)).
Definition set_current_index (v : Z) : M unit :=
  self <- get ;;
  put (mkImageHandler (images self) v (current_image self) (original_image self)).
Definition set_current_image (v : option PhotoImage) : M unit :=
  self <- get ;;
  put (mkImageHandler (images self) (current_index self) v (original_image self)).
Definition set_original_image (v : option Image) : M unit :=
  self <- get ;;
  put (mkImageHandler (images self) (current_index self) (current_image self) v).

(** Library calls, each logged. *)
Definition os_path_exists (w : World) (p : string) : M bool :=
  emit (EvExists p) ;; ret (path_exists w p).

Definition Image_open (w : World) (p : string) : M ImageFile :=
  emit (EvOpen p) ;;
  lift (match image_open w p with Some f => Ok f | None => Raise CodecError end).

Definition img_verify (img : ImageFile) : M unit :=
  emit EvVerify ;;
  lift (if file_verify img then Ok tt else Raise CodecError).

Definition img_copy (img : ImageFile) : M Image :=
  emit EvCopy ;;
  lift (match file_load img with
        | Some px => Ok (mkImage (file_size img) px)
        | None => Raise CodecError
        end).

Definition img_resize (w : World) (img : ImageFile) (sz : Z * Z) : M Image :=
  emit (EvResize sz) ;;
  lift (match file_load img with
        | Some px =>
            match resample w (mkImage (file_size img) px) sz with
            | Some px' => Ok (mkImage sz px')
            | None => Raise CodecError
            end
        | None => Raise CodecError
        end).

Definition ImageTk_PhotoImage (w : World) (img : Image) : M PhotoImage :=
  emit EvPhotoImage ;;
  lift (if photo_ok w img then Ok (mkPhotoImage img) else Raise CodecError).

Definition print (e : exn) : M unit := emit (EvPrint e).

(** [__init__] *)
Definition init : ImageHandler :=
  {| images := []; current_index := 0; current_image := None; original_image := None |}.

(** [is_valid_image] *)
Definition is_valid_image (w : World) (file_path : string) : M bool :=
  try_except
    (ex <- os_path_exists w file_path ;;
     if negb ex then ret false
     else
       img <- Image_open w file_path ;;
       img_verify img ;;
       ret true)
    (fun _ => ret false).

(** The [for] loop of [load_images], [valid_images] being the list built
    so far. *)
Fixpoint collect_valid (w : World) (file_paths valid_images : list string)
  : M (list string) :=
  match file_paths with
  | [] => ret valid_images
  | path :: rest =>
      ok <- is_valid_image w path ;;
      collect_valid w rest (if ok then valid_images ++ [path] else valid_images)
  end.

Definition nonempty {A} (l : list A) : bool :=
  match l with [] => false | _ => true end.

(** [load_images] *)
Definition load_images (w : World) (file_paths : list string) : M bool :=
  valid_images <- collect_valid w file_paths [] ;;
  if nonempty valid_images then
    set_images valid_images ;;
    set_current_index 0 ;;
    ret true
  else ret false.

(** Lines 107-115: the image that goes to the screen. *)
Definition fit (w : World) (img : ImageFile) (target_width target_height : Z)
  : M Image :=
  let '(img_width, img_height) := file_size img in
  a <- lift (truediv target_width img_width) ;;
  b <- lift (truediv target_height img_height) ;;
  let ratio := Py.min a b in
  if lt_one ratio then
    fw <- lift (int_mul_float img_width ratio) ;;
    new_width <- lift (int_of_float fw) ;;
    fh <- lift (int_mul_float img_height ratio) ;;
    new_height <- lift (int_of_float fh) ;;
    img_resize w img (new_width, new_height)
  else img_copy img.

(** [load_current_image] *)
Definition load_current_image (w : World) (target_width target_height : Z)
  : M (option PhotoImage) :=
  self <- get ;;
  if negb (nonempty (images self)) || (len (images self) <=? current_index self)
  then ret None
  else
    try_except
      (image_path <- lift (getitem (images self) (current_index self)) ;;
       img <- Image_open w image_path ;;
       orig <- img_copy img ;;
       set_original_image (Some orig) ;;
       resized_img <- fit w img target_width target_height ;;
       photo <- ImageTk_PhotoImage w resized_img ;;
       set_current_image (Some photo) ;;
       ret (Some photo))
      (fun e => print e ;; ret None).

(** [next_image] *)
Definition next_image : M bool :=
  self <- get ;;
  if negb (nonempty (images self)) then ret false
  else if current_index self <? len (images self) - 1 then
    set_current_index (current_index self + 1) ;;
    ret true
  else ret false.

(** [previous_image] *)
Definition previous_image : M bool :=
  self <- get ;;
  if negb (nonempty (images self)) then ret false
  else if current_index self >? 0 then
    set_current_index (current_index self - 1) ;;
    ret true
  else ret false.

(** [has_images], [has_next], [has_previous], [get_original_size] *)
Definition has_images (self : ImageHandler) : bool := len (images self) >? 0.
Definition has_next (self : ImageHandler) : bool :=
  current_index self <? len (images self) - 1.
Definition has_previous (self : ImageHandler) : bool := current_index self >? 0.
Definition get_original_size (self : ImageHandler) : option (Z * Z) :=
  match original_image self with
  | Some img => Some (size img)
  | None => None
  end.


(** ** Vocabulary of the properties *)

(** A path is valid when it exists, opens and passes [verify]. *)
Definition valid_image (w : World) (p : string) : bool :=
  path_exists w p &&
  match image_open w p with
  | Some img => file_verify img
  | None => false
  end.

(** The decoded image behind a path: [Image.open] then [copy]. *)
Definition decode (w : World) (p : string) : option Image :=
  match image_open w p with
  | Some img =>
      match file_load img with
      | Some px => Some (mkImage (file_size img) px)
      | None => None
      end
  | None => None
  end.

(** The calls a client can make that write [self]; every call sees the
    world as it is at that moment. *)
Inductive call : Type :=
| Load (w : World) (file_paths : list string)
| Advance
| Retreat
| Render (w : World) (target_width target_height : Z).

Definition exec (c : call) (self : ImageHandler) : ImageHandler :=
  match c with
  | Load w ps => state_of (load_images w ps self)
  | Advance => state_of (next_image self)
  | Retreat => state_of (previous_image self)
  | Render w tw th => state_of (load_current_image w tw th self)
  end.

(** The states a handler can be in: [__init__] followed by calls. *)
Inductive reachable : ImageHandler -> Prop :=
| reach_init : reachable init
| reach_call (c : call) (self : ImageHandler) :
    reachable self -> reachable (exec c self).

(** The states reached by [load_images], [next_image] and
    [previous_image] alone. *)
Definition navigation (c : call) : Prop :=
  match c with Render _ _ _ => False | _ => True end.

Inductive reachable_nav : ImageHandler -> Prop :=
| nav_init : reachable_nav init
| nav_call (c : call) (self : ImageHandler) :
    navigation c -> reachable_nav self -> reachable_nav (exec c self).

(** What the class maintains: the cursor is never negative, it is 0 on an
    empty handler and it is below [len(images)] otherwise. *)
Definition cursor_inv (self : ImageHandler) : Prop :=
  0 <= current_index self /\
  (images self = [] -> current_index self = 0) /\
  (images self <> [] -> current_index self < len (images self)).

(** A method body respects a relation between the state before and the
    state after when every run of it does. *)
Definition respects (R : ImageHandler -> ImageHandler -> Prop) {A} (m : M A) : Prop :=
  forall self, R self (state_of (m self)).

(** ** A small world to run the handler in *)

Definition photo_a : ImageFile :=
  {| file_size := (4000, 3000); file_verify := true; file_load := Some [1; 2; 3] |}.

Definition photo_b : ImageFile :=
  {| file_size := (640, 480); file_verify := true; file_load := Some [4; 5] |}.

(** Passes [verify], but its pixel data is cut short. *)
Definition truncated : ImageFile :=
  {| file_size := (800, 600); file_verify := true; file_load := None |}.

(** A decoder whose [resize] refuses empty sizes. *)
Definition lanczos (img : Image) (sz : Z * Z) : option (list Z) :=
  if (1 <=? fst sz) && (1 <=? snd sz) then Some (pixels img) else None.

Definition disk : World :=
  {| path_exists := fun p =>
       (p =? "a.jpg")%string || (p =? "not_an_image.txt")%string ||
       (p =? "b.png")%string || (p =? "cut.png")%string;
     image_open := fun p =>
       if (p =? "a.jpg")%string then Some photo_a
       else if (p =? "b.png")%string then Some photo_b
       else if (p =? "cut.png")%string then Some truncated
       else None;
     resample := lanczos;
     photo_ok := fun _ => true |}.

(** The same disk after [a.jpg] was deleted. *)
Definition disk_without_a : World :=
  {| path_exists := fun p => (p =? "b.png")%string;
     image_open := fun p => if (p =? "b.png")%string then Some photo_b else None;
     resample := lanczos;
     photo_ok := fun _ => true |}.

(** ** The size the specification asks for *)

(** [a / b], [n * x] and [floor(x)] on floats, and [x <= B] for a
    non-negative dyadic [m * 2^e] and an integer [B]. *)
Definition quotient (a b : Z) : float := SFdiv prec emax (exact a) (exact b).

Definition times (n : Z) (x : float) : float :=
  SFmul prec emax (binary_normalize prec emax n 0 false) x.

Definition floor (x : float) : Z :=
  match x with
  | S754_finite s m e =>
      match e with
      | Zneg k => Z.shiftr (cond_Zopp s (Zpos m)) (Zpos k)
      | _ => Z.shiftl (cond_Zopp s (Zpos m)) e
      end
  | _ => 0
  end.

(** [ratio = min(w / W, h / H)] *)
Definition ratio_of (W H w h : Z) : float := Py.min (quotient w W) (quotient h H).

(** The size of the rendered bitmap in the binary64 arithmetic of the
    code: [(floor(W * ratio), floor(H * ratio))] when [ratio < 1], the
    original size otherwise. *)
Definition fitted_size (W H w h : Z) : Z * Z :=
  let ratio := ratio_of W H w h in
  if lt_one ratio then (floor (times W ratio), floor (times H ratio))
  else (W, H).

Definition dy_le (m e B : Z) : Prop :=
  m * 2 ^ Z.max 0 e <= B * 2 ^ Z.max 0 (- e).

(** A float that is [+0.0] or positive with at most [prec] digits. *)
Definition nonneg_float (x : float) : Prop :=
  x = S754_zero false \/
  exists m e, x = S754_finite false m e /\ Zdigits2 (Zpos m) <= prec.

(** Two files were loaded from [disk], the first was rendered, then the
    cursor moved to the second, whose pixel data is cut short. *)
Definition gallery : ImageHandler :=
  exec (Load disk ["a.jpg"; "not_an_image.txt"; "b.png"]%string) init.

Definition browsing : ImageHandler :=
  exec Advance
    (exec (Render disk 800 600)
       (exec (Load disk ["a.jpg"; "cut.png"]%string) init)).

(** ** The remaining methods of the handler *)

(** [get_current_image_path] *)
Definition get_current_image_path (self : ImageHandler) : outcome (option string) :=
  if negb (nonempty (images self)) || (len (images self) <=? current_index self)
  then Ok None
  else match getitem (images self) (current_index self) with
       | Ok p => Ok (Some p)
       | Raise e => Raise e
       end.

(** [get_current_image_info]; [basename] is the platform's
    [os.path.basename]. *)
Definition get_current_image_info (basename : string -> string)
    (self : ImageHandler) : outcome (string * Z * Z) :=
  if negb (nonempty (images self)) then Ok (EmptyString, 0, 0)
  else match getitem (images self) (current_index self) with
       | Ok current_path =>
           let filename := basename current_path in
           let total := len (images self) in
           let position := current_index self + 1 in
           Ok (filename, total, position)
       | Raise e => Raise e
       end.

(** [posixpath.basename]: what follows the last slash. *)
Fixpoint has_slash (p : string) : bool :=
  match p with
  | EmptyString => false
  | String c rest => (c =? "/")%char || has_slash rest
  end.

Fixpoint posix_basename (p : string) : string :=
  match p with
  | EmptyString => EmptyString
  | String c rest =>
      if has_slash rest then posix_basename rest
      else if (c =? "/")%char then rest
      else String c rest
  end.

(** [k] calls of [next_image] in a row. *)
Fixpoint advance_times (k : nat) (self : ImageHandler) : ImageHandler :=
  match k with
  | O => self
  | S k' => advance_times k' (exec Advance self)
  end.

(** The outside calls that read pixel data or build a bitmap. *)
Definition decoding (e : event) : bool :=
  match e with
  | EvCopy | EvResize _ | EvPhotoImage => true
  | _ => false
  end.

(** The outside calls [is_valid_image] makes for one path. *)
Definition validation_trace (w : World) (p : string) : list event :=
  if path_exists w p then
    match image_open w p with
    | Some _ => [EvExists p; EvOpen p; EvVerify]
    | None => [EvExists p; EvOpen p]
    end
  else [EvExists p].

(** A handler whose cursor was put past the end by hand. *)
Definition overrun : ImageHandler :=
  {| images := ["a.jpg"; "b.png"]%string; current_index := 2;
     current_image := None; original_image := None |}.

(** [B <= m * 2^e] for a non-negative dyadic and an integer [B]. *)
Definition dy_ge (m e B : Z) : Prop :=
  B * 2 ^ Z.max 0 (- e) <= m * 2 ^ Z.max 0 e.

(** [m * 2^e <= Bm * 2^Bk] for two non-negative dyadics. *)
Definition dyle (m e Bm Bk : Z) : Prop :=
  m * 2 ^ Z.max 0 (e - Bk) <= Bm * 2 ^ Z.max 0 (Bk - e).

(** What a location adds to the truncated mantissa, at most. *)
Definition excess (l : location) : Z :=
  match l with loc_Exact => 0 | loc_Inexact _ => 1 end.

(** A float that is [+0.0] or positive and canonical. *)
Definition canonical_float (x : float) : Prop :=
  x = S754_zero false \/
  exists m e, x = S754_finite false m e /\ canonical_mantissa prec emax m e = true.

(** [x <= y] for two such floats, by their values. *)
Definition float_le (x y : float) : Prop :=
  x = S754_zero false \/
  exists m1 e1 m2 e2,
    x = S754_finite false m1 e1 /\ y = S754_finite false m2 e2 /\
    dyle (Zpos m1) e1 (Zpos m2) e2.

(** ** The viewer (src/image_viewer.py)

    The widgets are kept by what the viewer sets on them: the image and
    the text of [image_label], the texts of the three other labels and the
    [state] of the two navigation buttons.  Strings are byte strings in
    UTF-8. *)

Inductive button_state : Set := normal | disabled.

(** What the viewer hands to [root.after]. *)
Inductive callback : Set := cb_update_display.

(** Calls that leave the viewer. *)
Inductive ui_event : Type :=
| Handler (e : event)                    (* an outside call of the handler *)
| UpdateIdletasks                        (* image_frame.update_idletasks *)
| After (ms : Z) (cb : callback)         (* root.after *)
| AfterCancel (id : Z)                   (* root.after_cancel *)
| ShowError (title message : string).    (* messagebox.showerror *)

Record ImageViewer : Type := mkImageViewer {
  image_handler : ImageHandler;
  image_label_image : option PhotoImage;
  image_label_text : string;
  info_label : string;
  counter_label : string;
  status_label : string;
  prev_button : button_state;
  next_button : button_state;
  resize_after : option Z               (* _resize_after, absent at first *)
}.

(** A method body of the viewer. *)
Definition V (A : Type) : Type :=
  ImageViewer -> outcome A * ImageViewer * list ui_event.

Definition vret {A} (a : A) : V A := fun self => (Ok a, self, []).

Definition vbind {A B} (m : V A) (f : A -> V B) : V B :=
  fun self =>
    match m self with
    | (Ok a, self1, t1) =>
        match f a self1 with
        | (r, self2, t2) => (r, self2, t1 ++ t2)
        end
    | (Raise e, self1, t1) => (Raise e, self1, t1)
    end.

Definition vget : V ImageViewer := fun self => (Ok self, self, []).
Definition vput (s : ImageViewer) : V unit := fun _ => (Ok tt, s, []).
Definition vlift {A} (o : outcome A) : V A := fun self => (o, self, []).
Definition vemit (e : ui_event) : V unit := fun self => (Ok tt, self, [e]).

Notation "x <~ m ;; k" := (vbind m (fun x => k))
  (at level 61, m at next level, right associativity) : py_scope.
Notation "m ;;; k" := (vbind m (fun _ => k))
  (at level 61, right associativity) : py_scope.

(** [self.image_handler.method(...)] *)
Definition on_handler {A} (m : M A) : V A :=
  fun self =>
    match m (image_handler self) with
    | (r, h, t) =>
        (r,
         mkImageViewer h (image_label_image self) (image_label_text self)
           (info_label self) (counter_label self) (status_label self)
           (prev_button self) (next_button self) (resize_after self),
         map Handler t)
    end.

(** [widget.configure(...)] *)
Definition image_label_configure (image : option PhotoImage) (text : string) : V unit :=
  self <~ vget ;;
  vput (mkImageViewer (image_handler self) image text
          (info_label self) (counter_label self) (status_label self)
          (prev_button self) (next_button self) (resize_after self)).

Definition info_label_configure (text : string) : V unit :=
  self <~ vget ;;
  vput (mkImageViewer (image_handler self) (image_label_image self)
          (image_label_text self) text (counter_label self) (status_label self)
          (prev_button self) (next_button self) (resize_after self)).

Definition counter_label_configure (text : string) : V unit :=
  self <~ vget ;;
  vput (mkImageViewer (image_handler self) (image_label_image self)
          (image_label_text self) (info_label self) text (status_label self)
          (prev_button self) (next_button self) (resize_after self)).

Definition status_label_configure (text : string) : V unit :=
  self <~ vget ;;
  vput (mkImageViewer (image_handler self) (image_label_image self)
          (image_label_text self) (info_label self) (counter_label self) text
          (prev_button self) (next_button self) (resize_after self)).

Definition prev_button_configure (state : button_state) : V unit :=
  self <~ vget ;;
  vput (mkImageViewer (image_handler self) (image_label_image self)
          (image_label_text self) (info_label self) (counter_label self)
          (status_label self) state (next_button self) (resize_after self)).

Definition next_button_configure (state : button_state) : V unit :=
  self <~ vget ;;
  vput (mkImageViewer (image_handler self) (image_label_image self)
          (image_label_text self) (info_label self) (counter_label self)
          (status_label self) (prev_button self) state (resize_after self)).

Definition set_resize_after (id : Z) : V unit :=
  self <~ vget ;;
  vput (mkImageViewer (image_handler self) (image_label_image self)
          (image_label_text self) (info_label self) (counter_label self)
          (status_label self) (prev_button self) (next_button self) (Some id)).

(** [str(n)] for an [int] *)
Definition str (n : Z) : string := NilZero.string_of_int (Z.to_int n).

(** The multiplication sign of the status line, U+00D7. *)
Definition times_sign : string := String "195" (String "151" EmptyString).

(** The widgets as [create_widgets] leaves them. *)
Definition new_viewer : ImageViewer :=
  {| image_handler := init;
     image_label_image := None;
     image_label_text := "No image to display";
     info_label := "No images loaded. Click 'Open Images' to get started.";
     counter_label := "";
     status_label := "Ready";
     prev_button := disabled;
     next_button := disabled;
     resize_after := None |}.

(** [update_status] *)
Definition update_status (message : string) : V unit :=
  status_label_configure message.

(** [update_navigation_buttons] *)
Definition update_navigation_buttons : V unit :=
  self <~ vget ;;
  if negb (has_images (image_handler self)) then
    prev_button_configure disabled ;;;
    next_button_configure disabled
  else
    (if has_previous (image_handler self)
     then prev_button_configure normal
     else prev_button_configure disabled) ;;;
    (if has_next (image_handler self)
     then next_button_configure normal
     else next_button_configure disabled).

(** [update_display]; [frame] is what [winfo_width] and [winfo_height]
    answer for the image frame, [basename] the platform's
    [os.path.basename]. *)
Definition update_display (w : World) (basename : string -> string)
    (frame : Z * Z) : V unit :=
  self <~ vget ;;
  if negb (has_images (image_handler self)) then
    image_label_configure None "No image to display" ;;;
    info_label_configure "No images loaded" ;;;
    counter_label_configure ""
  else
    vemit UpdateIdletasks ;;;
    let frame_width := fst frame - 20 in
    let frame_height := snd frame - 20 in
    if (frame_width <=? 1) || (frame_height <=? 1) then
      vemit (After 100 cb_update_display)
    else
      photo_image <~ on_handler (load_current_image w frame_width frame_height) ;;
      match photo_image with
      | Some photo =>
          image_label_configure (Some photo) "" ;;;
          self1 <~ vget ;;
          info <~ vlift (get_current_image_info basename (image_handler self1)) ;;
          let '(filename, total, position) := info in
          info_label_configure ("Current: " ++ filename) ;;;
          counter_label_configure (str position ++ " of " ++ str total) ;;;
          self2 <~ vget ;;
          match get_original_size (image_handler self2) with
          | Some original_size =>
              update_status (filename ++ " - " ++ str (fst original_size) ++
                             times_sign ++ str (snd original_size) ++ " pixels")
          | None => vret tt
          end
      | None =>
          image_label_configure None "Error loading image" ;;;
          update_status "Error loading current image"
      end.

(** [ImageViewer.next_image] *)
Definition viewer_next_image (w : World) (basename : string -> string)
    (frame : Z * Z) : V unit :=
  moved <~ on_handler next_image ;;
  if moved then
    update_display w basename frame ;;;
    update_navigation_buttons ;;;
    update_status "Next image"
  else vret tt.

(** [ImageViewer.previous_image] *)
Definition viewer_previous_image (w : World) (basename : string -> string)
    (frame : Z * Z) : V unit :=
  moved <~ on_handler previous_image ;;
  if moved then
    update_display w basename frame ;;;
    update_navigation_buttons ;;;
    update_status "Previous image"
  else vret tt.

(** [open_images]; [file_paths] is what the file dialog returns, the
    empty tuple when it is cancelled. *)
Definition open_images (w : World) (basename : string -> string)
    (frame : Z * Z) (file_paths : list string) : V unit :=
  if nonempty file_paths then
    loaded <~ on_handler (load_images w file_paths) ;;
    if loaded then
      update_display w basename frame ;;;
      update_status ("Loaded " ++ str (len file_paths) ++ " images") ;;;
      update_navigation_buttons
    else
      vemit (ShowError "Error" "No valid images could be loaded.") ;;;
      update_status "Error loading images"
  else update_status "No files selected".

(** [on_frame_resize]; [id] is the identifier [root.after] returns. *)
Definition on_frame_resize (id : Z) : V unit :=
  self <~ vget ;;
  if has_images (image_handler self) then
    match resize_after self with
    | Some pending => vemit (AfterCancel pending)
    | None => vret tt
    end ;;;
    vemit (After 250 cb_update_display) ;;;
    set_resize_after id
  else vret tt.

(** A run of resize events, each with the identifier Tk gives it. *)
Fixpoint resize_events (ids : list Z) (self : ImageViewer)
  : ImageViewer * list ui_event :=
  match ids with
  | [] => (self, [])
  | id :: rest =>
      match on_frame_resize id self with
      | (_, self1, t1) =>
          match resize_events rest self1 with
          | (self2, t2) => (self2, t1 ++ t2)
          end
      end
  end.

(** Tk's timers: [After] adds the identifier Tk hands out next,
    [AfterCancel] removes the one it names.  [pending_timers ids t pending]
    is what is scheduled after the calls of [t]. *)
Fixpoint pending_timers (ids : list Z) (t : list ui_event) (pending : list Z)
  : list Z :=
  match t with
  | [] => pending
  | After _ _ :: rest =>
      match ids with
      | id :: ids' => pending_timers ids' rest (pending ++ [id])
      | [] => pending_timers [] rest pending
      end
  | AfterCancel id :: rest =>
      pending_timers ids rest (filter (fun x => negb (x =? id)) pending)
  | _ :: rest => pending_timers ids rest pending
  end.

Definition vresult_of {A} (r : outcome A * ImageViewer * list ui_event) : outcome A :=
  fst (fst r).
Definition vstate_of {A} (r : outcome A * ImageViewer * list ui_event) : ImageViewer :=
  snd (fst r).
Definition vtrace_of {A} (r : outcome A * ImageViewer * list ui_event) : list ui_event :=
  snd r.

(** What the viewer shows apart from the status line and the buttons. *)
Definition display (self : ImageViewer) : option PhotoImage * string * string * string :=
  (image_label_image self, image_label_text self, info_label self, counter_label self).

(** What happens to a viewer once it is built: the buttons and the key
    bindings of [setup_bindings] call [open_images], [next_image] and
    [previous_image], the image frame's [<Configure>] binding calls
    [on_frame_resize], and a timer set by [root.after] calls
    [update_display].  Each carries what the outside answers during the
    call. *)
Inductive action : Type :=
| OpenImages (w : World) (frame : Z * Z) (file_paths : list string)
| PressNext (w : World) (frame : Z * Z)
| PressPrevious (w : World) (frame : Z * Z)
| FrameResize (id : Z)
| TimerFires (w : World) (frame : Z * Z).

Definition perform (basename : string -> string) (a : action) : V unit :=
  match a with
  | OpenImages w frame file_paths => open_images w basename frame file_paths
  | PressNext w frame => viewer_next_image w basename frame
  | PressPrevious w frame => viewer_previous_image w basename frame
  | FrameResize id => on_frame_resize id
  | TimerFires w frame => update_display w basename frame
  end.

(** The states of a viewer: [__init__] followed by actions. *)
Inductive vreachable (basename : string -> string) : ImageViewer -> Prop :=
| vreach_new : vreachable basename new_viewer
| vreach_action (a : action) (self : ImageViewer) :
    vreachable basename self ->
    vreachable basename (vstate_of (perform basename a self)).

(** The button states [update_navigation_buttons] computes. *)
Definition buttons_for (h : ImageHandler) : button_state * button_state :=
  (if has_images h && has_previous h then normal else disabled,
   if has_images h && has_next h then normal else disabled).

(** The timers the viewer remembers in [_resize_after]. *)
Definition remembered (self : ImageViewer) : list Z :=
  match resize_after self with Some id => [id] | None => [] end.

(** The viewer after [open_images] on the demo disk, in a frame of
    820 by 620 pixels. *)
Definition demo_viewer : ImageViewer :=
  vstate_of (open_images disk posix_basename (820, 620)
               ["a.jpg"; "not_an_image.txt"; "b.png"]%string new_viewer).

(** ** The size in exact arithmetic

    The size as the specification words it, with rational numbers:
    [ratio = min(w / W, h / H)], then [(floor(W * ratio), floor(H * ratio))]
    when [ratio < 1] and [(W, H)] otherwise. *)
Definition spec_fitted_size (W H w h : Z) : Z * Z :=
  let ratio :=
    Qminmax.Qmin
      (QArith_base.Qdiv (QArith_base.inject_Z w) (QArith_base.inject_Z W))
      (QArith_base.Qdiv (QArith_base.inject_Z h) (QArith_base.inject_Z H)) in
  if QArith_base.Qle_bool (QArith_base.inject_Z 1) ratio then (W, H)
  else (Qround.Qfloor (QArith_base.Qmult (QArith_base.inject_Z W) ratio),
        Qround.Qfloor (QArith_base.Qmult (QArith_base.inject_Z H) ratio)).

(** ** Further files and states *)

(** A strip of 4000 by 4 pixels and an image of 49 by 120. *)
Definition strip : ImageFile :=
  {| file_size := (4000, 4); file_verify := true; file_load := Some [7] |}.

Definition tall : ImageFile :=
  {| file_size := (49, 120); file_verify := true; file_load := Some [8] |}.

Definition portfolio : World :=
  {| path_exists := fun p => (p =? "strip.png")%string || (p =? "tall.png")%string;
     image_open := fun p =>
       if (p =? "strip.png")%string then Some strip
       else if (p =? "tall.png")%string then Some tall
       else None;
     resample := lanczos;
     photo_ok := fun _ => true |}.

(** Both were loaded, the cursor is on the strip. *)
Definition strips : ImageHandler :=
  exec (Load portfolio ["strip.png"; "tall.png"]%string) init.

(** A handler whose cursor was set to -1 by hand. *)
Definition rewound : ImageHandler :=
  {| images := ["a.jpg"; "b.png"]%string; current_index := -1;
     current_image := None; original_image := None |}.

(** ** Histories *)

(** Calls in a row, the head of the list first. *)
Fixpoint exec_all (cs : list call) (self : ImageHandler) : ImageHandler :=
  match cs with
  | [] => self
  | c :: rest => exec_all rest (exec c self)
  end.

(** The batch [images] comes from: the last [load_images] of [cs] that
    found a valid image, and [before] when there is none. *)
Fixpoint accepted_batch (cs : list call) (before : option (World * list string))
  : option (World * list string) :=
  match cs with
  | [] => before
  | Load w ps :: rest =>
      accepted_batch rest
        (if nonempty (filter (valid_image w) ps) then Some (w, ps) else before)
  | _ :: rest => accepted_batch rest before
  end.

(** Three calls on [disk]: a batch with two images, a move, and a batch
    without any image. *)
Definition session : list call :=
  [Load disk ["a.jpg"; "not_an_image.txt"; "b.png"]%string;
   Advance;
   Load disk ["not_an_image.txt"]%string].
(** ** Running method bodies *)

Ltac unfold_m :=
  unfold load_images, load_current_image, next_image, previous_image,
    is_valid_image, fit, os_path_exists, Image_open, img_verify, img_copy,
    img_resize, ImageTk_PhotoImage, print, set_images, set_current_index,
    set_current_image, set_original_image, try_except, bind, ret, get, put,
    lift, emit in *.

Lemma is_valid_image_run (w : World) (p : string) (self : ImageHandler) :
  exists t, is_valid_image w p self = (Ok (valid_image w p), self, t).
Proof.
  unfold valid_image. unfold_m. simpl.
  destruct (path_exists w p); simpl; [|eauto].
  destruct (image_open w p) as [img|]; simpl; [|eauto].
  destruct (file_verify img); simpl; eauto.
Qed.

Lemma collect_valid_run (w : World) (ps acc : list string) (self : ImageHandler) :
  exists t,
    collect_valid w ps acc self = (Ok (acc ++ filter (valid_image w) ps), self, t).
Proof.
  revert acc. induction ps as [|p ps IH]; intros acc; simpl.
  - rewrite app_nil_r. unfold ret. eauto.
  - unfold bind. destruct (is_valid_image_run w p self) as [t1 ->].
    destruct (valid_image w p).
    + destruct (IH (acc ++ [p])) as [t2 ->]. rewrite <- app_assoc. simpl. eauto.
    + destruct (IH acc) as [t2 ->]. eauto.
Qed.

(** What [load_images] does, in one equation. *)
Lemma load_images_run (w : World) (ps : list string) (self : ImageHandler) :
  exists t,
    load_images w ps self =
    (Ok (nonempty (filter (valid_image w) ps)),
     (if nonempty (filter (valid_image w) ps)
      then mkImageHandler (filter (valid_image w) ps) 0
             (current_image self) (original_image self)
      else self),
     t).
Proof.
  unfold load_images, bind at 1.
  destruct (collect_valid_run w ps [] self) as [t ->]. simpl.
  destruct (filter (valid_image w) ps); unfold_m; simpl; eauto.
Qed.

Lemma nonempty_length {A} (l : list A) :
  nonempty l = true <-> (0 < List.length l)%nat.
Proof. destruct l; simpl; split; intros; try easy; lia. Qed.

Lemma nonempty_len {A} (l : list A) : nonempty l = true <-> 0 < len l.
Proof. rewrite nonempty_length. unfold len. lia. Qed.

(** ** Loading a batch *)

(** C2: a batch with at least one valid image is accepted: [load_images]
    returns [True], [images] becomes the valid candidates in their
    original relative order (as many as there are valid ones) and
    [current_index] becomes 0. *)
Theorem load_images_success (w : World) (ps : list string) (self : ImageHandler)
    (HM : (0 < List.length (filter (valid_image w) ps))%nat) :
  let r := load_images w ps self in
  result_of r = Ok true /\
  images (state_of r) = filter (valid_image w) ps /\
  List.length (images (state_of r)) = List.length (filter (valid_image w) ps) /\
  current_index (state_of r) = 0.
Proof.
  destruct (load_images_run w ps self) as [t E]. cbv zeta. rewrite E.
  apply nonempty_length in HM. rewrite HM. simpl. auto.
Qed.

(** C3: a batch without any valid image is refused: [load_images] returns
    [False] and the handler is exactly as it was before the call. *)
Theorem load_images_empty_batch (w : World) (ps : list string) (self : ImageHandler)
    (HM : List.length (filter (valid_image w) ps) = 0%nat) :
  let r := load_images w ps self in
  result_of r = Ok false /\ state_of r = self.
Proof.
  destruct (load_images_run w ps self) as [t E]. cbv zeta. rewrite E.
  apply length_zero_iff_nil in HM. rewrite HM. simpl. auto.
Qed.

(** C9: [load_images] writes [images] and [current_index] only: the
    recorded original image and the bitmap are those of before the call,
    so [get_original_size] answers as before, whatever the batch. *)
Theorem load_images_frame (w : World) (ps : list string) (self : ImageHandler) :
  let self' := state_of (load_images w ps self) in
  original_image self' = original_image self /\
  current_image self' = current_image self /\
  get_original_size self' = get_original_size self.
Proof.
  destruct (load_images_run w ps self) as [t E]. cbv zeta. rewrite E.
  unfold get_original_size, state_of.
  destruct (nonempty (filter (valid_image w) ps)); simpl; auto.
Qed.

(** ** Moving the cursor *)

Lemma next_image_run (self : ImageHandler) :
  next_image self =
  if nonempty (images self) && (current_index self <? len (images self) - 1)
  then (Ok true,
        mkImageHandler (images self) (current_index self + 1)
          (current_image self) (original_image self), [])
  else (Ok false, self, []).
Proof.
  unfold_m. destruct (nonempty (images self)); simpl; [|reflexivity].
  destruct (current_index self <? len (images self) - 1); reflexivity.
Qed.

Lemma previous_image_run (self : ImageHandler) :
  previous_image self =
  if nonempty (images self) && (current_index self >? 0)
  then (Ok true,
        mkImageHandler (images self) (current_index self - 1)
          (current_image self) (original_image self), [])
  else (Ok false, self, []).
Proof.
  unfold_m. destruct (nonempty (images self)); simpl; [|reflexivity].
  destruct (current_index self >? 0); reflexivity.
Qed.

(** C5: [next_image] never takes the cursor past [len(images) - 1] and
    [previous_image] never takes it below 0; a move is by exactly one
    position and touches nothing else; at the last (first) position the
    call returns [False] and leaves the handler unchanged, so nothing
    wraps around. *)
Theorem navigation_bounds (self : ImageHandler) :
  let n := next_image self in
  let p := previous_image self in
  (* a move forward is one step and stays inside *)
  (result_of n = Ok true ->
     current_index (state_of n) = current_index self + 1 /\
     current_index (state_of n) <= len (images self) - 1 /\
     images (state_of n) = images self) /\
  (* otherwise nothing happens *)
  (result_of n = Ok true \/ (result_of n = Ok false /\ state_of n = self)) /\
  (len (images self) - 1 <= current_index self ->
     result_of n = Ok false /\ state_of n = self) /\
  (* a move backward is one step and stays inside *)
  (result_of p = Ok true ->
     current_index (state_of p) = current_index self - 1 /\
     0 <= current_index (state_of p) /\
     images (state_of p) = images self) /\
  (result_of p = Ok true \/ (result_of p = Ok false /\ state_of p = self)) /\
  (current_index self <= 0 ->
     result_of p = Ok false /\ state_of p = self).
Proof.
  cbv zeta. rewrite next_image_run, previous_image_run.
  destruct (nonempty (images self)); simpl;
    destruct (Z.ltb_spec (current_index self) (len (images self) - 1));
    destruct (Z.gtb_spec (current_index self) 0);
    simpl; repeat split; intros; auto; try discriminate; try lia.
Qed.

(** C6: [has_next] is true exactly when the cursor is before the last
    position, [has_previous] exactly when it is after the first. *)
Theorem has_next_has_previous (self : ImageHandler) :
  (has_next self = true <-> current_index self < len (images self) - 1) /\
  (has_previous self = true <-> current_index self > 0).
Proof.
  unfold has_next, has_previous. split.
  - apply Z.ltb_lt.
  - rewrite Z.gtb_ltb, Z.ltb_lt. lia.
Qed.

(** ** The cursor invariant *)

(** A method body respects a relation that is reflexive and transitive
    when each of its parts does. *)
Section Frame.
Variable R : ImageHandler -> ImageHandler -> Prop.
Hypothesis R_refl : forall s, R s s.
Hypothesis R_trans : forall s1 s2 s3, R s1 s2 -> R s2 s3 -> R s1 s3.

Lemma respects_ret {A} (a : A) : respects R (ret a).
Proof. intros s. apply R_refl. Qed.

Lemma respects_lift {A} (o : outcome A) : respects R (lift o).
Proof. intros s. apply R_refl. Qed.

Lemma respects_emit (e : event) : respects R (emit e).
Proof. intros s. apply R_refl. Qed.

Lemma respects_get : respects R get.
Proof. intros s. apply R_refl. Qed.

Lemma respects_bind {A B} (m : M A) (f : A -> M B) :
  respects R m -> (forall a, respects R (f a)) -> respects R (bind m f).
Proof.
  intros Hm Hf s. unfold bind. specialize (Hm s).
  destruct (m s) as [[[a|e] s1] t1]; simpl in *; [|exact Hm].
  specialize (Hf a s1). destruct (f a s1) as [[r s2] t2]; simpl in *.
  eapply R_trans; eassumption.
Qed.

(** The state is read, then the rest runs from that same state. *)
Lemma respects_get_bind {A} (f : ImageHandler -> M A) :
  (forall s, R s (state_of (f s s))) -> respects R (bind get f).
Proof.
  intros Hf s. unfold bind, get. specialize (Hf s).
  destruct (f s s) as [[r s2] t2]; simpl in *. exact Hf.
Qed.

Lemma respects_try_except {A} (m : M A) (h : exn -> M A) :
  respects R m -> (forall e, respects R (h e)) -> respects R (try_except m h).
Proof.
  intros Hm Hh s. unfold try_except. specialize (Hm s).
  destruct (m s) as [[[a|e] s1] t1]; simpl in *; [exact Hm|].
  specialize (Hh e s1). destruct (h e s1) as [[r s2] t2]; simpl in *.
  eapply R_trans; eassumption.
Qed.

Lemma respects_if {A} (b : bool) (m1 m2 : M A) :
  respects R m1 -> respects R m2 -> respects R (if b then m1 else m2).
Proof. destruct b; auto. Qed.

(** The library calls do not touch the handler. *)
Lemma respects_calls (w : World) :
  (forall p, respects R (os_path_exists w p)) /\
  (forall p, respects R (Image_open w p)) /\
  (forall img, respects R (img_verify img)) /\
  (forall img, respects R (img_copy img)) /\
  (forall img sz, respects R (img_resize w img sz)) /\
  (forall img, respects R (ImageTk_PhotoImage w img)) /\
  (forall e, respects R (print e)).
Proof. repeat split; intros; intros s; apply R_refl. Qed.

Lemma respects_fit (w : World) (img : ImageFile) (tw th : Z) :
  respects R (fit w img tw th).
Proof.
  destruct (respects_calls w) as (_ & _ & _ & Hcopy & Hresize & _).
  unfold fit. destruct (file_size img) as [iw ih].
  repeat (apply respects_bind; [apply respects_lift|intros ?]).
  apply respects_if; [|apply Hcopy].
  repeat (apply respects_bind; [apply respects_lift|intros ?]).
  apply Hresize.
Qed.

(** [load_current_image] respects whatever its two assignments do. *)
Lemma respects_load_current_image (w : World) (tw th : Z) :
  (forall v, respects R (set_original_image v)) ->
  (forall v, respects R (set_current_image v)) ->
  respects R (load_current_image w tw th).
Proof.
  intros Horig Hcur.
  destruct (respects_calls w) as (_ & Hopen & _ & Hcopy & _ & Hphoto & Hprint).
  unfold load_current_image.
  apply respects_get_bind. intros s.
  destruct (negb (nonempty (images s)) || (len (images s) <=? current_index s));
    [apply R_refl|].
  apply respects_try_except.
  - apply respects_bind; [apply respects_lift|intros p].
    apply respects_bind; [apply Hopen|intros img].
    apply respects_bind; [apply Hcopy|intros orig].
    apply respects_bind; [apply Horig|intros _].
    apply respects_bind; [apply respects_fit|intros r].
    apply respects_bind; [apply Hphoto|intros photo].
    apply respects_bind; [apply Hcur|intros _].
    apply respects_ret.
  - intros e. apply respects_bind; [apply Hprint|intros _]. apply respects_ret.
Qed.
End Frame.

(** [load_current_image] never writes [images] or [current_index]. *)
Lemma load_current_image_cursor (w : World) (tw th : Z) (self : ImageHandler) :
  images (state_of (load_current_image w tw th self)) = images self /\
  current_index (state_of (load_current_image w tw th self)) = current_index self.
Proof.
  pose (R := fun s s' : ImageHandler =>
               images s' = images s /\ current_index s' = current_index s).
  apply (respects_load_current_image R); subst R; simpl.
  - auto.
  - intros s1 s2 s3 [-> ->] [-> ->]. auto.
  - intros v s. cbn. auto.
  - intros v s. cbn. auto.
Qed.

Lemma cursor_inv_exec (c : call) (self : ImageHandler) :
  cursor_inv self -> cursor_inv (exec c self).
Proof.
  intros (H0 & He & Hn). destruct c as [w ps| | |w tw th]; simpl.
  - destruct (load_images_run w ps self) as [t ->]. unfold state_of. simpl.
    destruct (filter (valid_image w) ps) as [|p l] eqn:E; simpl.
    + repeat split; assumption.
    + unfold cursor_inv, len. simpl. repeat split; try lia; try easy.
  - rewrite next_image_run.
    destruct (nonempty (images self)) eqn:E; simpl; [|repeat split; assumption].
    destruct (Z.ltb_spec (current_index self) (len (images self) - 1)); simpl;
      [|repeat split; assumption].
    unfold cursor_inv; simpl. repeat split; try lia.
    intros Hnil. rewrite Hnil in E. discriminate.
  - rewrite previous_image_run.
    destruct (nonempty (images self)) eqn:E; simpl; [|repeat split; assumption].
    destruct (Z.gtb_spec (current_index self) 0); simpl;
      [|repeat split; assumption].
    unfold cursor_inv; simpl. repeat split; try lia.
    + intros Hnil. rewrite Hnil in E. discriminate.
    + intros Hne. specialize (Hn Hne). lia.
  - destruct (load_current_image_cursor w tw th self) as [Hi Hc].
    unfold cursor_inv. rewrite Hi, Hc. repeat split; assumption.
Qed.

Lemma cursor_inv_reachable (self : ImageHandler) :
  reachable self -> cursor_inv self.
Proof.
  induction 1 as [|c s _ IH].
  - unfold cursor_inv, init; simpl. repeat split; try lia; try easy.
  - apply cursor_inv_exec, IH.
Qed.

Lemma reachable_nav_reachable (self : ImageHandler) :
  reachable_nav self -> reachable self.
Proof. induction 1; [constructor|constructor; assumption]. Qed.

(** C4: in every state reached from the initial one by calls of
    [load_images], [next_image] and [previous_image], a non-empty
    [images] comes with [0 <= current_index < len(images)]. *)
Theorem cursor_in_range (self : ImageHandler)
    (Hreach : reachable_nav self) (Hne : images self <> []) :
  0 <= current_index self < len (images self).
Proof.
  destruct (cursor_inv_reachable self (reachable_nav_reachable self Hreach))
    as (H0 & _ & Hn).
  split; [exact H0|exact (Hn Hne)].
Qed.

(** ** Binary64 arithmetic *)

Module Binary64.

Lemma digits2_size (p : positive) : digits2_pos p = Pos.size p.
Proof. induction p; simpl; congruence. Qed.

Lemma Zdigits2_bounds (p : positive) :
  2 ^ (Zdigits2 (Zpos p) - 1) <= Zpos p < 2 ^ Zdigits2 (Zpos p).
Proof.
  change (Zdigits2 (Zpos p)) with (Zpos (digits2_pos p)).
  rewrite digits2_size. split.
  - pose proof (Pos.size_le p) as H.
    assert (E : Zpos (2 ^ Pos.size p) = 2 ^ Zpos (Pos.size p))
      by (rewrite Pos2Z.inj_pow; reflexivity).
    assert (H2 : 2 ^ Zpos (Pos.size p) <= 2 * Zpos p) by (rewrite <- E; exact H).
    replace (Zpos (Pos.size p)) with (Z.succ (Zpos (Pos.size p) - 1)) in H2 by lia.
    rewrite Z.pow_succ_r in H2 by lia. lia.
  - pose proof (Pos.size_gt p) as H.
    assert (E : Zpos (2 ^ Pos.size p) = 2 ^ Zpos (Pos.size p))
      by (rewrite Pos2Z.inj_pow; reflexivity).
    rewrite <- E. exact H.
Qed.

Lemma Zdigits2_nonneg (m : Z) : 0 <= Zdigits2 m.
Proof. destruct m; simpl; lia. Qed.

(** A number below [2^k] has at most [k] digits. *)
Lemma Zdigits2_le (m k : Z) : 0 <= m < 2 ^ k -> 0 <= k -> Zdigits2 m <= k.
Proof.
  intros [H0 Hlt] Hk. destruct m as [|p|p]; [simpl; lia| |lia].
  destruct (Zdigits2_bounds p) as [Hlo _].
  destruct (Z_le_gt_dec (Zdigits2 (Zpos p)) k) as [|Hgt]; [assumption|].
  exfalso.
  assert (2 ^ k <= 2 ^ (Zdigits2 (Zpos p) - 1))
    by (apply Z.pow_le_mono_r; lia).
  lia.
Qed.

(** *** Shifting right *)

Lemma iter_pos_nat {A} (f : A -> A) (p : positive) (x : A) :
  iter_pos f p x = Nat.iter (Pos.to_nat p) f x.
Proof.
  revert x. induction p as [p IH|p IH|]; intros x; simpl iter_pos.
  - rewrite !IH, Pos2Nat.inj_xI.
    replace (S (2 * Pos.to_nat p))%nat with (Pos.to_nat p + S (Pos.to_nat p))%nat by lia.
    rewrite Nat.iter_add, Nat.iter_succ_r. reflexivity.
  - rewrite !IH, Pos2Nat.inj_xO.
    replace (2 * Pos.to_nat p)%nat with (Pos.to_nat p + Pos.to_nat p)%nat by lia.
    rewrite Nat.iter_add. reflexivity.
  - reflexivity.
Qed.

Lemma shr_1_m (mrs : shr_record) :
  0 <= shr_m mrs -> shr_m (shr_1 mrs) = shr_m mrs / 2.
Proof.
  destruct mrs as [m r s]. simpl. intros Hm.
  destruct m as [|[p|p|]|p]; simpl; try lia; try reflexivity.
  - rewrite Pos2Z.inj_xI.
    apply Z.div_unique with (r := 1); lia.
  - rewrite Pos2Z.inj_xO.
    apply Z.div_unique with (r := 0); lia.
Qed.

Lemma shr_1_exact (mrs : shr_record) :
  0 <= shr_m mrs -> shr_r mrs = false -> shr_s mrs = false ->
  shr_m mrs mod 2 = 0 ->
  shr_r (shr_1 mrs) = false /\ shr_s (shr_1 mrs) = false.
Proof.
  destruct mrs as [m r s]. simpl. intros Hm -> -> Hmod.
  destruct m as [|[p|p|]|p]; simpl; try lia; auto.
  - rewrite Pos2Z.inj_xI in Hmod.
    replace (2 * Zpos p + 1) with (1 + Zpos p * 2) in Hmod by lia.
    rewrite Z.mod_add in Hmod by lia. discriminate.
  - discriminate.
Qed.

Lemma shr_iter_m (k : nat) (mrs : shr_record) :
  0 <= shr_m mrs ->
  shr_m (Nat.iter k shr_1 mrs) = shr_m mrs / 2 ^ Z.of_nat k.
Proof.
  intros Hm. induction k as [|k IH].
  - simpl. rewrite Z.div_1_r. reflexivity.
  - rewrite Nat2Z.inj_succ, Z.pow_succ_r by lia. simpl Nat.iter.
    rewrite shr_1_m.
    + rewrite IH, Z.div_div by lia. f_equal. lia.
    + rewrite IH. apply Z.div_pos; lia.
Qed.

Lemma shr_iter_exact (k : nat) (mrs : shr_record) :
  0 <= shr_m mrs -> shr_r mrs = false -> shr_s mrs = false ->
  shr_m mrs mod 2 ^ Z.of_nat k = 0 ->
  shr_r (Nat.iter k shr_1 mrs) = false /\ shr_s (Nat.iter k shr_1 mrs) = false.
Proof.
  intros Hm Hr Hs. induction k as [|k IH]; intros Hmod.
  - simpl. auto.
  - rewrite Nat2Z.inj_succ, Z.pow_succ_r in Hmod by lia.
    assert (Hpos : 0 < 2 ^ Z.of_nat k) by (apply Z.pow_pos_nonneg; lia).
    apply Z.mod_divide in Hmod; [|lia]. destruct Hmod as [c Hc].
    assert (Hk : shr_m mrs mod 2 ^ Z.of_nat k = 0).
    { apply Z.mod_divide; [lia|]. exists (c * 2). lia. }
    destruct (IH Hk) as [Hr' Hs']. simpl Nat.iter.
    apply shr_1_exact; auto.
    + rewrite shr_iter_m by assumption. apply Z.div_pos; lia.
    + rewrite shr_iter_m by assumption.
      replace (shr_m mrs) with (c * 2 * 2 ^ Z.of_nat k) by lia.
      rewrite Z.div_mul by lia. apply Z.mod_mul. lia.
Qed.

Lemma shr_spec (mrs : shr_record) (e n : Z) :
  0 <= shr_m mrs ->
  snd (shr mrs e n) = e + Z.max 0 n /\
  shr_m (fst (shr mrs e n)) = shr_m mrs / 2 ^ Z.max 0 n /\
  (shr_r mrs = false -> shr_s mrs = false ->
   shr_m mrs mod 2 ^ Z.max 0 n = 0 ->
   loc_of_shr_record (fst (shr mrs e n)) = loc_Exact).
Proof.
  intros Hm. destruct n as [|k|k]; simpl shr; simpl Z.max.
  - rewrite Z.add_0_r, Z.div_1_r. repeat split; auto.
    destruct mrs as [m r s]; simpl. intros -> -> _. reflexivity.
  - rewrite iter_pos_nat. simpl fst; simpl snd.
    assert (Ek : Z.max 0 (Zpos k) = Z.of_nat (Pos.to_nat k))
      by (rewrite positive_nat_Z; lia).
    rewrite Ek. repeat split.
    + rewrite <- Ek. lia.
    + apply shr_iter_m, Hm.
    + intros Hr Hs Hmod.
      destruct (shr_iter_exact (Pos.to_nat k) mrs Hm Hr Hs Hmod) as [Hr' Hs'].
      destruct (Nat.iter (Pos.to_nat k) shr_1 mrs) as [m' r' s'].
      simpl in *. subst. reflexivity.
  - rewrite Z.add_0_r, Z.div_1_r. repeat split; auto.
    destruct mrs as [m r s]; simpl. intros -> -> _. reflexivity.
Qed.

(** *** One rounding step *)

Local Abbreviation fexp := (SpecFloat.fexp prec emax).
Local Abbreviation shr_fexp := (SpecFloat.shr_fexp prec emax).
Local Abbreviation binary_round_aux := (SpecFloat.binary_round_aux prec emax).

Lemma fexp_eq (x : Z) : fexp x = Z.max (x - 53) (-1074).
Proof. reflexivity. Qed.

Lemma shr_fexp_spec (m e : Z) (l : location) :
  0 <= m ->
  let e' := Z.max e (fexp (Zdigits2 m + e)) in
  snd (shr_fexp m e l) = e' /\
  shr_m (fst (shr_fexp m e l)) = m / 2 ^ (e' - e) /\
  (l = loc_Exact -> m mod 2 ^ (e' - e) = 0 ->
   loc_of_shr_record (fst (shr_fexp m e l)) = loc_Exact).
Proof.
  intros Hm e'. unfold SpecFloat.shr_fexp.
  assert (Hm' : 0 <= shr_m (shr_record_of_loc m l))
    by (destruct l as [|[| |]]; exact Hm).
  assert (Em : shr_m (shr_record_of_loc m l) = m)
    by (destruct l as [|[| |]]; reflexivity).
  destruct (shr_spec (shr_record_of_loc m l) e (fexp (Zdigits2 m + e) - e) Hm')
    as (He & Hq & Hx).
  assert (Ek : Z.max 0 (fexp (Zdigits2 m + e) - e) = e' - e) by (subst e'; lia).
  rewrite Ek, Em in *. repeat split.
  - rewrite He. lia.
  - exact Hq.
  - intros -> Hmod. apply Hx; auto.
Qed.

Lemma round_nearest_even_bounds (m : Z) (l : location) :
  m <= round_nearest_even m l <= m + 1.
Proof.
  destruct l as [|[| |]]; simpl; try lia. destruct (Z.even m); lia.
Qed.

Lemma dy_le_mono (m m' e B : Z) : m' <= m -> dy_le m e B -> dy_le m' e B.
Proof.
  unfold dy_le. intros Hle H.
  assert (0 <= 2 ^ Z.max 0 e) by (apply Z.pow_nonneg; lia). nia.
Qed.

(** Rounding an exact dyadic that is at most the integer [B < 2^53]
    keeps it at most [B]: [B] is itself on the grid of the result. *)
Lemma round_step_le (m e B : Z) :
  0 <= m -> 0 <= B < 2 ^ 53 -> dy_le m e B ->
  let r := shr_fexp m e loc_Exact in
  let m2 := round_nearest_even (shr_m (fst r)) (loc_of_shr_record (fst r)) in
  0 <= m2 /\ dy_le m2 (snd r) B.
Proof.
  intros Hm HB Hle r m2.
  destruct (shr_fexp_spec m e loc_Exact Hm) as (He & Hq & Hx).
  fold r in He, Hq, Hx. set (e1 := Z.max e (fexp (Zdigits2 m + e))) in *.
  assert (Hk : 0 <= e1 - e) by (subst e1; lia).
  assert (Hpk : 0 < 2 ^ (e1 - e)) by (apply Z.pow_pos_nonneg; lia).
  assert (Hm1 : 0 <= shr_m (fst r)) by (rewrite Hq; apply Z.div_pos; lia).
  pose proof (round_nearest_even_bounds (shr_m (fst r)) (loc_of_shr_record (fst r))) as Hr.
  fold m2 in Hr. split; [lia|]. rewrite He.
  destruct (Z.eq_dec e1 e) as [Ee|Ne].
  - (* nothing is shifted out *)
    assert (Hex : loc_of_shr_record (fst r) = loc_Exact).
    { apply Hx; [reflexivity|]. rewrite Ee, Z.sub_diag. apply Z.mod_1_r. }
    assert (E2 : m2 = m).
    { subst m2. rewrite Hex. simpl. rewrite Hq, Ee, Z.sub_diag. apply Z.div_1_r. }
    rewrite E2, Ee. exact Hle.
  - (* [e1 - e] bits are shifted out *)
    assert (Hlt : e < e1) by lia.
    assert (Hfe : e1 = fexp (Zdigits2 m + e)) by (subst e1; lia).
    rewrite fexp_eq in Hfe.
    destruct (Z.eq_dec m 0) as [->|Hnz].
    { assert (Hex : loc_of_shr_record (fst r) = loc_Exact).
      { apply Hx; [reflexivity|]. apply Z.mod_0_l. lia. }
      assert (E2 : m2 = 0).
      { subst m2. rewrite Hex. simpl. rewrite Hq. apply Z.div_0_l. lia. }
      rewrite E2. unfold dy_le. rewrite Z.mul_0_l.
      apply Z.mul_nonneg_nonneg; [lia|apply Z.pow_nonneg; lia]. }
    assert (Hmpos : 0 < m) by lia.
    assert (Hd : Zdigits2 m + e - 53 <= 0).
    { destruct m as [|pm|pm]; try lia.
      destruct (Zdigits2_bounds pm) as [Hlo _].
      set (d := Zdigits2 (Zpos pm)) in *.
      pose proof (Zdigits2_nonneg (Zpos pm)) as Hd0. fold d in Hd0.
      assert (Hd1 : 1 <= d) by (subst d; simpl; lia).
      unfold dy_le in Hle.
      destruct (Z_le_gt_dec (d + e - 53) 0) as [|Hgt]; [assumption|exfalso].
      assert (H1 : 2 ^ (d - 1) * 2 ^ Z.max 0 e <= B * 2 ^ Z.max 0 (- e)).
      { eapply Z.le_trans; [|exact Hle].
        apply Z.mul_le_mono_nonneg_r; [apply Z.pow_nonneg; lia|exact Hlo]. }
      assert (H2 : B * 2 ^ Z.max 0 (- e) < 2 ^ 53 * 2 ^ Z.max 0 (- e)).
      { apply Z.mul_lt_mono_pos_r; [apply Z.pow_pos_nonneg; lia|lia]. }
      rewrite <- !Z.pow_add_r in * by lia.
      assert (H3 : 2 ^ (53 + Z.max 0 (- e)) <= 2 ^ (d - 1 + Z.max 0 e))
        by (apply Z.pow_le_mono_r; lia).
      lia. }
    assert (He1 : e1 <= 0) by lia.
    assert (He0 : e < 0) by lia.
    unfold dy_le in *.
    replace (Z.max 0 e1) with 0 by lia.
    replace (Z.max 0 e) with 0 in Hle by lia.
    replace (Z.max 0 (- e1)) with (- e1) by lia.
    replace (Z.max 0 (- e)) with (- e1 + (e1 - e)) in Hle by lia.
    rewrite Z.pow_add_r in Hle by lia.
    rewrite Z.pow_0_r, Z.mul_1_r in *.
    set (N := B * 2 ^ (- e1)) in *. set (P := 2 ^ (e1 - e)) in *.
    assert (HmN : m <= N * P) by lia.
    pose proof (Z.div_mod m P ltac:(lia)) as Hdm.
    pose proof (Z.mod_pos_bound m P Hpk) as Hmod.
    destruct (Z.eq_dec (m mod P) 0) as [E0|N0].
    + assert (Hex : loc_of_shr_record (fst r) = loc_Exact)
        by (apply Hx; [reflexivity|exact E0]).
      assert (E2 : m2 = m / P).
      { subst m2. rewrite Hex. simpl. exact Hq. }
      rewrite E2. apply Z.div_le_upper_bound; lia.
    + assert (m / P < N).
      { destruct (Z_lt_le_dec (m / P) N) as [|Hge]; [assumption|exfalso].
        assert (P * N <= P * (m / P)) by (apply Z.mul_le_mono_nonneg_l; lia).
        lia. }
      rewrite Hq in Hr. lia.
Qed.

(** *** Rounding to a float *)

Lemma binary_round_aux_unfold (s : bool) (m e : Z) (l : location) :
  binary_round_aux s m e l =
  let r1 := shr_fexp m e l in
  let m2 := round_nearest_even (shr_m (fst r1)) (loc_of_shr_record (fst r1)) in
  let r2 := shr_fexp m2 (snd r1) loc_Exact in
  match shr_m (fst r2) with
  | Z0 => S754_zero s
  | Zpos p => if snd r2 <=? emax - prec then S754_finite s p (snd r2)
              else S754_infinity s
  | Zneg _ => S754_nan
  end.
Proof.
  unfold SpecFloat.binary_round_aux.
  destruct (shr_fexp m e l) as [mrs1 e1]. simpl fst; simpl snd. cbv zeta.
  destruct (shr_fexp _ e1 loc_Exact) as [mrs2 e2]. reflexivity.
Qed.

(** An exact dyadic at most [B < 2^53] rounds to a float at most [B]. *)
Lemma binary_round_aux_le (s : bool) (m e B : Z) :
  0 <= m -> 0 <= B < 2 ^ 53 -> dy_le m e B ->
  binary_round_aux s m e loc_Exact = S754_zero s \/
  exists m' e', binary_round_aux s m e loc_Exact = S754_finite s m' e' /\
                dy_le (Zpos m') e' B.
Proof.
  intros Hm HB Hle. rewrite binary_round_aux_unfold. cbv zeta.
  destruct (round_step_le m e B Hm HB Hle) as [Hm2 Hle2].
  set (r1 := shr_fexp m e loc_Exact) in *.
  set (m2 := round_nearest_even (shr_m (fst r1)) (loc_of_shr_record (fst r1))) in *.
  destruct (round_step_le m2 (snd r1) B Hm2 HB Hle2) as [_ Hle3].
  destruct (shr_fexp_spec m2 (snd r1) loc_Exact Hm2) as (He & Hq & _).
  set (r2 := shr_fexp m2 (snd r1) loc_Exact) in *.
  pose proof (round_nearest_even_bounds (shr_m (fst r2)) (loc_of_shr_record (fst r2))) as Hr.
  assert (Hle4 : dy_le (shr_m (fst r2)) (snd r2) B)
    by (eapply dy_le_mono; [|exact Hle3]; lia).
  assert (Hm3 : 0 <= shr_m (fst r2)).
  { rewrite Hq. apply Z.div_pos; [lia|apply Z.pow_pos_nonneg; lia]. }
  destruct (shr_m (fst r2)) as [|p|p] eqn:E3.
  - left. reflexivity.
  - right. exists p, (snd r2).
    assert (Hfit : (snd r2 <=? emax - prec) = true).
    { apply Z.leb_le. change (emax - prec) with 971.
      destruct (Z_le_gt_dec (snd r2) 971) as [|Hgt]; [assumption|exfalso].
      unfold dy_le in Hle4.
      replace (Z.max 0 (snd r2)) with (snd r2) in Hle4 by lia.
      replace (Z.max 0 (- snd r2)) with 0 in Hle4 by lia.
      assert (2 ^ 53 <= 2 ^ snd r2) by (apply Z.pow_le_mono_r; lia).
      assert (0 < 2 ^ snd r2) by (apply Z.pow_pos_nonneg; lia).
      rewrite Z.pow_0_r in Hle4. nia. }
    rewrite Hfit. split; [reflexivity|exact Hle4].
  - lia.
Qed.

(** Whatever is rounded, the result carries the given sign and at most
    [prec] digits. *)
Lemma binary_round_aux_digits (s : bool) (m e : Z) (l : location) :
  0 <= m ->
  match binary_round_aux s m e l with
  | S754_zero s' | S754_infinity s' => s' = s
  | S754_finite s' m' _ => s' = s /\ Zdigits2 (Zpos m') <= prec
  | S754_nan => False
  end.
Proof.
  intros Hm. rewrite binary_round_aux_unfold. cbv zeta.
  set (r1 := shr_fexp m e l).
  set (m2 := round_nearest_even (shr_m (fst r1)) (loc_of_shr_record (fst r1))).
  destruct (shr_fexp_spec m e l Hm) as (_ & Hq1 & _). fold r1 in Hq1.
  assert (Hm1 : 0 <= shr_m (fst r1)).
  { rewrite Hq1. apply Z.div_pos; [lia|apply Z.pow_pos_nonneg; lia]. }
  pose proof (round_nearest_even_bounds (shr_m (fst r1)) (loc_of_shr_record (fst r1))) as Hr.
  fold m2 in Hr. assert (Hm2 : 0 <= m2) by lia.
  destruct (shr_fexp_spec m2 (snd r1) loc_Exact Hm2) as (He & Hq & _).
  set (r2 := shr_fexp m2 (snd r1) loc_Exact) in *.
  set (k := Z.max (snd r1) (fexp (Zdigits2 m2 + snd r1)) - snd r1) in *.
  assert (Hk : 0 <= k) by (subst k; lia).
  assert (Hkd : Zdigits2 m2 - 53 <= k) by (subst k; rewrite fexp_eq; lia).
  assert (Hpk : 0 < 2 ^ k) by (apply Z.pow_pos_nonneg; lia).
  assert (Hm3 : 0 <= shr_m (fst r2)) by (rewrite Hq; apply Z.div_pos; lia).
  assert (Hd3 : Zdigits2 (shr_m (fst r2)) <= 53).
  { apply Zdigits2_le; [|lia]. split; [exact Hm3|]. rewrite Hq.
    apply Z.div_lt_upper_bound; [lia|].
    destruct m2 as [|p2|p2]; [apply Z.mul_pos_pos; lia| |lia].
    destruct (Zdigits2_bounds p2) as [_ Hhi].
    eapply Z.lt_le_trans; [exact Hhi|].
    rewrite <- Z.pow_add_r by lia. apply Z.pow_le_mono_r; lia. }
  destruct (shr_m (fst r2)) as [|p|p] eqn:E3; [reflexivity| |lia].
  destruct (snd r2 <=? emax - prec); [split; [reflexivity|exact Hd3]|reflexivity].
Qed.

(** A number below [2^1023] whose exponent is at most [emax - prec]
    does not round to an infinity. *)
Lemma binary_round_aux_finite (s : bool) (m e : Z) (l : location) :
  0 <= m -> e <= 971 -> Zdigits2 m + e <= 1023 ->
  forall s', binary_round_aux s m e l <> S754_infinity s'.
Proof.
  intros Hm He Hd s'. rewrite binary_round_aux_unfold. cbv zeta.
  set (r1 := shr_fexp m e l).
  set (m2 := round_nearest_even (shr_m (fst r1)) (loc_of_shr_record (fst r1))).
  destruct (shr_fexp_spec m e l Hm) as (He1 & Hq1 & _). fold r1 in He1, Hq1.
  set (e1 := Z.max e (fexp (Zdigits2 m + e))) in *.
  assert (Hk1 : 0 <= e1 - e) by (subst e1; lia).
  assert (He1' : e1 <= 971) by (subst e1; rewrite fexp_eq; lia).
  assert (Hpk : 0 < 2 ^ (e1 - e)) by (apply Z.pow_pos_nonneg; lia).
  assert (Hm1 : 0 <= shr_m (fst r1)) by (rewrite Hq1; apply Z.div_pos; lia).
  pose proof (round_nearest_even_bounds (shr_m (fst r1)) (loc_of_shr_record (fst r1))) as Hr.
  fold m2 in Hr. assert (Hm2 : 0 <= m2) by lia.
  (* the rounded mantissa has at most one digit more than what is kept *)
  set (j := Z.max 0 (Zdigits2 m - (e1 - e))).
  assert (Hj : shr_m (fst r1) < 2 ^ j).
  { rewrite Hq1. apply Z.div_lt_upper_bound; [lia|].
    rewrite <- Z.pow_add_r by lia.
    destruct m as [|pm|pm]; [apply Z.pow_pos_nonneg; lia| |lia].
    destruct (Zdigits2_bounds pm) as [_ Hhi].
    eapply Z.lt_le_trans; [exact Hhi|].
    apply Z.pow_le_mono_r; lia. }
  assert (Hd2 : Zdigits2 m2 <= j + 1).
  { apply Zdigits2_le; [|lia]. split; [lia|].
    rewrite Z.pow_add_r by lia. change (2 ^ 1) with 2.
    assert (0 < 2 ^ j) by (apply Z.pow_pos_nonneg; lia). lia. }
  destruct (shr_fexp_spec m2 (snd r1) loc_Exact Hm2) as (He2 & _ & _).
  set (r2 := shr_fexp m2 (snd r1) loc_Exact) in *.
  assert (He2' : snd r2 <= 971).
  { rewrite He2, He1, fexp_eq. lia. }
  destruct (shr_m (fst r2)); try discriminate.
  apply Z.leb_le in He2'. change (emax - prec) with 971. rewrite He2'.
  discriminate.
Qed.

(** *** Division of two integers *)

Lemma nonneg_float_round (m e : Z) (l : location) :
  0 <= m -> (forall s', binary_round_aux false m e l <> S754_infinity s') ->
  nonneg_float (binary_round_aux false m e l).
Proof.
  intros Hm Hfin. pose proof (binary_round_aux_digits false m e l Hm) as H.
  destruct (binary_round_aux false m e l) as [s|s| |s m' e'].
  - subst s. left. reflexivity.
  - exfalso. exact (Hfin s eq_refl).
  - contradiction.
  - destruct H as [-> Hd]. right. exists m', e'. split; [reflexivity|exact Hd].
Qed.

(** What goes into the rounding of [a / b]: a non-negative mantissa
    with a non-positive exponent, below [2^1023] when [a] is. *)
Lemma SFdiv_core_binary_bounds (a b : positive) :
  Zpos a < 2 ^ 1023 ->
  let '(q, e, _) := SFdiv_core_binary prec emax (Zpos a) 0 (Zpos b) 0 in
  0 <= q /\ e <= 0 /\ Zdigits2 q + e <= 1023.
Proof.
  intros Ha. unfold SFdiv_core_binary.
  set (e' := Z.min (SpecFloat.fexp prec emax
                      (Zdigits2 (Zpos a) + 0 - (Zdigits2 (Zpos b) + 0))) (0 - 0)).
  assert (He' : e' <= 0) by (subst e'; lia).
  set (m' := match 0 - 0 - e' with
             | Zpos _ => Z.shiftl (Zpos a) (0 - 0 - e')
             | Z0 => Zpos a
             | Zneg _ => 0
             end).
  assert (Hm' : m' = Zpos a * 2 ^ (- e')).
  { subst m'. replace (0 - 0 - e') with (- e') by lia.
    destruct (- e') as [|k|k] eqn:Ek; try lia.
    apply Z.shiftl_mul_pow2. lia. }
  assert (Hp : 0 < 2 ^ (- e')) by (apply Z.pow_pos_nonneg; lia).
  pose proof (Z.div_eucl_eq m' (Zpos b) ltac:(lia)) as Heq.
  pose proof (Z.mod_pos_bound m' (Zpos b) ltac:(lia)) as Hmod.
  unfold Z.modulo in Hmod.
  destruct (Z.div_eucl m' (Zpos b)) as [q r].
  assert (Hq0 : 0 <= q) by nia.
  assert (Hqm : q <= m') by nia.
  repeat split; [exact Hq0|exact He'|].
  assert (Zdigits2 q <= 1023 + - e'); [|lia].
  apply Zdigits2_le; [|lia]. split; [exact Hq0|].
  rewrite Z.pow_add_r by lia. nia.
Qed.

Lemma quotient_nonneg (a b : Z) :
  0 <= a < 2 ^ 1023 -> 0 < b ->
  truediv a b = Ok (quotient a b) /\ nonneg_float (quotient a b).
Proof.
  intros [Ha0 Ha] Hb. unfold truediv, quotient.
  destruct (Z.eqb_spec b 0) as [|_]; [lia|].
  destruct b as [|pb|pb]; try lia.
  destruct a as [|pa|pa]; try lia.
  - simpl. split; [reflexivity|left; reflexivity].
  - unfold exact, SFdiv.
    pose proof (SFdiv_core_binary_bounds pa pb Ha) as H.
    destruct (SFdiv_core_binary prec emax (Zpos pa) 0 (Zpos pb) 0) as [[q e] l].
    destruct H as (Hq & He & Hd). simpl xorb.
    assert (Hfin : forall s', binary_round_aux false q e l <> S754_infinity s')
      by (apply binary_round_aux_finite; lia).
    pose proof (nonneg_float_round q e l Hq Hfin) as Hnn.
    split; [|exact Hnn].
    destruct Hnn as [->|(m' & e' & -> & _)]; reflexivity.
Qed.

Lemma min_nonneg (a b : float) :
  nonneg_float a -> nonneg_float b -> nonneg_float (Py.min a b).
Proof. intros Ha Hb. unfold Py.min. destruct (SFltb b a); assumption. Qed.

(** A non-negative float that compares below [1.0] is at most 1. *)
Lemma lt_one_le (x : float) :
  nonneg_float x -> lt_one x = true ->
  x = S754_zero false \/
  exists m e, x = S754_finite false m e /\ dy_le (Zpos m) e 1.
Proof.
  intros [->|(m & e & -> & Hd)] Hlt; [left; reflexivity|right].
  exists m, e. split; [reflexivity|].
  destruct (Zdigits2_bounds m) as [Hlo _].
  assert (Hm53 : Zpos m < 2 ^ 53).
  { destruct (Zdigits2_bounds m) as [_ Hhi].
    eapply Z.lt_le_trans; [exact Hhi|]. apply Z.pow_le_mono_r; [lia|exact Hd]. }
  unfold lt_one, SFltb, one, SFcompare in Hlt. unfold dy_le.
  destruct (Z.compare_spec e (-52)) as [Ee|Elt|Egt]; try discriminate.
  - subst e.
    rewrite Pos.compare_cont_spec in Hlt. simpl Pos.switch_Eq in Hlt.
    destruct (Pos.compare_spec m 4503599627370496) as [|Hml|]; try discriminate.
    apply Pos2Z.pos_lt_pos in Hml.
    change (Zpos m * 1 <= 1 * 4503599627370496).
    clear - Hml. lia.
  - replace (Z.max 0 e) with 0 by lia. replace (Z.max 0 (- e)) with (- e) by lia.
    assert (2 ^ 53 <= 2 ^ (- e)) by (apply Z.pow_le_mono_r; lia).
    rewrite Z.pow_0_r. lia.
Qed.

(** *** Multiplying an integer by a ratio *)

Lemma iter_xO (m d : positive) : Zpos (Pos.iter xO m d) = Zpos m * 2 ^ Zpos d.
Proof.
  induction d as [|d IH] using Pos.peano_ind.
  - simpl. lia.
  - rewrite Pos.iter_succ, Pos2Z.inj_xO, IH, Pos2Z.inj_succ, Z.pow_succ_r by lia.
    lia.
Qed.

(** [float(n)] is at most [n] (it is [n], but the bound is what the
    rendering needs). *)
Lemma float_of_int_le (n : Z) :
  0 < n < 2 ^ 53 ->
  let x := binary_normalize prec emax n 0 false in
  float_of_int n = Ok x /\
  (x = S754_zero false \/
   exists m e, x = S754_finite false m e /\ dy_le (Zpos m) e n).
Proof.
  intros [Hn0 Hn] x. subst x. unfold float_of_int.
  destruct n as [|pn|pn]; try lia.
  unfold binary_normalize, binary_round.
  set (ez' := SpecFloat.fexp prec emax (Zpos (digits2_pos pn) + 0)).
  assert (Hal : let '(mz, ez) := shl_align pn 0 ez' in dy_le (Zpos mz) ez (Zpos pn)).
  { unfold shl_align. destruct (ez' - 0) as [|d|d] eqn:Ed.
    - unfold dy_le. simpl. lia.
    - unfold dy_le. simpl. lia.
    - unfold dy_le. rewrite iter_xO.
      assert (Eez : ez' = Zneg d) by lia. rewrite Eez.
      replace (Z.max 0 (Zneg d)) with 0 by lia.
      replace (Z.max 0 (- Zneg d)) with (Zpos d) by lia.
      rewrite Z.pow_0_r. lia. }
  destruct (shl_align pn 0 ez') as [mz ez].
  destruct (binary_round_aux_le false (Zpos mz) ez (Zpos pn)) as [E|(m & e & E & Hle)];
    try lia; try exact Hal; rewrite E; simpl.
  - split; [reflexivity|left; reflexivity].
  - split; [reflexivity|right; exists m, e; split; [reflexivity|exact Hle]].
Qed.

Lemma dy_le_mul (m1 e1 B1 m2 e2 B2 : Z) :
  0 <= m1 -> 0 <= m2 -> 0 <= B2 ->
  dy_le m1 e1 B1 -> dy_le m2 e2 B2 -> dy_le (m1 * m2) (e1 + e2) (B1 * B2).
Proof.
  unfold dy_le. intros Hm1 Hm2 HB2 H1 H2.
  set (a1 := Z.max 0 e1) in *. set (c1 := Z.max 0 (- e1)) in *.
  set (a2 := Z.max 0 e2) in *. set (c2 := Z.max 0 (- e2)) in *.
  set (a := Z.max 0 (e1 + e2)). set (c := Z.max 0 (- (e1 + e2))).
  set (t := a1 + a2 - a).
  assert (Ht : 0 <= t) by (subst t a a1 a2; lia).
  assert (Ea : a1 + a2 = a + t) by (subst t; lia).
  assert (Ec : c1 + c2 = c + t) by (subst t a c a1 a2 c1 c2; lia).
  assert (Hpt : 0 < 2 ^ t) by (apply Z.pow_pos_nonneg; lia).
  assert (Hmul : (m1 * 2 ^ a1) * (m2 * 2 ^ a2) <= (B1 * 2 ^ c1) * (B2 * 2 ^ c2)).
  { assert (0 <= 2 ^ a1) by (apply Z.pow_nonneg; lia).
    assert (0 <= 2 ^ a2) by (apply Z.pow_nonneg; lia).
    assert (0 <= 2 ^ c2) by (apply Z.pow_nonneg; lia).
    apply Z.mul_le_mono_nonneg; try assumption; apply Z.mul_nonneg_nonneg; lia. }
  assert (E1 : (m1 * 2 ^ a1) * (m2 * 2 ^ a2) = (m1 * m2 * 2 ^ a) * 2 ^ t).
  { transitivity (m1 * m2 * 2 ^ (a1 + a2)).
    - rewrite Z.pow_add_r by (subst a1 a2; lia). ring.
    - rewrite Ea, Z.pow_add_r by (subst a; lia). ring. }
  assert (E2 : (B1 * 2 ^ c1) * (B2 * 2 ^ c2) = (B1 * B2 * 2 ^ c) * 2 ^ t).
  { transitivity (B1 * B2 * 2 ^ (c1 + c2)).
    - rewrite Z.pow_add_r by (subst c1 c2; lia). ring.
    - rewrite Ec, Z.pow_add_r by (subst c; lia). ring. }
  rewrite E1, E2 in Hmul.
  apply Z.mul_le_mono_pos_r in Hmul; assumption.
Qed.

(** [n * ratio] for a ratio at most 1 is a float at most [n]. *)
Lemma times_le (n : Z) (ratio : float) :
  0 < n < 2 ^ 53 ->
  (ratio = S754_zero false \/
   exists m e, ratio = S754_finite false m e /\ dy_le (Zpos m) e 1) ->
  int_mul_float n ratio = Ok (times n ratio) /\
  (times n ratio = S754_zero false \/
   exists m e, times n ratio = S754_finite false m e /\ dy_le (Zpos m) e n).
Proof.
  intros Hn Hratio. destruct (float_of_int_le n Hn) as [Ef Hf].
  unfold int_mul_float, times. rewrite Ef. split; [reflexivity|].
  destruct Hf as [En|(mn & en & En & Hlen)]; rewrite En;
    destruct Hratio as [Er|(mr & er & Er & Hler)]; rewrite Er; simpl SFmul;
    try (left; reflexivity).
  assert (Hprod : dy_le (Zpos (mn * mr)) (en + er) (n * 1)).
  { rewrite Pos2Z.inj_mul. apply dy_le_mul; try lia; assumption. }
  rewrite Z.mul_1_r in Hprod.
  apply binary_round_aux_le; [lia|lia|exact Hprod].
Qed.

(** The integer part of a float between 0 and [n]. *)
Lemma floor_le (x : float) (n : Z) :
  0 <= n ->
  (x = S754_zero false \/
   exists m e, x = S754_finite false m e /\ dy_le (Zpos m) e n) ->
  int_of_float x = Ok (floor x) /\ 0 <= floor x <= n.
Proof.
  intros Hn [->|(m & e & -> & Hle)]; [simpl; split; [reflexivity|lia]|].
  unfold int_of_float, floor, cond_Zopp. unfold dy_le in Hle.
  destruct e as [|k|k].
  - split; [reflexivity|]. simpl in *. lia.
  - split; [reflexivity|]. rewrite Z.shiftl_mul_pow2 by lia.
    replace (Z.max 0 (Zpos k)) with (Zpos k) in Hle by lia.
    replace (Z.max 0 (- Zpos k)) with 0 in Hle by lia.
    rewrite Z.pow_0_r in Hle.
    assert (0 < 2 ^ Zpos k) by (apply Z.pow_pos_nonneg; lia). nia.
  - split; [reflexivity|]. rewrite Z.shiftr_div_pow2 by lia.
    replace (Z.max 0 (Zneg k)) with 0 in Hle by lia.
    replace (Z.max 0 (- Zneg k)) with (Zpos k) in Hle by lia.
    rewrite Z.pow_0_r in Hle.
    assert (0 < 2 ^ Zpos k) by (apply Z.pow_pos_nonneg; lia).
    split.
    + apply Z.div_pos; lia.
    + apply Z.div_le_upper_bound; lia.
Qed.

End Binary64.

(** ** Rendering the current image *)

(** [load_current_image], one outside call after the other. *)
Lemma load_current_image_eq (w : World) (tw th : Z) (self : ImageHandler) :
  load_current_image w tw th self =
  if negb (nonempty (images self)) || (len (images self) <=? current_index self)
  then (Ok None, self, [])
  else
    match getitem (images self) (current_index self) with
    | Raise e => (Ok None, self, [EvPrint e])
    | Ok p =>
        match image_open w p with
        | None => (Ok None, self, [EvOpen p; EvPrint CodecError])
        | Some img =>
            match file_load img with
            | None => (Ok None, self, [EvOpen p; EvCopy; EvPrint CodecError])
            | Some px =>
                let orig := mkImage (file_size img) px in
                let s1 := mkImageHandler (images self) (current_index self)
                            (current_image self) (Some orig) in
                match fit w img tw th s1 with
                | (Raise e, s2, t) =>
                    (Ok None, s2, EvOpen p :: EvCopy :: t ++ [EvPrint e])
                | (Ok r, s2, t) =>
                    if photo_ok w r then
                      (Ok (Some (mkPhotoImage r)),
                       mkImageHandler (images s2) (current_index s2)
                         (Some (mkPhotoImage r)) (original_image s2),
                       EvOpen p :: EvCopy :: t ++ [EvPhotoImage])
                    else
                      (Ok None, s2,
                       EvOpen p :: EvCopy :: t ++ [EvPhotoImage; EvPrint CodecError])
                end
            end
        end
    end.
Proof.
  unfold load_current_image, bind at 1, get.
  destruct (negb (nonempty (images self)) || (len (images self) <=? current_index self));
    [reflexivity|].
  unfold try_except, bind at 1, lift.
  destruct (getitem (images self) (current_index self)) as [p|e]; [|reflexivity].
  unfold bind at 1, Image_open, bind at 1, emit, lift.
  destruct (image_open w p) as [img|]; [|reflexivity].
  unfold bind at 1, img_copy, bind at 1, emit, lift.
  destruct (file_load img) as [px|]; [|reflexivity].
  unfold bind at 1, set_original_image, bind at 1, get, put.
  unfold bind at 1. cbv zeta.
  destruct (fit w img tw th _) as [[[r|e] s2] t].
  - unfold_m. destruct (photo_ok w r); simpl;
      rewrite ?app_nil_r, <- ?app_assoc; reflexivity.
  - unfold_m. simpl. rewrite ?app_nil_r. reflexivity.
Qed.

Lemma fit_state (w : World) (img : ImageFile) (tw th : Z) (self : ImageHandler) :
  state_of (fit w img tw th self) = self.
Proof.
  apply (respects_fit (fun s s' => s' = s)); [reflexivity|].
  intros s1 s2 s3 -> ->. reflexivity.
Qed.

(** Opening [self.images[self.current_index]] requires the guard of
    [load_current_image] to let the call through. *)
Lemma getitem_guard (self : ImageHandler) (p : string) :
  getitem (images self) (current_index self) = Ok p ->
  negb (nonempty (images self)) || (len (images self) <=? current_index self) = false.
Proof.
  unfold getitem. intros H.
  set (i := current_index self) in *. set (n := len (images self)) in *.
  assert (Hn : 0 <= n) by (subst n; unfold len; lia).
  destruct (((if i <? 0 then i + n else i) <? 0) || (n <=? (if i <? 0 then i + n else i)))
    eqn:E; [discriminate|].
  apply orb_false_iff in E. destruct E as [E1 E2].
  apply Z.ltb_ge in E1. apply Z.leb_gt in E2.
  assert (Hin : i < n) by (destruct (Z.ltb_spec i 0); lia).
  assert (Hpos : 0 < n) by (destruct (Z.ltb_spec i 0); lia).
  apply orb_false_iff. split.
  - subst n. apply nonempty_len in Hpos. rewrite Hpos. reflexivity.
  - apply Z.leb_gt. exact Hin.
Qed.

(** The scaling of lines 107-115 on an image of size [(W, H)]: it asks
    the codec for [fitted_size], which is inside the original size. *)
Lemma fit_run (w : World) (img : ImageFile) (px : list Z) (W H tw th : Z)
    (self : ImageHandler) :
  file_size img = (W, H) -> file_load img = Some px ->
  0 < W < 2 ^ 53 -> 0 < H < 2 ^ 53 ->
  0 <= tw < 2 ^ 1023 -> 0 <= th < 2 ^ 1023 ->
  (lt_one (ratio_of W H tw th) = true ->
   resample w (mkImage (W, H) px) (fitted_size W H tw th) <> None) ->
  (exists r t, fit w img tw th self = (Ok r, self, t) /\
               size r = fitted_size W H tw th) /\
  0 <= fst (fitted_size W H tw th) <= W /\
  0 <= snd (fitted_size W H tw th) <= H.
Proof.
  intros Hsize Hload HW HH Htw Hth Hres.
  destruct (Binary64.quotient_nonneg tw W Htw ltac:(lia)) as [Ea Hna].
  destruct (Binary64.quotient_nonneg th H Hth ltac:(lia)) as [Eb Hnb].
  pose proof (Binary64.min_nonneg _ _ Hna Hnb) as Hnr.
  unfold fit. rewrite Hsize. unfold bind at 1, lift. rewrite Ea.
  unfold bind at 1. rewrite Eb. cbv zeta.
  unfold fitted_size in *. fold (ratio_of W H tw th) in *.
  set (ratio := ratio_of W H tw th) in *.
  destruct (lt_one ratio) eqn:Hlt.
  - pose proof (Binary64.lt_one_le ratio Hnr Hlt) as Hle.
    destruct (Binary64.times_le W ratio HW Hle) as [EW HWle].
    destruct (Binary64.times_le H ratio HH Hle) as [EH HHle].
    destruct (Binary64.floor_le _ W ltac:(lia) HWle) as [EfW HfW].
    destruct (Binary64.floor_le _ H ltac:(lia) HHle) as [EfH HfH].
    split; [|simpl; lia].
    unfold bind at 1. rewrite EW. unfold bind at 1. rewrite EfW.
    unfold bind at 1. rewrite EH. unfold bind at 1. rewrite EfH.
    unfold img_resize, bind, emit, lift. rewrite Hload, Hsize.
    specialize (Hres eq_refl).
    destruct (resample w (mkImage (W, H) px) _) as [px'|]; [|contradiction].
    simpl. eauto.
  - split; [|simpl; lia].
    unfold img_copy, bind, emit, lift. rewrite Hload, Hsize. simpl. eauto.
Qed.



(** C8: when the current path does not decode ([Image.open] or [copy]
    raises), [load_current_image] returns [None] and leaves the handler as
    it was; [get_original_size] answers what it answered before. *)
Theorem render_decode_failure (w : World) (tw th : Z) (self : ImageHandler)
    (p : string)
    (Hpath : getitem (images self) (current_index self) = Ok p)
    (Hfail : decode w p = None) :
  let run := load_current_image w tw th self in
  result_of run = Ok None /\
  state_of run = self /\
  get_original_size (state_of run) = get_original_size self.
Proof.
  cbv zeta. rewrite load_current_image_eq.
  rewrite (getitem_guard self p Hpath), Hpath.
  unfold decode in Hfail.
  destruct (image_open w p) as [img|]; [|repeat split].
  destruct (file_load img) as [px|]; [discriminate|repeat split].
Qed.

(** What a call of [load_current_image] does to the recorded original:
    nothing, or it replaces it by the decoded image of the current path. *)
Lemma load_current_image_original (w : World) (tw th : Z) (self : ImageHandler) :
  let run := load_current_image w tw th self in
  original_image (state_of run) = original_image self \/
  exists p img,
    getitem (images self) (current_index self) = Ok p /\
    decode w p = Some img /\
    original_image (state_of run) = Some img.
Proof.
  cbv zeta. rewrite load_current_image_eq.
  destruct (negb (nonempty (images self)) || (len (images self) <=? current_index self));
    [left; reflexivity|].
  destruct (getitem (images self) (current_index self)) as [p|e] eqn:Ep;
    [|left; reflexivity].
  destruct (image_open w p) as [img|] eqn:Eo; [|left; reflexivity].
  destruct (file_load img) as [px|] eqn:El; [|left; reflexivity].
  right. exists p, (mkImage (file_size img) px).
  split; [reflexivity|]. split; [unfold decode; rewrite Eo, El; reflexivity|].
  cbv zeta. set (s1 := mkImageHandler _ _ _ _).
  pose proof (fit_state w img tw th s1) as Hs.
  destruct (fit w img tw th s1) as [[[r|e] s2] t]; unfold state_of in Hs;
    simpl in Hs; subst s2; [destruct (photo_ok w r)|]; reflexivity.
Qed.

(** C7, as the code has it: a failed [load_current_image] never clears
    the recorded original.  It is left as it was, or it is the image just
    decoded from the current path when a later step failed; after the
    call [get_original_size] is [None] only if it was [None] before. *)
Theorem render_failure_keeps_original (w : World) (tw th : Z) (self : ImageHandler)
    (Hnone : result_of (load_current_image w tw th self) = Ok None) :
  let self' := state_of (load_current_image w tw th self) in
  (get_original_size self' = get_original_size self \/
   exists p img,
     getitem (images self) (current_index self) = Ok p /\
     decode w p = Some img /\
     get_original_size self' = Some (size img)) /\
  (get_original_size self' = None -> get_original_size self = None).
Proof.
  cbv zeta. unfold get_original_size.
  destruct (load_current_image_original w tw th self) as [E|(p & img & Hp & Hd & E)];
    rewrite E.
  - split; [left; reflexivity|auto].
  - split; [right; exists p, img; auto|discriminate].
Qed.

(** C7 as stated fails: after [a.jpg] was rendered and the cursor moved to
    a file that does not decode, [load_current_image] returns [None] and
    [get_original_size] still answers the size of [a.jpg]. *)
Lemma render_failure_does_not_clear :
  reachable browsing /\
  result_of (load_current_image disk 800 600 browsing) = Ok None /\
  get_original_size (state_of (load_current_image disk 800 600 browsing)) =
    Some (4000, 3000).
Proof.
  split; [|split].
  - unfold browsing. repeat apply reach_call. apply reach_init.
  - vm_compute. reflexivity.
  - vm_compute. reflexivity.
Qed.

(** ** The theorems at work on [disk] *)

Lemma load_images_success_witness :
  result_of (load_images disk ["a.jpg"; "not_an_image.txt"; "b.png"]%string init) = Ok true /\
  images gallery = ["a.jpg"; "b.png"]%string /\
  current_index gallery = 0.
Proof.
  destruct (load_images_success disk ["a.jpg"; "not_an_image.txt"; "b.png"]%string init)
    as (Hr & Hi & _ & Hc).
  - vm_compute. lia.
  - split; [exact Hr|]. split; [exact Hi|exact Hc].
Defined.

Lemma load_images_empty_batch_witness :
  result_of (load_images disk ["not_an_image.txt"; "missing.gif"]%string gallery) = Ok false /\
  state_of (load_images disk ["not_an_image.txt"; "missing.gif"]%string gallery) = gallery.
Proof.
  apply (load_images_empty_batch disk ["not_an_image.txt"; "missing.gif"]%string gallery).
  vm_compute. reflexivity.
Defined.

Lemma cursor_in_range_witness :
  0 <= current_index (exec Advance gallery) < len (images (exec Advance gallery)).
Proof.
  apply cursor_in_range.
  - apply nav_call; [exact I|]. apply nav_call; [exact I|]. apply nav_init.
  - vm_compute. discriminate.
Defined.


Lemma render_decode_failure_witness :
  result_of (load_current_image disk 800 600 browsing) = Ok None /\
  state_of (load_current_image disk 800 600 browsing) = browsing.
Proof.
  destruct (render_decode_failure disk 800 600 browsing "cut.png") as (Hr & Hs & _).
  - vm_compute. reflexivity.
  - vm_compute. reflexivity.
  - split; [exact Hr|exact Hs].
Defined.

Lemma render_failure_keeps_original_witness :
  result_of (load_current_image disk_without_a 800 600 browsing) = Ok None /\
  get_original_size (state_of (load_current_image disk_without_a 800 600 browsing)) =
    Some (4000, 3000).
Proof.
  assert (Hnone : result_of (load_current_image disk_without_a 800 600 browsing) = Ok None)
    by (vm_compute; reflexivity).
  split; [exact Hnone|].
  destruct (render_failure_keeps_original disk_without_a 800 600 browsing Hnone)
    as [[E|(p & img & _ & Hd & _)] _].
  - rewrite E. vm_compute. reflexivity.
  - vm_compute. reflexivity.
Defined.

(** ** Binary64 arithmetic: bounds from below *)

Module Binary64Lower.

Import Binary64.

Local Abbreviation fexp := (SpecFloat.fexp prec emax).
Local Abbreviation shr_fexp := (SpecFloat.shr_fexp prec emax).
Local Abbreviation binary_round_aux := (SpecFloat.binary_round_aux prec emax).

Lemma dy_ge_mono (m m' e B : Z) : m <= m' -> dy_ge m e B -> dy_ge m' e B.
Proof.
  unfold dy_ge. intros Hle H.
  assert (0 <= 2 ^ Z.max 0 e) by (apply Z.pow_nonneg; lia). nia.
Qed.

Lemma dy_ge_pos (m e B : Z) : 0 <= m -> 1 <= B -> dy_ge m e B -> 0 < m.
Proof.
  unfold dy_ge. intros Hm HB H.
  assert (0 < 2 ^ Z.max 0 (- e)) by (apply Z.pow_pos_nonneg; lia).
  assert (0 < 2 ^ Z.max 0 e) by (apply Z.pow_pos_nonneg; lia). nia.
Qed.

(** Dropping the low bits of a dyadic that is at least the integer
    [B < 2^53] keeps it at least [B]. *)
Lemma shr_fexp_ge (m e B : Z) (l : location) :
  0 < m -> 1 <= B < 2 ^ 53 -> dy_ge m e B ->
  dy_ge (shr_m (fst (shr_fexp m e l))) (snd (shr_fexp m e l)) B.
Proof.
  intros Hm HB Hge.
  destruct (shr_fexp_spec m e l ltac:(lia)) as (He & Hq & _).
  rewrite He, Hq. clear He Hq.
  set (e1 := Z.max e (fexp (Zdigits2 m + e))).
  destruct (Z.eq_dec e1 e) as [Ee|Ne].
  - rewrite Ee, Z.sub_diag, Z.pow_0_r, Z.div_1_r. exact Hge.
  - assert (Hfe : e1 = fexp (Zdigits2 m + e)) by (subst e1; lia).
    assert (Hlt : e < e1) by (subst e1; lia).
    rewrite fexp_eq in Hfe.
    assert (Hpk : 0 < 2 ^ (e1 - e)) by (apply Z.pow_pos_nonneg; lia).
    unfold dy_ge in *.
    destruct (Z_le_gt_dec e1 0) as [Hle0|Hgt0].
    + replace (Z.max 0 e1) with 0 by lia.
      replace (Z.max 0 (- e1)) with (- e1) by lia.
      replace (Z.max 0 e) with 0 in Hge by lia.
      replace (Z.max 0 (- e)) with (- e1 + (e1 - e)) in Hge by lia.
      rewrite Z.pow_add_r in Hge by lia.
      rewrite Z.pow_0_r, Z.mul_1_r in *.
      apply Z.div_le_lower_bound; [lia|]. lia.
    + replace (Z.max 0 e1) with e1 by lia.
      replace (Z.max 0 (- e1)) with 0 by lia.
      rewrite Z.pow_0_r, Z.mul_1_r.
      destruct m as [|pm|pm]; try lia.
      destruct (Zdigits2_bounds pm) as [Hlo _].
      set (d := Zdigits2 (Zpos pm)) in *.
      assert (Hk : e1 - e = d - 53) by lia.
      assert (H52 : 2 ^ 52 <= Zpos pm / 2 ^ (e1 - e)).
      { apply Z.div_le_lower_bound; [lia|].
        rewrite Hk, <- Z.pow_add_r by lia.
        replace (d - 53 + 52) with (d - 1) by lia. exact Hlo. }
      assert (H2 : 2 <= 2 ^ e1).
      { change 2 with (2 ^ 1) at 1. apply Z.pow_le_mono_r; lia. }
      assert (H53 : 2 ^ 53 = 2 ^ 52 * 2) by reflexivity.
      nia.
Qed.

(** A dyadic that is at least [B < 2^53] rounds to a float that is at
    least [B], or to an infinity. *)
Lemma binary_round_aux_ge (s : bool) (m e B : Z) (l : location) :
  0 < m -> 1 <= B < 2 ^ 53 -> dy_ge m e B ->
  match binary_round_aux s m e l with
  | S754_finite s' m' e' => s' = s /\ dy_ge (Zpos m') e' B
  | S754_infinity _ => True
  | _ => False
  end.
Proof.
  intros Hm HB Hge. rewrite binary_round_aux_unfold. cbv zeta.
  pose proof (shr_fexp_ge m e B l Hm HB Hge) as H1.
  set (r1 := shr_fexp m e l) in *.
  destruct (shr_fexp_spec m e l ltac:(lia)) as (_ & Hq1 & _). fold r1 in Hq1.
  assert (Hm1 : 0 <= shr_m (fst r1)).
  { rewrite Hq1. apply Z.div_pos; [lia|apply Z.pow_pos_nonneg; lia]. }
  pose proof (round_nearest_even_bounds (shr_m (fst r1)) (loc_of_shr_record (fst r1))) as Hr.
  set (m2 := round_nearest_even (shr_m (fst r1)) (loc_of_shr_record (fst r1))) in *.
  assert (H2 : dy_ge m2 (snd r1) B) by (eapply dy_ge_mono; [|exact H1]; lia).
  assert (Hm2 : 0 < m2) by (apply (dy_ge_pos m2 (snd r1) B); [lia|apply HB|exact H2]).
  pose proof (shr_fexp_ge m2 (snd r1) B loc_Exact Hm2 HB H2) as H3.
  set (r2 := shr_fexp m2 (snd r1) loc_Exact) in *.
  destruct (shr_fexp_spec m2 (snd r1) loc_Exact ltac:(lia)) as (_ & Hq2 & _).
  fold r2 in Hq2.
  assert (Hm3 : 0 <= shr_m (fst r2)).
  { rewrite Hq2. apply Z.div_pos; [lia|apply Z.pow_pos_nonneg; lia]. }
  pose proof (dy_ge_pos _ _ B Hm3 (proj1 HB) H3) as Hm3'.
  destruct (shr_m (fst r2)) as [|p|p]; try lia.
  destruct (snd r2 <=? emax - prec); [split; [reflexivity|exact H3]|exact I].
Qed.

(** A float with at most [prec] digits that is at least 1 does not
    compare below [1.0]. *)
Lemma ge_one_not_lt (m : positive) (e : Z) :
  Zdigits2 (Zpos m) <= prec -> dy_ge (Zpos m) e 1 ->
  lt_one (S754_finite false m e) = false.
Proof.
  intros Hd Hge.
  assert (Hm53 : Zpos m < 2 ^ 53).
  { destruct (Zdigits2_bounds m) as [_ Hhi].
    eapply Z.lt_le_trans; [exact Hhi|]. apply Z.pow_le_mono_r; [lia|exact Hd]. }
  unfold lt_one, SFltb, one, SFcompare. unfold dy_ge in Hge.
  destruct (Z.compare_spec e (-52)) as [Ee|Elt|Egt]; try reflexivity.
  - subst e. change (1 * 4503599627370496 <= Zpos m * 1) in Hge.
    rewrite Pos.compare_cont_spec. simpl Pos.switch_Eq.
    rewrite Pos2Z.inj_compare.
    destruct (Z.compare_spec (Zpos m) (Zpos 4503599627370496)) as [|Hlt|];
      try reflexivity.
    exfalso. clear - Hlt Hge. lia.
  - exfalso.
    replace (Z.max 0 e) with 0 in Hge by lia.
    replace (Z.max 0 (- e)) with (- e) in Hge by lia.
    assert (2 ^ 53 <= 2 ^ (- e)) by (apply Z.pow_le_mono_r; lia).
    rewrite Z.pow_0_r in Hge. lia.
Qed.

(** The quotient of [a] by a smaller [b] has a mantissa of at least
    [2^-e] before rounding. *)
Lemma SFdiv_core_binary_ge (a b : positive) :
  Zpos b <= Zpos a ->
  let '(q, e, _) := SFdiv_core_binary prec emax (Zpos a) 0 (Zpos b) 0 in
  0 < q /\ dy_ge q e 1.
Proof.
  intros Hab. unfold SFdiv_core_binary.
  set (e' := Z.min (SpecFloat.fexp prec emax
                      (Zdigits2 (Zpos a) + 0 - (Zdigits2 (Zpos b) + 0))) (0 - 0)).
  assert (He' : e' <= 0) by (subst e'; lia).
  set (m' := match 0 - 0 - e' with
             | Zpos _ => Z.shiftl (Zpos a) (0 - 0 - e')
             | Z0 => Zpos a
             | Zneg _ => 0
             end).
  assert (Hm' : m' = Zpos a * 2 ^ (- e')).
  { subst m'. replace (0 - 0 - e') with (- e') by lia.
    destruct (- e') as [|k|k] eqn:Ek; try lia.
    apply Z.shiftl_mul_pow2. lia. }
  assert (Hp : 0 < 2 ^ (- e')) by (apply Z.pow_pos_nonneg; lia).
  pose proof (Z.div_eucl_eq m' (Zpos b) ltac:(lia)) as Heq.
  pose proof (Z.mod_pos_bound m' (Zpos b) ltac:(lia)) as Hmod.
  assert (Hq : 2 ^ (- e') <= m' / Zpos b).
  { apply Z.div_le_lower_bound; [lia|]. rewrite Hm'. nia. }
  unfold Z.modulo in Hmod. unfold Z.div in Hq.
  destruct (Z.div_eucl m' (Zpos b)) as [q r].
  split; [lia|]. unfold dy_ge.
  replace (Z.max 0 e') with 0 by lia.
  replace (Z.max 0 (- e')) with (- e') by lia.
  rewrite Z.pow_0_r. lia.
Qed.

(** [a / b >= 1] as floats when [a >= b] as integers. *)
Lemma quotient_ge_one (a b : Z) :
  0 < b -> b <= a < 2 ^ 1023 -> lt_one (quotient a b) = false.
Proof.
  intros Hb [Hba Ha]. unfold quotient.
  destruct b as [|pb|pb]; try lia. destruct a as [|pa|pa]; try lia.
  unfold exact, SFdiv.
  pose proof (SFdiv_core_binary_ge pa pb Hba) as Hge.
  pose proof (SFdiv_core_binary_bounds pa pb Ha) as Hbd.
  destruct (SFdiv_core_binary prec emax (Zpos pa) 0 (Zpos pb) 0) as [[q e] l].
  destruct Hge as [Hq Hge]. destruct Hbd as (_ & He & Hd). simpl xorb.
  pose proof (binary_round_aux_ge false q e 1 l Hq ltac:(lia) Hge) as H1.
  pose proof (binary_round_aux_digits false q e l ltac:(lia)) as H2.
  destruct (binary_round_aux false q e l) as [s|s| |s m' e'];
    try contradiction.
  - subst s. reflexivity.
  - destruct H1 as [-> H1]. destruct H2 as [_ H2].
    apply ge_one_not_lt; assumption.
Qed.

End Binary64Lower.

(** ** Binary64 arithmetic: bounds that are floats themselves *)

Module Binary64Upper.

Import Binary64.

Local Abbreviation fexp := (SpecFloat.fexp prec emax).
Local Abbreviation shr_fexp := (SpecFloat.shr_fexp prec emax).
Local Abbreviation binary_round_aux := (SpecFloat.binary_round_aux prec emax).

Lemma dyle_mono (m m' e Bm Bk : Z) : m' <= m -> dyle m e Bm Bk -> dyle m' e Bm Bk.
Proof.
  unfold dyle. intros Hle H.
  assert (0 <= 2 ^ Z.max 0 (e - Bk)) by (apply Z.pow_nonneg; lia). nia.
Qed.

(** Rounding a dyadic whose true value is at most the float [Bm * 2^Bk]
    gives at most that float.  The true value is [m * 2^e] when the
    location is exact and below [(m + 1) * 2^e] otherwise. *)
Lemma round_step_gen (m e Bm Bk : Z) (l : location) :
  0 <= m -> 0 < m \/ l = loc_Exact ->
  0 <= Bm < 2 ^ 53 -> -1074 <= Bk ->
  dyle (m + excess l) e Bm Bk ->
  let r := shr_fexp m e l in
  let m2 := round_nearest_even (shr_m (fst r)) (loc_of_shr_record (fst r)) in
  0 <= m2 /\ dyle m2 (snd r) Bm Bk.
Proof.
  intros Hm Hml HB HBk Hle r m2.
  destruct (shr_fexp_spec m e l Hm) as (He & Hq & Hx).
  fold r in He, Hq, Hx. set (e1 := Z.max e (fexp (Zdigits2 m + e))) in *.
  assert (Hk : 0 <= e1 - e) by (subst e1; lia).
  assert (Hpk : 0 < 2 ^ (e1 - e)) by (apply Z.pow_pos_nonneg; lia).
  assert (Hm1 : 0 <= shr_m (fst r)) by (rewrite Hq; apply Z.div_pos; lia).
  pose proof (round_nearest_even_bounds (shr_m (fst r)) (loc_of_shr_record (fst r))) as Hr.
  fold m2 in Hr. split; [lia|]. rewrite He.
  assert (Hex0 : 0 <= excess l <= 1) by (destruct l; simpl; lia).
  destruct (Z.eq_dec e1 e) as [Ee|Ne].
  - (* nothing is shifted out *)
    rewrite Ee in *. rewrite Z.sub_diag, Z.pow_0_r, Z.div_1_r in Hq.
    destruct l as [|c].
    + assert (Hex : loc_of_shr_record (fst r) = loc_Exact).
      { apply Hx; [reflexivity|]. rewrite Z.sub_diag. apply Z.mod_1_r. }
      assert (E2 : m2 = m) by (subst m2; rewrite Hex; simpl; exact Hq).
      rewrite E2. simpl in Hle. rewrite Z.add_0_r in Hle. exact Hle.
    + simpl in Hle. eapply dyle_mono; [|exact Hle]. lia.
  - (* [e1 - e] bits are shifted out *)
    assert (Hlt : e < e1) by lia.
    assert (Hfe : e1 = fexp (Zdigits2 m + e)) by (subst e1; lia).
    rewrite fexp_eq in Hfe.
    destruct (Z.eq_dec m 0) as [Hz|Hnz].
    { destruct Hml as [|Hl]; [lia|]. subst m l.
      assert (Hex : loc_of_shr_record (fst r) = loc_Exact).
      { apply Hx; [reflexivity|]. apply Z.mod_0_l. lia. }
      assert (E2 : m2 = 0).
      { subst m2. rewrite Hex. simpl. rewrite Hq. apply Z.div_0_l. lia. }
      rewrite E2. unfold dyle. rewrite Z.mul_0_l.
      apply Z.mul_nonneg_nonneg; [lia|apply Z.pow_nonneg; lia]. }
    assert (Hmpos : 0 < m) by lia.
    assert (Hd : Zdigits2 m + e - 53 <= Bk).
    { destruct m as [|pm|pm]; try lia.
      destruct (Zdigits2_bounds pm) as [Hlo _].
      set (d := Zdigits2 (Zpos pm)) in *.
      assert (Hd1 : 1 <= d) by (subst d; simpl; lia).
      unfold dyle in Hle.
      destruct (Z_le_gt_dec (d + e - 53) Bk) as [|Hgt]; [assumption|exfalso].
      assert (H1 : 2 ^ (d - 1) * 2 ^ Z.max 0 (e - Bk) <= Bm * 2 ^ Z.max 0 (Bk - e)).
      { eapply Z.le_trans; [|exact Hle].
        apply Z.mul_le_mono_nonneg_r; [apply Z.pow_nonneg; lia|lia]. }
      assert (H2 : Bm * 2 ^ Z.max 0 (Bk - e) < 2 ^ 53 * 2 ^ Z.max 0 (Bk - e)).
      { apply Z.mul_lt_mono_pos_r; [apply Z.pow_pos_nonneg; lia|lia]. }
      rewrite <- !Z.pow_add_r in * by lia.
      assert (H3 : 2 ^ (53 + Z.max 0 (Bk - e)) <= 2 ^ (d - 1 + Z.max 0 (e - Bk)))
        by (apply Z.pow_le_mono_r; lia).
      lia. }
    assert (He1 : e1 <= Bk) by lia.
    unfold dyle in *.
    replace (Z.max 0 (e1 - Bk)) with 0 by lia.
    replace (Z.max 0 (e - Bk)) with 0 in Hle by lia.
    replace (Z.max 0 (Bk - e1)) with (Bk - e1) by lia.
    replace (Z.max 0 (Bk - e)) with (Bk - e1 + (e1 - e)) in Hle by lia.
    rewrite Z.pow_add_r in Hle by lia.
    rewrite Z.pow_0_r, Z.mul_1_r in *.
    set (N := Bm * 2 ^ (Bk - e1)) in *. set (P := 2 ^ (e1 - e)) in *.
    assert (HmN : m + excess l <= N * P) by lia.
    pose proof (Z.div_mod m P ltac:(lia)) as Hdm.
    pose proof (Z.mod_pos_bound m P Hpk) as Hmod.
    assert (Hstrict : m mod P <> 0 \/ excess l = 1 -> m / P < N).
    { intros Hs.
      destruct (Z_lt_le_dec (m / P) N) as [|Hge]; [assumption|exfalso].
      assert (P * N <= P * (m / P)) by (apply Z.mul_le_mono_nonneg_l; lia).
      lia. }
    destruct l as [|c].
    + destruct (Z.eq_dec (m mod P) 0) as [E0|N0].
      * assert (Hex : loc_of_shr_record (fst r) = loc_Exact)
          by (apply Hx; [reflexivity|exact E0]).
        assert (E2 : m2 = m / P) by (subst m2; rewrite Hex; simpl; exact Hq).
        rewrite E2. simpl in HmN. apply Z.div_le_upper_bound; lia.
      * specialize (Hstrict (or_introl N0)). rewrite Hq in Hr. lia.
    + specialize (Hstrict (or_intror eq_refl)). rewrite Hq in Hr. lia.
Qed.

(** The same for the whole rounding, when the bound is below [2^53]. *)
Lemma binary_round_aux_le_gen (s : bool) (m e Bm Bk : Z) (l : location) :
  0 <= m -> 0 < m \/ l = loc_Exact ->
  0 <= Bm < 2 ^ 53 -> -1074 <= Bk <= 0 ->
  dyle (m + excess l) e Bm Bk ->
  binary_round_aux s m e l = S754_zero s \/
  exists m' e', binary_round_aux s m e l = S754_finite s m' e' /\
                dyle (Zpos m') e' Bm Bk.
Proof.
  intros Hm Hml HB HBk Hle. rewrite binary_round_aux_unfold. cbv zeta.
  destruct (round_step_gen m e Bm Bk l Hm Hml HB ltac:(lia) Hle) as [Hm2 Hle2].
  set (r1 := shr_fexp m e l) in *.
  set (m2 := round_nearest_even (shr_m (fst r1)) (loc_of_shr_record (fst r1))) in *.
  assert (Hle2' : dyle (m2 + excess loc_Exact) (snd r1) Bm Bk)
    by (simpl; rewrite Z.add_0_r; exact Hle2).
  destruct (round_step_gen m2 (snd r1) Bm Bk loc_Exact Hm2 (or_intror eq_refl)
              HB ltac:(lia) Hle2') as [_ Hle3].
  destruct (shr_fexp_spec m2 (snd r1) loc_Exact Hm2) as (He & Hq & _).
  set (r2 := shr_fexp m2 (snd r1) loc_Exact) in *.
  pose proof (round_nearest_even_bounds (shr_m (fst r2)) (loc_of_shr_record (fst r2))) as Hr.
  assert (Hle4 : dyle (shr_m (fst r2)) (snd r2) Bm Bk)
    by (eapply dyle_mono; [|exact Hle3]; lia).
  assert (Hm3 : 0 <= shr_m (fst r2)).
  { rewrite Hq. apply Z.div_pos; [lia|apply Z.pow_pos_nonneg; lia]. }
  destruct (shr_m (fst r2)) as [|p|p] eqn:E3.
  - left. reflexivity.
  - right. exists p, (snd r2).
    assert (Hfit : (snd r2 <=? emax - prec) = true).
    { apply Z.leb_le. change (emax - prec) with 971.
      destruct (Z_le_gt_dec (snd r2) 971) as [|Hgt]; [assumption|exfalso].
      unfold dyle in Hle4.
      replace (Z.max 0 (snd r2 - Bk)) with (snd r2 - Bk) in Hle4 by lia.
      replace (Z.max 0 (Bk - snd r2)) with 0 in Hle4 by lia.
      assert (2 ^ 53 <= 2 ^ (snd r2 - Bk)) by (apply Z.pow_le_mono_r; lia).
      rewrite Z.pow_0_r in Hle4. nia. }
    rewrite Hfit. split; [reflexivity|exact Hle4].
  - lia.
Qed.

(** The exponent of a rounded float: that of the input, or the one its
    digits ask for, counting one more digit for a carry. *)
Lemma binary_round_aux_exponent (s : bool) (m e : Z) (l : location) :
  0 <= m ->
  forall s' m' e', binary_round_aux s m e l = S754_finite s' m' e' ->
  e' <= Z.max e (fexp (Zdigits2 m + e + 1)).
Proof.
  intros Hm s' m' e'. rewrite binary_round_aux_unfold. cbv zeta.
  set (r1 := shr_fexp m e l).
  set (m2 := round_nearest_even (shr_m (fst r1)) (loc_of_shr_record (fst r1))).
  destruct (shr_fexp_spec m e l Hm) as (He1 & Hq1 & _). fold r1 in He1, Hq1.
  set (e1 := Z.max e (fexp (Zdigits2 m + e))) in *.
  assert (Hk1 : 0 <= e1 - e) by (subst e1; lia).
  assert (Hpk : 0 < 2 ^ (e1 - e)) by (apply Z.pow_pos_nonneg; lia).
  assert (Hm1 : 0 <= shr_m (fst r1)) by (rewrite Hq1; apply Z.div_pos; lia).
  pose proof (round_nearest_even_bounds (shr_m (fst r1)) (loc_of_shr_record (fst r1))) as Hr.
  fold m2 in Hr. assert (Hm2 : 0 <= m2) by lia.
  pose proof (Zdigits2_nonneg m) as Hd0.
  set (j := Z.max 0 (Zdigits2 m - (e1 - e))).
  assert (Hj : shr_m (fst r1) < 2 ^ j).
  { rewrite Hq1. apply Z.div_lt_upper_bound; [lia|].
    rewrite <- Z.pow_add_r by lia.
    destruct m as [|pm|pm]; [apply Z.pow_pos_nonneg; lia| |lia].
    destruct (Zdigits2_bounds pm) as [_ Hhi].
    eapply Z.lt_le_trans; [exact Hhi|].
    apply Z.pow_le_mono_r; lia. }
  assert (Hd2 : Zdigits2 m2 <= j + 1).
  { apply Zdigits2_le; [|lia]. split; [lia|].
    rewrite Z.pow_add_r by lia. change (2 ^ 1) with 2.
    assert (0 < 2 ^ j) by (apply Z.pow_pos_nonneg; lia). lia. }
  destruct (shr_fexp_spec m2 (snd r1) loc_Exact Hm2) as (He2 & _ & _).
  set (r2 := shr_fexp m2 (snd r1) loc_Exact) in *.
  assert (He2' : snd r2 <= Z.max e (fexp (Zdigits2 m + e + 1))).
  { rewrite He2, He1. clear Hj. subst j e1. rewrite !fexp_eq in *. lia. }
  destruct (shr_m (fst r2)); try discriminate.
  destruct (snd r2 <=? emax - prec); [|discriminate].
  intros [= _ _ <-]. exact He2'.
Qed.

(** The ingredients of the rounding of [a / b] for [a < b]: the mantissa
    is positive, the exponent at most [-53], and the true quotient is at
    most the largest float below 1. *)
Lemma SFdiv_core_binary_lt (a b : positive) :
  Zpos a < Zpos b -> Zpos b <= 2 ^ 53 ->
  let '(q, e, l) := SFdiv_core_binary prec emax (Zpos a) 0 (Zpos b) 0 in
  0 < q /\ e <= -53 /\ Zdigits2 q + e <= 0 /\
  dyle (q + excess l) e (2 ^ 53 - 1) (-53).
Proof.
  intros Hab Hb. unfold SFdiv_core_binary.
  assert (Hda : Zdigits2 (Zpos a) <= Zdigits2 (Zpos b)).
  { destruct (Zdigits2_bounds b) as [_ Hhi].
    apply Zdigits2_le; [lia|apply Zdigits2_nonneg]. }
  set (e' := Z.min (SpecFloat.fexp prec emax
                      (Zdigits2 (Zpos a) + 0 - (Zdigits2 (Zpos b) + 0))) (0 - 0)).
  assert (He' : e' <= -53) by (subst e'; rewrite fexp_eq; lia).
  set (m' := match 0 - 0 - e' with
             | Zpos _ => Z.shiftl (Zpos a) (0 - 0 - e')
             | Z0 => Zpos a
             | Zneg _ => 0
             end).
  assert (Hm' : m' = Zpos a * 2 ^ (- e')).
  { subst m'. replace (0 - 0 - e') with (- e') by lia.
    destruct (- e') as [|k|k] eqn:Ek; try lia.
    apply Z.shiftl_mul_pow2. lia. }
  assert (Hp : 0 < 2 ^ (- e' - 53)) by (apply Z.pow_pos_nonneg; lia).
  assert (Hs : 2 ^ (- e') = 2 ^ 53 * 2 ^ (- e' - 53)).
  { rewrite <- Z.pow_add_r by lia. f_equal. lia. }
  pose proof (Z.div_eucl_eq m' (Zpos b) ltac:(lia)) as Heq.
  pose proof (Z.mod_pos_bound m' (Zpos b) ltac:(lia)) as Hmod.
  unfold Z.modulo in Hmod.
  destruct (Z.div_eucl m' (Zpos b)) as [q r].
  set (N := (2 ^ 53 - 1) * 2 ^ (- e' - 53)).
  set (P := 2 ^ (- e' - 53)) in *.
  set (T := 2 ^ 53) in *.
  assert (HT : 0 < T) by (subst T; reflexivity).
  (* the true quotient is at most [N] *)
  assert (HmN : m' <= N * Zpos b).
  { rewrite Hm', Hs. subst N.
    assert (Zpos a * T <= (T - 1) * Zpos b) by nia.
    replace (Zpos a * (T * P)) with (Zpos a * T * P) by ring.
    replace ((T - 1) * P * Zpos b) with ((T - 1) * Zpos b * P) by ring.
    apply Z.mul_le_mono_nonneg_r; lia. }
  assert (Hq1 : 1 <= q).
  { destruct (Z_le_gt_dec 1 q) as [|Hq0]; [assumption|exfalso].
    assert (q <= 0) by lia.
    assert (Zpos b * q <= 0) by nia.
    assert (T * P <= Zpos a * (T * P)) by nia.
    assert (T <= T * P) by nia.
    lia. }
  assert (HqN : q + (if r =? 0 then 0 else 1) <= N).
  { destruct (Z.eqb_spec r 0) as [Hr0|Hr0].
    - subst r. rewrite Z.add_0_r in *.
      destruct (Z_le_gt_dec q N) as [|Hgt]; [lia|exfalso].
      assert (Zpos b * (N + 1) <= Zpos b * q) by (apply Z.mul_le_mono_nonneg_l; lia).
      lia.
    - destruct (Z_le_gt_dec (q + 1) N) as [|Hgt]; [assumption|exfalso].
      assert (Zpos b * N <= Zpos b * q) by (apply Z.mul_le_mono_nonneg_l; lia).
      lia. }
  assert (Hl : excess (new_location (Zpos b) r) = if r =? 0 then 0 else 1).
  { unfold new_location, new_location_even, new_location_odd.
    destruct (Z.even (Zpos b)); destruct (r =? 0); reflexivity. }
  split; [lia|]. split; [exact He'|]. split.
  - assert (Zdigits2 q <= - e'); [|lia].
    apply Zdigits2_le; [|lia]. split; [lia|].
    rewrite Hs. subst N. fold T P. nia.
  - unfold dyle. rewrite Hl.
    replace (Z.max 0 (e' - -53)) with 0 by lia.
    replace (Z.max 0 (-53 - e')) with (- e' - 53) by lia.
    rewrite Z.pow_0_r, Z.mul_1_r. fold P. exact HqN.
Qed.

(** [a / b < 1] as floats when [a < b <= 2^53] as integers. *)
Lemma quotient_lt_one (a b : Z) :
  0 <= a < b -> b <= 2 ^ 53 -> lt_one (quotient a b) = true.
Proof.
  intros [Ha Hab] Hb. unfold quotient.
  destruct b as [|pb|pb]; try lia. destruct a as [|pa|pa]; try lia.
  - reflexivity.
  - unfold exact, SFdiv.
    pose proof (SFdiv_core_binary_lt pa pb Hab Hb) as Hcore.
    destruct (SFdiv_core_binary prec emax (Zpos pa) 0 (Zpos pb) 0) as [[q e] l].
    destruct Hcore as (Hq & He & Hd & Hle). simpl xorb.
    pose proof (binary_round_aux_exponent false q e l ltac:(lia)) as Hexp.
    assert (Hbm : 0 <= 2 ^ 53 - 1 < 2 ^ 53) by lia.
    assert (Hbk : -1074 <= -53 <= 0) by lia.
    destruct (binary_round_aux_le_gen false q e (2 ^ 53 - 1) (-53) l
                ltac:(lia) (or_introl Hq) Hbm Hbk Hle)
      as [E|(m' & e' & E & Hle')].
    + rewrite E. reflexivity.
    + specialize (Hexp _ _ _ E). rewrite E.
      assert (He' : e' <= -52) by (rewrite fexp_eq in Hexp; lia).
      unfold lt_one, SFltb, one, SFcompare.
      destruct (Z.compare_spec e' (-52)) as [Ee|Elt|Egt]; [|reflexivity|lia].
      subst e'. unfold dyle in Hle'.
      change (Zpos m' * 2 <= (2 ^ 53 - 1) * 1) in Hle'.
      rewrite Pos.compare_cont_spec. simpl Pos.switch_Eq.
      rewrite Pos2Z.inj_compare.
      destruct (Z.compare_spec (Zpos m') (Zpos 4503599627370496)) as [Heq|Hlt|Hgt];
        try reflexivity; exfalso.
      * change (2 ^ 53) with 9007199254740992 in Hle'. lia.
      * change (2 ^ 53) with 9007199254740992 in Hle'. lia.
Qed.

End Binary64Upper.

(** ** Binary64 arithmetic: canonical floats and their order *)

Module Binary64Order.

Import Binary64.

Local Abbreviation fexp := (SpecFloat.fexp prec emax).
Local Abbreviation shr_fexp := (SpecFloat.shr_fexp prec emax).
Local Abbreviation binary_round_aux := (SpecFloat.binary_round_aux prec emax).
Local Abbreviation canonical := (SpecFloat.canonical_mantissa prec emax).

Lemma Zdigits2_gt (m k : Z) : 0 < m -> 0 <= k -> 2 ^ k <= m -> k < Zdigits2 m.
Proof.
  intros Hm Hk0 Hk. destruct m as [|p|p]; try lia.
  destruct (Zdigits2_bounds p) as [_ Hhi].
  destruct (Z_lt_le_dec k (Zdigits2 (Zpos p))) as [|Hle]; [assumption|].
  exfalso.
  assert (2 ^ Zdigits2 (Zpos p) <= 2 ^ k)
    by (apply Z.pow_le_mono_r; [lia|exact Hle]).
  lia.
Qed.

Lemma Zdigits2_unique (m j : Z) :
  1 <= j -> 2 ^ (j - 1) <= m < 2 ^ j -> Zdigits2 m = j.
Proof.
  intros Hj [Hlo Hhi].
  assert (Hm : 0 < m).
  { assert (0 < 2 ^ (j - 1)) by (apply Z.pow_pos_nonneg; lia). lia. }
  pose proof (Zdigits2_le m j ltac:(lia) ltac:(lia)).
  pose proof (Zdigits2_gt m (j - 1) Hm ltac:(lia) Hlo). lia.
Qed.

Lemma Zdigits2_mono (x y : Z) : 0 <= x <= y -> Zdigits2 x <= Zdigits2 y.
Proof.
  intros [Hx Hxy]. destruct y as [|py|py]; try lia.
  - assert (x = 0) by lia. subst x. simpl. lia.
  - destruct (Zdigits2_bounds py) as [_ Hhi].
    apply Zdigits2_le; [lia|apply Zdigits2_nonneg].
Qed.

Lemma canonical_spec (m : positive) (e : Z) :
  canonical m e = true <-> e = fexp (Zdigits2 (Zpos m) + e).
Proof.
  unfold SpecFloat.canonical_mantissa. rewrite Z.eqb_eq.
  change (Zpos (digits2_pos m)) with (Zdigits2 (Zpos m)). split; auto.
Qed.

(** Dropping the low bits of a mantissa that has enough of them leaves a
    canonical mantissa, or nothing at the least exponent. *)
Lemma shr_fexp_canonical (m e : Z) (l : location) :
  0 < m -> e <= fexp (Zdigits2 m + e) ->
  let m1 := shr_m (fst (shr_fexp m e l)) in
  let e1 := snd (shr_fexp m e l) in
  (0 < m1 /\ e1 = fexp (Zdigits2 m1 + e1)) \/ (m1 = 0 /\ e1 = -1074).
Proof.
  intros Hm He m1 e1.
  destruct (shr_fexp_spec m e l ltac:(lia)) as (He1 & Hq & _).
  fold m1 in Hq. fold e1 in He1.
  assert (Ee1 : e1 = fexp (Zdigits2 m + e)) by lia.
  destruct m as [|pm|pm]; try lia.
  destruct (Zdigits2_bounds pm) as [Hlo Hhi].
  set (d := Zdigits2 (Zpos pm)) in *.
  assert (Hd : 1 <= d) by (subst d; simpl; lia).
  replace (Z.max e (fexp (d + e))) with e1 in Hq by lia.
  set (k := e1 - e) in *. assert (Hk : 0 <= k) by (subst k; lia).
  assert (Hpk : 0 < 2 ^ k) by (apply Z.pow_pos_nonneg; lia).
  destruct (Z_lt_le_dec k d) as [Hkd|Hkd].
  - left.
    assert (Hb : 2 ^ (d - k - 1) <= m1 < 2 ^ (d - k)).
    { rewrite Hq. split.
      - apply Z.div_le_lower_bound; [lia|].
        rewrite <- Z.pow_add_r by lia.
        replace (k + (d - k - 1)) with (d - 1) by lia. exact Hlo.
      - apply Z.div_lt_upper_bound; [lia|].
        rewrite <- Z.pow_add_r by lia.
        replace (k + (d - k)) with d by lia. exact Hhi. }
    assert (Hd1 : Zdigits2 m1 = d - k).
    { apply Zdigits2_unique; [lia|].
      replace (d - k - 1) with (d - k - 1) by lia. exact Hb. }
    assert (0 < 2 ^ (d - k - 1)) by (apply Z.pow_pos_nonneg; lia).
    split; [lia|]. rewrite Hd1.
    replace (d - k + e1) with (d + e) by (subst k; lia). exact Ee1.
  - right. split.
    + rewrite Hq. apply Z.div_small. split; [lia|].
      eapply Z.lt_le_trans; [exact Hhi|]. apply Z.pow_le_mono_r; lia.
    + rewrite fexp_eq in Ee1. subst k. lia.
Qed.

(** Rounding such a mantissa gives a canonical float. *)
Lemma binary_round_aux_canonical (s : bool) (m e : Z) (l : location) :
  0 < m -> e <= fexp (Zdigits2 m + e) ->
  forall s' m' e', binary_round_aux s m e l = S754_finite s' m' e' ->
  canonical m' e' = true.
Proof.
  intros Hm He s' m' e'. rewrite binary_round_aux_unfold. cbv zeta.
  pose proof (shr_fexp_canonical m e l Hm He) as H1. cbv zeta in H1.
  set (r1 := shr_fexp m e l) in *.
  pose proof (round_nearest_even_bounds (shr_m (fst r1)) (loc_of_shr_record (fst r1))) as Hr.
  set (m2 := round_nearest_even (shr_m (fst r1)) (loc_of_shr_record (fst r1))) in *.
  assert (Hm2 : 0 <= m2) by (destruct H1 as [[? _]|[? _]]; lia).
  destruct (Z.eq_dec m2 0) as [Hz|Hnz].
  - rewrite Hz.
    destruct (shr_fexp_spec 0 (snd r1) loc_Exact ltac:(lia)) as (_ & Hq & _).
    rewrite Z.div_0_l in Hq by (apply Z.pow_nonzero; simpl; lia).
    rewrite Hq. discriminate.
  - assert (He2 : snd r1 <= fexp (Zdigits2 m2 + snd r1)).
    { destruct H1 as [[Hpos Hc]|[_ Hc]].
      - pose proof (Zdigits2_mono (shr_m (fst r1)) m2 ltac:(lia)) as Hmono.
        rewrite Hc at 1. rewrite !fexp_eq. lia.
      - rewrite Hc, fexp_eq. lia. }
    pose proof (shr_fexp_canonical m2 (snd r1) loc_Exact ltac:(lia) He2) as H2.
    cbv zeta in H2.
    set (r2 := shr_fexp m2 (snd r1) loc_Exact) in *.
    destruct (shr_m (fst r2)) as [|p|p] eqn:E3; try discriminate.
    destruct (snd r2 <=? emax - prec); [|discriminate].
    intros [= _ <- <-]. apply canonical_spec.
    destruct H2 as [[_ Hc]|[Hc _]]; [exact Hc|discriminate].
Qed.

(** The mantissa that goes into the rounding of [a / b] has enough
    digits. *)
Lemma SFdiv_core_binary_digits (a b : positive) :
  Zpos b <= 2 ^ 53 ->
  let '(q, e, _) := SFdiv_core_binary prec emax (Zpos a) 0 (Zpos b) 0 in
  0 < q /\ e <= fexp (Zdigits2 q + e).
Proof.
  intros Hb53. unfold SFdiv_core_binary.
  assert (Hdb54 : Zdigits2 (Zpos b) <= 54).
  { apply Zdigits2_le; [|lia]. change (2 ^ 54) with (2 ^ 53 * 2). lia. }
  destruct (Zdigits2_bounds a) as [Hloa Hhia].
  destruct (Zdigits2_bounds b) as [Hlob Hhib].
  set (da := Zdigits2 (Zpos a)) in *. set (db := Zdigits2 (Zpos b)) in *.
  assert (Hda : 1 <= da) by (subst da; simpl; lia).
  assert (Hdb : 1 <= db) by (subst db; simpl; lia).
  set (e' := Z.min (SpecFloat.fexp prec emax (da + 0 - (db + 0))) (0 - 0)).
  assert (He' : e' <= 0) by (subst e'; lia).
  assert (He'' : e' <= fexp (da - db))
    by (subst e'; replace (da + 0 - (db + 0)) with (da - db) by lia; lia).
  set (m' := match 0 - 0 - e' with
             | Zpos _ => Z.shiftl (Zpos a) (0 - 0 - e')
             | Z0 => Zpos a
             | Zneg _ => 0
             end).
  assert (Hm' : m' = Zpos a * 2 ^ (- e')).
  { subst m'. replace (0 - 0 - e') with (- e') by lia.
    destruct (- e') as [|k|k] eqn:Ek; try lia.
    apply Z.shiftl_mul_pow2. lia. }
  assert (Hp : 0 < 2 ^ (- e')) by (apply Z.pow_pos_nonneg; lia).
  pose proof (Z.div_eucl_eq m' (Zpos b) ltac:(lia)) as Heq.
  pose proof (Z.mod_pos_bound m' (Zpos b) ltac:(lia)) as Hmod.
  assert (Hdiv : fst (Z.div_eucl m' (Zpos b)) = m' / Zpos b) by reflexivity.
  unfold Z.modulo in Hmod.
  destruct (Z.div_eucl m' (Zpos b)) as [q r]. simpl in Hdiv.
  (* [q] is at least [2^(da - db - e' )], when that is a power of two *)
  assert (Hqpos : 0 < q).
  { destruct (Z_lt_le_dec 0 q) as [|Hq0]; [assumption|exfalso].
    rewrite fexp_eq in He''.
    assert (Hbig : Zpos b < 2 ^ (da - 1 + - e')).
    { eapply Z.lt_le_trans; [exact Hhib|]. apply Z.pow_le_mono_r; lia. }
    rewrite Z.pow_add_r in Hbig by lia.
    assert (2 ^ (da - 1) * 2 ^ (- e') <= Zpos a * 2 ^ (- e'))
      by (apply Z.mul_le_mono_nonneg_r; lia).
    assert (Zpos b * q <= 0) by nia. lia. }
  split; [exact Hqpos|].
  rewrite fexp_eq in *.
  destruct (Z_le_gt_dec e' (-1074)) as [|Hgt]; [lia|].
  assert (He3 : e' <= da - db - 53) by lia.
  assert (Hq : 2 ^ (da - db - e' - 1) <= q).
  { rewrite Hdiv. apply Z.div_le_lower_bound; [lia|].
    rewrite Hm'.
    assert (Hb' : Zpos b * 2 ^ (da - db - e' - 1) <= 2 ^ db * 2 ^ (da - db - e' - 1)).
    { apply Z.mul_le_mono_nonneg_r; [apply Z.pow_nonneg; lia|lia]. }
    rewrite <- Z.pow_add_r in Hb' by lia.
    replace (db + (da - db - e' - 1)) with (da - 1 + - e') in Hb' by lia.
    rewrite Z.pow_add_r in Hb' by lia.
    assert (2 ^ (da - 1) * 2 ^ (- e') <= Zpos a * 2 ^ (- e'))
      by (apply Z.mul_le_mono_nonneg_r; lia).
    lia. }
  pose proof (Zdigits2_gt q (da - db - e' - 1) Hqpos ltac:(lia) Hq). lia.
Qed.

(** On canonical floats [<] is the order of the values. *)
Lemma SFltb_value (m1 : positive) (e1 : Z) (m2 : positive) (e2 : Z) :
  canonical m1 e1 = true -> canonical m2 e2 = true ->
  (SFltb (S754_finite false m1 e1) (S754_finite false m2 e2) = true ->
   dyle (Zpos m1) e1 (Zpos m2) e2) /\
  (SFltb (S754_finite false m1 e1) (S754_finite false m2 e2) = false ->
   dyle (Zpos m2) e2 (Zpos m1) e1).
Proof.
  intros H1 H2. apply canonical_spec in H1, H2. rewrite fexp_eq in H1, H2.
  destruct (Zdigits2_bounds m1) as [Hlo1 Hhi1].
  destruct (Zdigits2_bounds m2) as [Hlo2 Hhi2].
  set (d1 := Zdigits2 (Zpos m1)) in *. set (d2 := Zdigits2 (Zpos m2)) in *.
  assert (Hd1 : 1 <= d1) by (subst d1; simpl; lia).
  assert (Hd2 : 1 <= d2) by (subst d2; simpl; lia).
  unfold SFltb, SFcompare, dyle.
  rewrite Pos.compare_cont_spec. simpl Pos.switch_Eq. rewrite Pos2Z.inj_compare.
  destruct (Z.compare_spec e1 e2) as [Ee|Elt|Egt].
  - subst e2. rewrite Z.sub_diag, Z.pow_0_r, !Z.mul_1_r.
    destruct (Z.compare_spec (Zpos m1) (Zpos m2)); split; intros; try discriminate; lia.
  - split; [intros _|discriminate].
    (* [m2] has 53 digits *)
    assert (Ed2 : d2 = 53) by lia.
    assert (Hm1 : Zpos m1 < 2 ^ 53).
    { eapply Z.lt_le_trans; [exact Hhi1|]. apply Z.pow_le_mono_r; lia. }
    replace (Z.max 0 (e1 - e2)) with 0 by lia.
    replace (Z.max 0 (e2 - e1)) with (e2 - e1) by lia.
    rewrite Ed2 in Hlo2. change (2 ^ (53 - 1)) with (2 ^ 52) in Hlo2.
    assert (2 ^ 1 <= 2 ^ (e2 - e1)) by (apply Z.pow_le_mono_r; lia).
    change (2 ^ 1) with 2 in *. change (2 ^ 53) with (2 ^ 52 * 2) in Hm1.
    rewrite Z.pow_0_r. nia.
  - split; [discriminate|intros _].
    assert (Ed1 : d1 = 53) by lia.
    assert (Hm2 : Zpos m2 < 2 ^ 53).
    { eapply Z.lt_le_trans; [exact Hhi2|]. apply Z.pow_le_mono_r; lia. }
    replace (Z.max 0 (e2 - e1)) with 0 by lia.
    replace (Z.max 0 (e1 - e2)) with (e1 - e2) by lia.
    rewrite Ed1 in Hlo1. change (2 ^ (53 - 1)) with (2 ^ 52) in Hlo1.
    assert (2 ^ 1 <= 2 ^ (e1 - e2)) by (apply Z.pow_le_mono_r; lia).
    change (2 ^ 1) with 2 in *. change (2 ^ 53) with (2 ^ 52 * 2) in Hm2.
    rewrite Z.pow_0_r. nia.
Qed.

End Binary64Order.

(** ** Binary64 arithmetic: scaling back by the quotient *)

Module Binary64Fit.

Import Binary64 Binary64Upper Binary64Order.

Local Abbreviation fexp := (SpecFloat.fexp prec emax).
Local Abbreviation shr_fexp := (SpecFloat.shr_fexp prec emax).
Local Abbreviation binary_round_aux := (SpecFloat.binary_round_aux prec emax).

(** Both sides of [dyle] brought to one exponent. *)
Lemma dyle_scaled (x ex y ey L : Z) :
  0 <= ex + L -> 0 <= ey + L ->
  (dyle x ex y ey <-> x * 2 ^ (ex + L) <= y * 2 ^ (ey + L)).
Proof.
  intros Hx Hy. unfold dyle.
  set (c := Z.min ex ey).
  replace (Z.max 0 (ex - ey)) with (ex - c) by (subst c; lia).
  replace (Z.max 0 (ey - ex)) with (ey - c) by (subst c; lia).
  assert (E1 : 2 ^ (ex + L) = 2 ^ (ex - c) * 2 ^ (c + L)).
  { rewrite <- Z.pow_add_r by (subst c; lia). f_equal. lia. }
  assert (E2 : 2 ^ (ey + L) = 2 ^ (ey - c) * 2 ^ (c + L)).
  { rewrite <- Z.pow_add_r by (subst c; lia). f_equal. lia. }
  rewrite E1, E2.
  assert (HP : 0 < 2 ^ (c + L)) by (apply Z.pow_pos_nonneg; subst c; lia).
  rewrite !Z.mul_assoc. apply Z.mul_le_mono_pos_r. exact HP.
Qed.

Lemma dyle_refl (x ex : Z) : dyle x ex x ex.
Proof. unfold dyle. rewrite Z.sub_diag. lia. Qed.

Lemma dyle_trans (a ea b eb c ec : Z) :
  dyle a ea b eb -> dyle b eb c ec -> dyle a ea c ec.
Proof.
  intros H1 H2.
  set (L := Z.max (Z.max (- ea) (- eb)) (- ec)).
  apply (dyle_scaled a ea b eb L) in H1; [|subst L; lia|subst L; lia].
  apply (dyle_scaled b eb c ec L) in H2; [|subst L; lia|subst L; lia].
  apply (dyle_scaled a ea c ec L); [subst L; lia|subst L; lia|].
  eapply Z.le_trans; eassumption.
Qed.

Lemma dyle_mul (x1 e1 y1 k1 x2 e2 y2 k2 : Z) :
  0 <= x1 -> 0 <= x2 -> 0 <= y1 ->
  dyle x1 e1 y1 k1 -> dyle x2 e2 y2 k2 ->
  dyle (x1 * x2) (e1 + e2) (y1 * y2) (k1 + k2).
Proof.
  intros Hx1 Hx2 Hy1 H1 H2.
  set (L1 := Z.max (- e1) (- k1)). set (L2 := Z.max (- e2) (- k2)).
  apply (dyle_scaled x1 e1 y1 k1 L1) in H1; [|subst L1; lia|subst L1; lia].
  apply (dyle_scaled x2 e2 y2 k2 L2) in H2; [|subst L2; lia|subst L2; lia].
  apply (dyle_scaled _ _ _ _ (L1 + L2)); [subst L1 L2; lia|subst L1 L2; lia|].
  assert (E : 2 ^ (e1 + e2 + (L1 + L2)) = 2 ^ (e1 + L1) * 2 ^ (e2 + L2)).
  { rewrite <- Z.pow_add_r by (subst L1 L2; lia). f_equal. lia. }
  assert (K : 2 ^ (k1 + k2 + (L1 + L2)) = 2 ^ (k1 + L1) * 2 ^ (k2 + L2)).
  { rewrite <- Z.pow_add_r by (subst L1 L2; lia). f_equal. lia. }
  rewrite E, K.
  assert (0 <= 2 ^ (e1 + L1)) by (apply Z.pow_nonneg; lia).
  assert (0 <= 2 ^ (e2 + L2)) by (apply Z.pow_nonneg; lia).
  assert (Hprod : (x1 * 2 ^ (e1 + L1)) * (x2 * 2 ^ (e2 + L2)) <=
                  (y1 * 2 ^ (k1 + L1)) * (y2 * 2 ^ (k2 + L2))).
  { apply Z.mul_le_mono_nonneg; try assumption; apply Z.mul_nonneg_nonneg; lia. }
  eapply Z.le_trans; [apply Z.eq_le_incl|eapply Z.le_trans; [exact Hprod|apply Z.eq_le_incl]];
    ring.
Qed.

Lemma dy_le_dyle (m e B : Z) : dy_le m e B <-> dyle m e B 0.
Proof.
  unfold dy_le, dyle.
  replace (e - 0) with e by lia. replace (0 - e) with (- e) by lia. reflexivity.
Qed.

(** A rounded float is at most the truncated mantissa plus one, at the
    exponent of the first shift. *)
Lemma binary_round_aux_crude (s : bool) (m e : Z) (l : location) :
  0 <= m ->
  forall s' m' e', binary_round_aux s m e l = S754_finite s' m' e' ->
  let e1 := Z.max e (fexp (Zdigits2 m + e)) in
  dyle (Zpos m') e' (m / 2 ^ (e1 - e) + 1) e1.
Proof.
  intros Hm s' m' e'. rewrite binary_round_aux_unfold. cbv zeta.
  set (r1 := shr_fexp m e l).
  destruct (shr_fexp_spec m e l Hm) as (He1 & Hq1 & _). fold r1 in He1, Hq1.
  set (e1 := Z.max e (fexp (Zdigits2 m + e))) in *.
  assert (Hk1 : 0 <= e1 - e) by (subst e1; lia).
  assert (Hpk : 0 < 2 ^ (e1 - e)) by (apply Z.pow_pos_nonneg; lia).
  assert (Hm1 : 0 <= shr_m (fst r1)) by (rewrite Hq1; apply Z.div_pos; lia).
  pose proof (round_nearest_even_bounds (shr_m (fst r1)) (loc_of_shr_record (fst r1))) as Hr.
  set (m2 := round_nearest_even (shr_m (fst r1)) (loc_of_shr_record (fst r1))) in *.
  destruct (shr_fexp_spec m2 (snd r1) loc_Exact ltac:(lia)) as (He2 & Hq2 & _).
  set (r2 := shr_fexp m2 (snd r1) loc_Exact) in *.
  set (e2 := Z.max (snd r1) (fexp (Zdigits2 m2 + snd r1))) in *.
  assert (Hk2 : 0 <= e2 - snd r1) by (subst e2; lia).
  assert (Hpk2 : 0 < 2 ^ (e2 - snd r1)) by (apply Z.pow_pos_nonneg; lia).
  destruct (shr_m (fst r2)) as [|p|p] eqn:E3; try discriminate.
  destruct (snd r2 <=? emax - prec); [|discriminate].
  intros [= _ <- <-]. rewrite He2. unfold dyle.
  replace (Z.max 0 (e2 - e1)) with (e2 - snd r1) by lia.
  replace (Z.max 0 (e1 - e2)) with 0 by lia.
  rewrite Z.pow_0_r, Z.mul_1_r, Hq2, <- Hq1.
  pose proof (Z.mul_div_le m2 (2 ^ (e2 - snd r1)) Hpk2). lia.
Qed.

(** [a / b] is a canonical float. *)
Lemma quotient_canonical (a b : Z) :
  0 <= a < 2 ^ 1023 -> 0 < b <= 2 ^ 53 -> canonical_float (quotient a b).
Proof.
  intros [Ha0 Ha] [Hb0 Hb]. unfold quotient.
  destruct b as [|pb|pb]; try lia. destruct a as [|pa|pa]; try lia.
  - left. reflexivity.
  - unfold exact, SFdiv.
    pose proof (SFdiv_core_binary_digits pa pb Hb) as Hdig.
    pose proof (SFdiv_core_binary_bounds pa pb Ha) as Hbd.
    destruct (SFdiv_core_binary prec emax (Zpos pa) 0 (Zpos pb) 0) as [[q e] l].
    destruct Hdig as [Hq He]. destruct Hbd as (_ & He0 & Hd). simpl xorb.
    pose proof (binary_round_aux_canonical false q e l Hq He) as Hcan.
    pose proof (binary_round_aux_digits false q e l ltac:(lia)) as Hsign.
    pose proof (binary_round_aux_finite false q e l ltac:(lia) ltac:(lia) Hd) as Hfin.
    destruct (binary_round_aux false q e l) as [s|s| |s m' e'].
    + subst s. left. reflexivity.
    + exfalso. exact (Hfin s eq_refl).
    + contradiction.
    + destruct Hsign as [-> _]. right. exists m', e'.
      split; [reflexivity|]. eapply Hcan. reflexivity.
Qed.

Lemma float_le_refl (x : float) : canonical_float x -> float_le x x.
Proof.
  intros [->|(m & e & -> & _)]; [left; reflexivity|right].
  exists m, e, m, e. repeat split. apply dyle_refl.
Qed.

(** [min(a, b)] is below both of its arguments. *)
Lemma min_float_le (a b : float) :
  canonical_float a -> canonical_float b ->
  float_le (Py.min a b) a /\ float_le (Py.min a b) b.
Proof.
  intros Ha Hb. unfold Py.min.
  destruct Ha as [->|(ma & ea & -> & Hca)]; destruct Hb as [->|(mb & eb & -> & Hcb)].
  - simpl. split; left; reflexivity.
  - simpl. split; left; reflexivity.
  - simpl. split; left; reflexivity.
  - destruct (SFltb_value mb eb ma ea Hcb Hca) as [Hlt Hge].
    destruct (SFltb (S754_finite false mb eb) (S754_finite false ma ea)).
    + split; right.
      * exists mb, eb, ma, ea. repeat split. apply Hlt. reflexivity.
      * exists mb, eb, mb, eb. repeat split. apply dyle_refl.
    + split; right.
      * exists ma, ea, ma, ea. repeat split. apply dyle_refl.
      * exists ma, ea, mb, eb. repeat split. apply Hge. reflexivity.
Qed.

(** What goes into the rounding of [a / b], scaled back by [b], stays
    within half a unit of [a]. *)
Lemma SFdiv_core_binary_fit (a b : positive) :
  Zpos a < 2 ^ 51 -> Zpos b < 2 ^ 53 ->
  let '(q, e, _) := SFdiv_core_binary prec emax (Zpos a) 0 (Zpos b) 0 in
  let e1 := Z.max e (fexp (Zdigits2 q + e)) in
  0 <= q /\
  dyle (Zpos b * (q / 2 ^ (e1 - e) + 1)) e1 (2 * Zpos a + 1) (-1).
Proof.
  intros Ha Hb. unfold SFdiv_core_binary.
  destruct (Zdigits2_bounds a) as [Hloa Hhia].
  destruct (Zdigits2_bounds b) as [Hlob Hhib].
  set (da := Zdigits2 (Zpos a)) in *. set (db := Zdigits2 (Zpos b)) in *.
  assert (Hda : 1 <= da <= 51).
  { split; [subst da; simpl; lia|]. subst da. apply Zdigits2_le; lia. }
  assert (Hdb : 1 <= db <= 53).
  { split; [subst db; simpl; lia|]. subst db. apply Zdigits2_le; lia. }
  set (e' := Z.min (SpecFloat.fexp prec emax (da + 0 - (db + 0))) (0 - 0)).
  assert (He' : e' = da - db - 53) by (subst e'; rewrite fexp_eq; lia).
  set (m' := match 0 - 0 - e' with
             | Zpos _ => Z.shiftl (Zpos a) (0 - 0 - e')
             | Z0 => Zpos a
             | Zneg _ => 0
             end).
  assert (Hm' : m' = Zpos a * 2 ^ (- e')).
  { subst m'. replace (0 - 0 - e') with (- e') by lia.
    destruct (- e') as [|k|k] eqn:Ek; try lia.
    apply Z.shiftl_mul_pow2. lia. }
  pose proof (Z.div_eucl_eq m' (Zpos b) ltac:(lia)) as Heq.
  pose proof (Z.mod_pos_bound m' (Zpos b) ltac:(lia)) as Hmod.
  unfold Z.modulo in Hmod.
  destruct (Z.div_eucl m' (Zpos b)) as [q r].
  cbv zeta.
  set (S := 2 ^ (- e')) in *.
  assert (HS : 0 < S) by (subst S; apply Z.pow_pos_nonneg; lia).
  assert (Hq0 : 0 <= q) by nia.
  (* [q] has at most 54 digits *)
  assert (Hq54 : q < 2 ^ 54).
  { assert (H1 : q * 2 ^ (db - 1) <= q * Zpos b)
      by (apply Z.mul_le_mono_nonneg_l; lia).
    assert (H2 : Zpos a * S < 2 ^ da * S)
      by (apply Z.mul_lt_mono_pos_r; lia).
    assert (H3 : 2 ^ da * S = 2 ^ 54 * 2 ^ (db - 1)).
    { subst S. rewrite <- !Z.pow_add_r by lia. f_equal. lia. }
    assert (0 < 2 ^ (db - 1)) by (apply Z.pow_pos_nonneg; lia).
    nia. }
  assert (Hdq : Zdigits2 q <= 54) by (apply Zdigits2_le; lia).
  pose proof (Zdigits2_nonneg q) as Hdq0.
  set (e1 := Z.max e' (fexp (Zdigits2 q + e'))).
  assert (Hk : e1 - e' = 0 \/ e1 - e' = 1) by (subst e1; rewrite fexp_eq; lia).
  split; [exact Hq0|].
  (* [4 b <= 2^s] *)
  assert (H4b : 4 * Zpos b <= S).
  { assert (2 ^ (db + 2) <= S) by (subst S; apply Z.pow_le_mono_r; lia).
    rewrite Z.pow_add_r in H by lia. change (2 ^ 2) with 4 in H. lia. }
  unfold dyle.
  replace (Z.max 0 (e1 - -1)) with 0 by lia.
  replace (Z.max 0 (-1 - e1)) with (-1 - e1) by lia.
  rewrite Z.pow_0_r, Z.mul_1_r.
  destruct Hk as [Hk|Hk]; rewrite Hk.
  - (* no bit is dropped *)
    rewrite Z.pow_0_r, Z.div_1_r.
    assert (HX : S = 2 * 2 ^ (-1 - e1)).
    { subst S. replace (- e') with (1 + (-1 - e1)) by lia.
      rewrite Z.pow_add_r by lia. reflexivity. }
    set (X := 2 ^ (-1 - e1)) in *.
    assert (Zpos b * q <= Zpos a * S) by lia.
    nia.
  - (* one bit is dropped *)
    change (2 ^ 1) with 2.
    assert (HX : S = 4 * 2 ^ (-1 - e1)).
    { subst S. replace (- e') with (2 + (-1 - e1)) by lia.
      rewrite Z.pow_add_r by lia. reflexivity. }
    set (X := 2 ^ (-1 - e1)) in *.
    assert (Zpos b * q <= Zpos a * S) by lia.
    pose proof (Z.mul_div_le q 2 ltac:(lia)) as Hhalf.
    assert (Hb2 : Zpos b * (2 * (q / 2)) <= Zpos b * q)
      by (apply Z.mul_le_mono_nonneg_l; lia).
    nia.
Qed.

(** The integer part of a float that is at most [a + 1/2]. *)
Lemma floor_half (m : positive) (e a : Z) :
  0 <= a -> dyle (Zpos m) e (2 * a + 1) (-1) ->
  0 <= floor (S754_finite false m e) <= a.
Proof.
  intros Ha Hle. unfold floor, cond_Zopp. unfold dyle in Hle.
  destruct e as [|k|k].
  - change (Zpos m * 2 <= (2 * a + 1) * 1) in Hle. simpl. lia.
  - rewrite Z.shiftl_mul_pow2 by lia.
    replace (Z.max 0 (Zpos k - -1)) with (Zpos k + 1) in Hle by lia.
    replace (Z.max 0 (-1 - Zpos k)) with 0 in Hle by lia.
    rewrite Z.pow_add_r, Z.pow_0_r in Hle by lia. change (2 ^ 1) with 2 in Hle.
    assert (0 < 2 ^ Zpos k) by (apply Z.pow_pos_nonneg; lia). nia.
  - rewrite Z.shiftr_div_pow2 by lia.
    replace (Z.max 0 (Zneg k - -1)) with 0 in Hle by lia.
    replace (Z.max 0 (-1 - Zneg k)) with (Zpos k - 1) in Hle by lia.
    rewrite Z.pow_0_r, Z.mul_1_r in Hle.
    assert (HP : 2 ^ Zpos k = 2 * 2 ^ (Zpos k - 1)).
    { replace (Zpos k) with (1 + (Zpos k - 1)) at 1 by lia.
      rewrite Z.pow_add_r by lia. reflexivity. }
    assert (0 < 2 ^ (Zpos k - 1)) by (apply Z.pow_pos_nonneg; lia).
    split.
    + apply Z.div_pos; lia.
    + assert (Zpos m / 2 ^ Zpos k < a + 1); [|lia].
      apply Z.div_lt_upper_bound; [lia|]. nia.
Qed.

(** Multiplying [b] by a ratio that is at most the float [a / b] and
    taking the integer part gives at most [a]. *)
Lemma times_fits (a b : Z) (ratio : float) :
  0 <= a < 2 ^ 51 -> 0 < b < 2 ^ 53 ->
  float_le ratio (quotient a b) ->
  0 <= floor (times b ratio) <= a.
Proof.
  intros [Ha0 Ha] Hb Hle.
  destruct (float_of_int_le b Hb) as [_ Hfb]. unfold times.
  destruct Hle as [->|(mr & er & ma & ea & -> & Eq & Hra)].
  { destruct Hfb as [->|(mb & eb & -> & _)]; simpl; lia. }
  destruct Hfb as [->|(mb & eb & -> & Hbb)]; [simpl; lia|].
  simpl SFmul.
  (* the bound on the quotient *)
  assert (Hbound : dyle (Zpos mb * Zpos mr) (eb + er) (2 * a + 1) (-1)).
  { unfold quotient in Eq.
    destruct b as [|pb|pb]; try lia. destruct a as [|pa|pa]; try lia;
      [discriminate|].
    unfold exact, SFdiv in Eq.
    pose proof (SFdiv_core_binary_fit pa pb Ha ltac:(lia)) as Hfit.
    destruct (SFdiv_core_binary prec emax (Zpos pa) 0 (Zpos pb) 0) as [[q e] l].
    cbv zeta in Hfit. destruct Hfit as [Hq Hfit]. simpl xorb in Eq.
    pose proof (binary_round_aux_crude false q e l Hq _ _ _ Eq) as Hcr.
    cbv zeta in Hcr.
    set (e1 := Z.max e (SpecFloat.fexp prec emax (Zdigits2 q + e))) in *.
    set (Um := q / 2 ^ (e1 - e) + 1) in *.
    assert (HUm : 0 <= Um).
    { subst Um. assert (0 <= q / 2 ^ (e1 - e)); [|lia].
      apply Z.div_pos; [lia|apply Z.pow_pos_nonneg; subst e1; lia]. }
    apply dy_le_dyle in Hbb.
    pose proof (dyle_trans _ _ _ _ _ _ Hra Hcr) as Hr.
    pose proof (dyle_mul (Zpos mb) eb (Zpos pb) 0 (Zpos mr) er Um e1
                  ltac:(lia) ltac:(lia) ltac:(lia) Hbb Hr) as Hm.
    rewrite Z.add_0_l in Hm.
    eapply dyle_trans; [exact Hm|exact Hfit]. }
  assert (Hbm : 0 <= 2 * a + 1 < 2 ^ 53).
  { change (2 ^ 53) with (4 * 2 ^ 51). lia. }
  assert (Hexc : dyle (Zpos (mb * mr) + excess loc_Exact) (eb + er) (2 * a + 1) (-1)).
  { simpl excess. rewrite Z.add_0_r, Pos2Z.inj_mul. exact Hbound. }
  destruct (binary_round_aux_le_gen false (Zpos (mb * mr)) (eb + er) (2 * a + 1) (-1)
              loc_Exact ltac:(lia) (or_intror eq_refl) Hbm ltac:(lia) Hexc)
    as [->|(m' & e' & -> & Hle')].
  - simpl. lia.
  - apply floor_half; assumption.
Qed.

(** Below [1.0] is closed downwards in the order of [SFltb]. *)
Lemma lt_one_below (x y : float) :
  nonneg_float x -> nonneg_float y -> lt_one y = true ->
  SFltb x y = true \/ SFltb y x = false ->
  lt_one x = true.
Proof.
  intros [->|(mx & ex & -> & _)] Hy Hlt Hxy; [reflexivity|].
  destruct Hy as [->|(my & ey & -> & _)].
  - destruct Hxy as [Hxy|Hxy]; discriminate.
  - revert Hlt Hxy. unfold lt_one, SFltb, one, SFcompare.
    rewrite !Pos.compare_cont_spec. simpl Pos.switch_Eq.
    rewrite !Pos2Z.inj_compare.
    destruct (Z.compare_spec ey (-52)); destruct (Z.compare_spec ex (-52));
      destruct (Z.compare_spec ex ey); destruct (Z.compare_spec ey ex);
      try lia; try discriminate; try reflexivity;
      destruct (Z.compare_spec (Zpos my) (Zpos 4503599627370496));
      destruct (Z.compare_spec (Zpos mx) (Zpos 4503599627370496));
      destruct (Z.compare_spec (Zpos mx) (Zpos my));
      destruct (Z.compare_spec (Zpos my) (Zpos mx));
      try lia; try discriminate; try reflexivity;
      intros ? [?|?]; try discriminate; try lia.
Qed.

(** [min(a, b) < 1] as soon as one of the two is. *)
Lemma min_lt_one (a b : float) :
  nonneg_float a -> nonneg_float b ->
  lt_one a = true \/ lt_one b = true ->
  lt_one (Py.min a b) = true.
Proof.
  intros Ha Hb H. unfold Py.min.
  destruct (SFltb b a) eqn:E.
  - destruct H as [H|H]; [|exact H].
    apply (lt_one_below b a Hb Ha H). left. exact E.
  - destruct H as [H|H]; [exact H|].
    apply (lt_one_below a b Ha Hb H). right. exact E.
Qed.

End Binary64Fit.

(** ** Binary64 arithmetic: how far the size is from the exact one *)

Module Binary64Exact.

Import Binary64 Binary64Lower Binary64Upper Binary64Order Binary64Fit.

Local Abbreviation fexp := (SpecFloat.fexp prec emax).
Local Abbreviation shr_fexp := (SpecFloat.shr_fexp prec emax).
Local Abbreviation binary_round_aux := (SpecFloat.binary_round_aux prec emax).

Lemma dyle_cancel (d x ex y ey : Z) :
  0 < d -> dyle (d * x) ex (d * y) ey -> dyle x ex y ey.
Proof.
  unfold dyle. intros Hd H. rewrite <- !Z.mul_assoc in H.
  apply Z.mul_le_mono_pos_l in H; assumption.
Qed.

Lemma dy_ge_dyle (m e B : Z) : dy_ge m e B <-> dyle B 0 m e.
Proof.
  unfold dy_ge, dyle.
  replace (0 - e) with (- e) by lia. replace (e - 0) with e by lia. reflexivity.
Qed.

(** What goes into the rounding of [a / b], scaled back by [b], is within
    [2^-27] of [a] when [a < 2^25]. *)
Lemma SFdiv_core_binary_near (a b : positive) :
  Zpos a < 2 ^ 25 -> Zpos b < 2 ^ 53 ->
  let '(q, e, _) := SFdiv_core_binary prec emax (Zpos a) 0 (Zpos b) 0 in
  let e1 := Z.max e (fexp (Zdigits2 q + e)) in
  0 <= q /\
  dyle (Zpos b * (q / 2 ^ (e1 - e) + 1)) e1 (2 ^ 27 * Zpos a + 1) (-27) /\
  dyle (2 ^ 27 * Zpos a - 1) (-27) (Zpos b * (q / 2 ^ (e1 - e))) e1.
Proof.
  intros Ha Hb. unfold SFdiv_core_binary.
  destruct (Zdigits2_bounds a) as [Hloa Hhia].
  destruct (Zdigits2_bounds b) as [Hlob Hhib].
  set (da := Zdigits2 (Zpos a)) in *. set (db := Zdigits2 (Zpos b)) in *.
  assert (Hda : 1 <= da <= 25).
  { split; [subst da; simpl; lia|]. subst da. apply Zdigits2_le; lia. }
  assert (Hdb : 1 <= db <= 53).
  { split; [subst db; simpl; lia|]. subst db. apply Zdigits2_le; lia. }
  set (e' := Z.min (SpecFloat.fexp prec emax (da + 0 - (db + 0))) (0 - 0)).
  assert (He' : e' = da - db - 53) by (subst e'; rewrite fexp_eq; lia).
  set (m' := match 0 - 0 - e' with
             | Zpos _ => Z.shiftl (Zpos a) (0 - 0 - e')
             | Z0 => Zpos a
             | Zneg _ => 0
             end).
  assert (Hm' : m' = Zpos a * 2 ^ (- e')).
  { subst m'. replace (0 - 0 - e') with (- e') by lia.
    destruct (- e') as [|k|k] eqn:Ek; try lia.
    apply Z.shiftl_mul_pow2. lia. }
  pose proof (Z.div_eucl_eq m' (Zpos b) ltac:(lia)) as Heq.
  pose proof (Z.mod_pos_bound m' (Zpos b) ltac:(lia)) as Hmod.
  unfold Z.modulo in Hmod.
  destruct (Z.div_eucl m' (Zpos b)) as [q r].
  cbv zeta.
  set (S := 2 ^ (- e')) in *.
  assert (HS : 0 < S) by (subst S; apply Z.pow_pos_nonneg; lia).
  assert (Hq0 : 0 <= q) by nia.
  assert (Hq54 : q < 2 ^ 54).
  { assert (H1 : q * 2 ^ (db - 1) <= q * Zpos b)
      by (apply Z.mul_le_mono_nonneg_l; lia).
    assert (H2 : Zpos a * S < 2 ^ da * S)
      by (apply Z.mul_lt_mono_pos_r; lia).
    assert (H3 : 2 ^ da * S = 2 ^ 54 * 2 ^ (db - 1)).
    { subst S. rewrite <- !Z.pow_add_r by lia. f_equal. lia. }
    assert (0 < 2 ^ (db - 1)) by (apply Z.pow_pos_nonneg; lia).
    nia. }
  assert (Hdq : Zdigits2 q <= 54) by (apply Zdigits2_le; lia).
  pose proof (Zdigits2_nonneg q) as Hdq0.
  set (e1 := Z.max e' (fexp (Zdigits2 q + e'))).
  assert (Hk : e1 - e' = 0 \/ e1 - e' = 1) by (subst e1; rewrite fexp_eq; lia).
  split; [exact Hq0|].
  set (X := 2 ^ (-27 - e1)).
  assert (HX0 : 0 < X) by (subst X; apply Z.pow_pos_nonneg; lia).
  assert (HbX : Zpos b <= X).
  { assert (2 ^ db <= X) by (subst X; apply Z.pow_le_mono_r; lia). lia. }
  assert (Hbq : Zpos b * q <= Zpos a * S) by lia.
  assert (Hbq' : Zpos a * S < Zpos b * q + Zpos b) by lia.
  unfold dyle.
  replace (Z.max 0 (e1 - -27)) with 0 by lia.
  replace (Z.max 0 (-27 - e1)) with (-27 - e1) by lia.
  rewrite Z.pow_0_r, !Z.mul_1_r. fold X.
  destruct Hk as [Hk|Hk]; rewrite Hk.
  - rewrite Z.pow_0_r, Z.div_1_r.
    assert (HSX : S = 2 ^ 27 * X).
    { subst S X. rewrite <- Z.pow_add_r by lia. f_equal. lia. }
    rewrite HSX in Hbq, Hbq'. split; nia.
  - change (2 ^ 1) with 2.
    assert (HSX : S = 2 * (2 ^ 27 * X)).
    { subst S X. replace (- e') with (1 + (27 + (-27 - e1))) by lia.
      rewrite !Z.pow_add_r by lia. reflexivity. }
    rewrite HSX in Hbq, Hbq'.
    pose proof (Z.mul_div_le q 2 ltac:(lia)) as Hhalf.
    pose proof (Z.mod_pos_bound q 2 ltac:(lia)) as Hm2.
    pose proof (Z.div_mod q 2 ltac:(lia)) as Hdm.
    set (t := q / 2) in *. set (A := 2 ^ 27 * X) in *.
    split; nia.
Qed.

(** A rounded float is at least the truncated mantissa, at the exponent
    of the first shift; it is zero only if that mantissa is. *)
Lemma binary_round_aux_trunc (s : bool) (m e : Z) (l : location) :
  0 <= m ->
  let e1 := Z.max e (fexp (Zdigits2 m + e)) in
  match binary_round_aux s m e l with
  | S754_finite _ m' e' => dyle (m / 2 ^ (e1 - e)) e1 (Zpos m') e'
  | S754_zero _ => m / 2 ^ (e1 - e) = 0
  | _ => True
  end.
Proof.
  intros Hm. rewrite binary_round_aux_unfold. cbv zeta.
  set (r1 := shr_fexp m e l).
  destruct (shr_fexp_spec m e l Hm) as (He1 & Hq1 & _). fold r1 in He1, Hq1.
  set (e1 := Z.max e (fexp (Zdigits2 m + e))) in *.
  assert (Hk1 : 0 <= e1 - e) by (subst e1; lia).
  assert (Hpk : 0 < 2 ^ (e1 - e)) by (apply Z.pow_pos_nonneg; lia).
  assert (Hm1 : 0 <= shr_m (fst r1)) by (rewrite Hq1; apply Z.div_pos; lia).
  pose proof (round_nearest_even_bounds (shr_m (fst r1)) (loc_of_shr_record (fst r1))) as Hr.
  set (m2 := round_nearest_even (shr_m (fst r1)) (loc_of_shr_record (fst r1))) in *.
  pose proof (Zdigits2_nonneg m) as Hd0.
  set (j := Z.max 0 (Zdigits2 m - (e1 - e))).
  assert (Hj : shr_m (fst r1) < 2 ^ j).
  { rewrite Hq1. apply Z.div_lt_upper_bound; [lia|].
    rewrite <- Z.pow_add_r by lia.
    destruct m as [|pm|pm]; [apply Z.pow_pos_nonneg; lia| |lia].
    destruct (Zdigits2_bounds pm) as [_ Hhi].
    eapply Z.lt_le_trans; [exact Hhi|].
    apply Z.pow_le_mono_r; lia. }
  rewrite <- Hq1. set (m1 := shr_m (fst r1)) in *.
  assert (Hd1 : Zdigits2 m1 <= j) by (apply Zdigits2_le; lia).
  pose proof (Zdigits2_nonneg m1) as Hd1'.
  assert (Hm1d : m1 < 2 ^ Zdigits2 m1).
  { destruct m1 as [|p1|p1]; [simpl; lia| |lia].
    apply (Zdigits2_bounds p1). }
  assert (Hd2 : Zdigits2 m2 <= Zdigits2 m1 + 1).
  { apply Zdigits2_le; [|lia]. split; [lia|].
    rewrite Z.pow_add_r by lia. change (2 ^ 1) with 2. lia. }
  destruct (shr_fexp_spec m2 (snd r1) loc_Exact ltac:(lia)) as (He2 & Hq2 & _).
  set (r2 := shr_fexp m2 (snd r1) loc_Exact) in *.
  rewrite He1 in He2, Hq2.
  set (e2 := Z.max e1 (fexp (Zdigits2 m2 + e1))) in *.
  assert (Hk2 : e2 - e1 = 0 \/ (e2 - e1 = 1 /\ m2 = m1 + 1)).
  { destruct (Z.eq_dec m2 m1) as [E|E].
    - left. assert (Hdd : Zdigits2 m2 = Zdigits2 m1) by (f_equal; exact E).
      clear Hj Hm1d. subst e2 j e1. rewrite !fexp_eq in *. lia.
    - assert (Hs : m2 = m1 + 1) by lia.
      clear Hj Hm1d. subst e2 j e1. rewrite !fexp_eq in *. lia. }
  assert (Hkeep : m1 <= shr_m (fst r2) * 2 ^ (e2 - e1)).
  { rewrite Hq2. destruct Hk2 as [Hk2|[Hk2 Hsucc]]; rewrite Hk2.
    - rewrite Z.pow_0_r, Z.div_1_r. lia.
    - change (2 ^ 1) with 2. rewrite Hsucc.
      pose proof (Z.div_mod (m1 + 1) 2 ltac:(lia)) as Hdm.
      pose proof (Z.mod_pos_bound (m1 + 1) 2 ltac:(lia)) as Hmod.
      lia. }
  destruct (shr_m (fst r2)) as [|p|p] eqn:E3.
  - lia.
  - destruct (snd r2 <=? emax - prec); [|exact I].
    rewrite He2. unfold dyle.
    replace (Z.max 0 (e1 - e2)) with 0 by lia.
    replace (Z.max 0 (e2 - e1)) with (e2 - e1) by lia.
    rewrite Z.pow_0_r, Z.mul_1_r. exact Hkeep.
  - exact I.
Qed.

(** The float [a / b] for [0 < a < 2^25], scaled back by [b], is within
    [2^-27] of [a]. *)
Lemma quotient_near (a b : Z) :
  0 < a < 2 ^ 25 -> 0 < b < 2 ^ 53 ->
  exists m e,
    quotient a b = S754_finite false m e /\
    dyle (b * Zpos m) e (2 ^ 27 * a + 1) (-27) /\
    dyle (2 ^ 27 * a - 1) (-27) (b * Zpos m) e.
Proof.
  intros Ha Hb.
  assert (Ha' : 0 <= a < 2 ^ 1023).
  { assert (2 ^ 25 <= 2 ^ 1023) by (apply Z.pow_le_mono_r; lia). lia. }
  pose proof (quotient_canonical a b Ha' ltac:(lia)) as Hcan.
  unfold quotient in *.
  destruct b as [|pb|pb]; try lia. destruct a as [|pa|pa]; try lia.
  unfold exact, SFdiv in *.
  pose proof (SFdiv_core_binary_near pa pb ltac:(lia) ltac:(lia)) as Hnear.
  destruct (SFdiv_core_binary prec emax (Zpos pa) 0 (Zpos pb) 0) as [[q e] l].
  cbv zeta in Hnear. destruct Hnear as (Hq & Hup & Hlo). simpl xorb in *.
  pose proof (binary_round_aux_trunc false q e l Hq) as Htr. cbv zeta in Htr.
  set (e1 := Z.max e (SpecFloat.fexp prec emax (Zdigits2 q + e))) in *.
  assert (Hpk : 0 < 2 ^ (e1 - e)) by (apply Z.pow_pos_nonneg; subst e1; lia).
  assert (Ht0 : 0 <= q / 2 ^ (e1 - e)) by (apply Z.div_pos; lia).
  destruct Hcan as [E|(m & e0 & E & _)].
  - (* the quotient is not zero *)
    rewrite E in Htr. rewrite Htr, Z.mul_0_r in Hlo.
    unfold dyle in Hlo. exfalso.
    assert (0 <= 2 ^ Z.max 0 (-27 - e1)) by (apply Z.pow_nonneg; lia).
    assert (0 < 2 ^ Z.max 0 (e1 - -27)) by (apply Z.pow_pos_nonneg; lia).
    change (2 ^ 27) with 134217728 in Hlo. nia.
  - pose proof (binary_round_aux_crude false q e l Hq _ _ _ E) as Hcr.
    cbv zeta in Hcr. fold e1 in Hcr.
    rewrite E in Htr. exists m, e0. split; [exact E|]. split.
    + pose proof (dyle_mul (Zpos pb) 0 (Zpos pb) 0 (Zpos m) e0
                    (q / 2 ^ (e1 - e) + 1) e1
                    ltac:(lia) ltac:(lia) ltac:(lia) (dyle_refl _ _) Hcr) as H.
      rewrite !Z.add_0_l in H. eapply dyle_trans; [exact H|exact Hup].
    + pose proof (dyle_mul (Zpos pb) 0 (Zpos pb) 0 (q / 2 ^ (e1 - e)) e1
                    (Zpos m) e0
                    ltac:(lia) Ht0 ltac:(lia) (dyle_refl _ _) Htr) as H.
      rewrite !Z.add_0_l in H. eapply dyle_trans; [exact Hlo|exact H].
Qed.

(** An [int] below [2^53] is converted exactly. *)
Lemma float_of_int_exact (n : Z) :
  0 < n < 2 ^ 53 ->
  exists m e,
    binary_normalize prec emax n 0 false = S754_finite false m e /\
    dy_le (Zpos m) e n /\ dy_ge (Zpos m) e n.
Proof.
  intros Hn. destruct (float_of_int_le n Hn) as [_ Hle]. cbv zeta in Hle.
  revert Hle. destruct n as [|pn|pn]; try lia.
  unfold binary_normalize, binary_round.
  set (ez' := SpecFloat.fexp prec emax (Zpos (digits2_pos pn) + 0)).
  assert (Hal : let '(mz, ez) := shl_align pn 0 ez' in dy_ge (Zpos mz) ez (Zpos pn)).
  { unfold shl_align. destruct (ez' - 0) as [|d|d] eqn:Ed.
    - unfold dy_ge. simpl. lia.
    - unfold dy_ge. simpl. lia.
    - unfold dy_ge. rewrite iter_xO.
      assert (Eez : ez' = Zneg d) by lia. rewrite Eez.
      replace (Z.max 0 (Zneg d)) with 0 by lia.
      replace (Z.max 0 (- Zneg d)) with (Zpos d) by lia.
      rewrite Z.pow_0_r. lia. }
  destruct (shl_align pn 0 ez') as [mz ez].
  pose proof (binary_round_aux_ge false (Zpos mz) ez (Zpos pn) loc_Exact
                ltac:(lia) ltac:(lia) Hal) as Hge.
  destruct (binary_round_aux false (Zpos mz) ez loc_Exact) as [s|s| |s m e];
    try contradiction.
  - intros [E|(m & e & E & _)]; discriminate.
  - destruct Hge as [-> Hge].
    intros [E|(m0 & e0 & E & Hle)]; [discriminate|].
    injection E as <- <-. exists m, e. repeat split; assumption.
Qed.

(** The integer part of a float that is at most [k + 1 - 2^-26]. *)
Lemma floor_below (m : positive) (e k : Z) :
  0 <= k -> dyle (Zpos m) e (2 ^ 26 * (k + 1) - 1) (-26) ->
  0 <= floor (S754_finite false m e) <= k.
Proof.
  intros Hk Hle. unfold floor, cond_Zopp. unfold dyle in Hle.
  destruct e as [|j|j].
  - change (Zpos m * 2 ^ 26 <= (2 ^ 26 * (k + 1) - 1) * 1) in Hle. simpl. lia.
  - rewrite Z.shiftl_mul_pow2 by lia.
    replace (Z.max 0 (Zpos j - -26)) with (Zpos j + 26) in Hle by lia.
    replace (Z.max 0 (-26 - Zpos j)) with 0 in Hle by lia.
    rewrite Z.pow_add_r, Z.pow_0_r in Hle by lia.
    assert (0 < 2 ^ Zpos j) by (apply Z.pow_pos_nonneg; lia).
    split; [nia|]. lia.
  - rewrite Z.shiftr_div_pow2 by lia.
    assert (HP : 0 < 2 ^ Zpos j) by (apply Z.pow_pos_nonneg; lia).
    split; [apply Z.div_pos; lia|].
    assert (Zpos m / 2 ^ Zpos j < k + 1); [|lia].
    apply Z.div_lt_upper_bound; [lia|].
    destruct (Z_le_gt_dec (Zpos j) 26) as [Hj|Hj].
    + replace (Z.max 0 (Zneg j - -26)) with (26 - Zpos j) in Hle by lia.
      replace (Z.max 0 (-26 - Zneg j)) with 0 in Hle by lia.
      rewrite Z.pow_0_r, Z.mul_1_r in Hle.
      assert (HQ : 2 ^ 26 = 2 ^ Zpos j * 2 ^ (26 - Zpos j)).
      { rewrite <- Z.pow_add_r by lia. f_equal. lia. }
      assert (0 < 2 ^ (26 - Zpos j)) by (apply Z.pow_pos_nonneg; lia).
      rewrite HQ in Hle. nia.
    + replace (Z.max 0 (Zneg j - -26)) with 0 in Hle by lia.
      replace (Z.max 0 (-26 - Zneg j)) with (Zpos j - 26) in Hle by lia.
      rewrite Z.pow_0_r, Z.mul_1_r in Hle.
      assert (HQ : 2 ^ Zpos j = 2 ^ 26 * 2 ^ (Zpos j - 26)).
      { rewrite <- Z.pow_add_r by lia. f_equal. lia. }
      assert (0 < 2 ^ (Zpos j - 26)) by (apply Z.pow_pos_nonneg; lia).
      rewrite HQ. nia.
Qed.

(** The integer part of a float that is at least the integer [B]. *)
Lemma floor_above (m : positive) (e B : Z) :
  dy_ge (Zpos m) e B -> B <= floor (S754_finite false m e).
Proof.
  intros Hge. unfold floor, cond_Zopp. unfold dy_ge in Hge.
  destruct e as [|j|j].
  - simpl in *. lia.
  - rewrite Z.shiftl_mul_pow2 by lia.
    replace (Z.max 0 (- Zpos j)) with 0 in Hge by lia.
    replace (Z.max 0 (Zpos j)) with (Zpos j) in Hge by lia.
    rewrite Z.pow_0_r in Hge. lia.
  - rewrite Z.shiftr_div_pow2 by lia.
    replace (Z.max 0 (- Zneg j)) with (Zpos j) in Hge by lia.
    replace (Z.max 0 (Zneg j)) with 0 in Hge by lia.
    rewrite Z.pow_0_r, Z.mul_1_r in Hge.
    apply Z.div_le_lower_bound; [apply Z.pow_pos_nonneg; lia|lia].
Qed.

(** [n] times a ratio that is at most the float [c / d], with [c < d]:
    the integer part is at most the exact [floor(n * c / d)]. *)
Lemma times_upper (n c d : Z) (ratio : float) :
  0 < n < 2 ^ 25 -> 0 <= c < d -> 0 < d < 2 ^ 25 ->
  float_le ratio (quotient c d) ->
  0 <= floor (times n ratio) <= n * c / d.
Proof.
  intros Hn Hc Hd Hle.
  assert (Hk0 : 0 <= n * c / d) by (apply Z.div_pos; nia).
  assert (Hkn : n * c / d < n).
  { apply Z.div_lt_upper_bound; [lia|]. nia. }
  assert (Hn53 : 0 < n < 2 ^ 53).
  { assert (2 ^ 25 <= 2 ^ 53) by (apply Z.pow_le_mono_r; lia). lia. }
  destruct (float_of_int_le n Hn53) as [_ Hfn]. unfold times.
  destruct Hle as [->|(mr & er & ma & ea & -> & Eq & Hra)].
  { destruct Hfn as [->|(mb & eb & -> & _)]; simpl; lia. }
  destruct Hfn as [->|(mb & eb & -> & Hbb)]; [simpl; lia|].
  assert (Hc0 : 0 < c).
  { destruct c as [|pc|pc]; [|lia|lia].
    unfold quotient, exact, SFdiv in Eq. destruct d; discriminate. }
  destruct (quotient_near c d ltac:(lia) ltac:(lia)) as (m & e & Eq' & Hup & _).
  rewrite Eq in Eq'. injection Eq' as <- <-.
  simpl SFmul.
  pose proof (Z.div_mod (n * c) d ltac:(lia)) as Hdm.
  pose proof (Z.mod_pos_bound (n * c) d ltac:(lia)) as Hmod.
  set (k := n * c / d) in *.
  assert (Hbound : dyle (Zpos mb * Zpos mr) (eb + er) (2 ^ 26 * (k + 1) - 1) (-26)).
  { apply (dyle_cancel d); [lia|].
    apply dy_le_dyle in Hbb.
    pose proof (dyle_mul (Zpos mb) eb n 0 (Zpos mr) er (Zpos ma) ea
                  ltac:(lia) ltac:(lia) ltac:(lia) Hbb Hra) as H1.
    pose proof (dyle_mul d 0 d 0 (Zpos mb * Zpos mr) (eb + er) (n * Zpos ma) (0 + ea)
                  ltac:(lia) ltac:(lia) ltac:(lia) (dyle_refl d 0) H1) as H2.
    pose proof (dyle_mul n 0 n 0 (d * Zpos ma) ea (2 ^ 27 * c + 1) (-27)
                  ltac:(lia) ltac:(lia) ltac:(lia) (dyle_refl n 0) Hup) as H3.
    rewrite !Z.add_0_l in H2, H3.
    replace (d * (n * Zpos ma)) with (n * (d * Zpos ma)) in H2 by ring.
    eapply dyle_trans; [exact H2|]. eapply dyle_trans; [exact H3|].
    unfold dyle. change (Z.max 0 (-27 - -26)) with 0.
    change (Z.max 0 (-26 - -27)) with 1.
    change (2 ^ 0) with 1. change (2 ^ 1) with 2.
    change (2 ^ 27) with 134217728. change (2 ^ 26) with 67108864.
    change (2 ^ 25) with 33554432 in *.
    nia. }
  assert (Hbm : 0 <= 2 ^ 26 * (k + 1) - 1 < 2 ^ 53).
  { change (2 ^ 53) with (2 ^ 26 * 2 ^ 27). change (2 ^ 25) with 33554432 in *.
    change (2 ^ 26) with 67108864. change (2 ^ 27) with 134217728. lia. }
  assert (Hexc : dyle (Zpos (mb * mr) + excess loc_Exact) (eb + er)
                   (2 ^ 26 * (k + 1) - 1) (-26)).
  { simpl excess. rewrite Z.add_0_r, Pos2Z.inj_mul. exact Hbound. }
  destruct (binary_round_aux_le_gen false (Zpos (mb * mr)) (eb + er)
              (2 ^ 26 * (k + 1) - 1) (-26)
              loc_Exact ltac:(lia) (or_intror eq_refl) Hbm ltac:(lia) Hexc)
    as [->|(m' & e' & -> & Hle')].
  - simpl. lia.
  - apply floor_below; assumption.
Qed.

(** [n] times the float [c' / d'], where [c' / d'] is at least [c / d]
    and the float is below 1: the integer part is at least the exact
    [floor(n * c / d)] minus one. *)
Lemma times_lower (n c d c' d' : Z) :
  0 < n < 2 ^ 25 -> 0 <= c -> 0 < d ->
  0 < c' < 2 ^ 25 -> 0 < d' < 2 ^ 25 ->
  c * d' <= c' * d ->
  lt_one (quotient c' d') = true ->
  n * c / d - 1 <= floor (times n (quotient c' d')).
Proof.
  intros Hn Hc Hd Hc' Hd' Hcd Hlt.
  assert (Hn53 : 0 < n < 2 ^ 53).
  { assert (2 ^ 25 <= 2 ^ 53) by (apply Z.pow_le_mono_r; lia). lia. }
  assert (Hc1023 : 0 <= c' < 2 ^ 1023).
  { assert (2 ^ 25 <= 2 ^ 1023) by (apply Z.pow_le_mono_r; lia). lia. }
  destruct (quotient_nonneg c' d' Hc1023 ltac:(lia)) as [_ Hnn].
  pose proof (lt_one_le _ Hnn Hlt) as Hle1.
  destruct (times_le n _ Hn53 Hle1) as [_ Hfin].
  destruct (float_of_int_exact n Hn53) as (mn & en & En & _ & Hge).
  destruct (quotient_near c' d' Hc' ltac:(lia)) as (m & e & Eq & _ & Hlo).
  unfold times in *. rewrite En, Eq in *. simpl SFmul in *.
  pose proof (Z.div_mod (n * c) d ltac:(lia)) as Hdm.
  pose proof (Z.mod_pos_bound (n * c) d ltac:(lia)) as Hmod.
  set (k := n * c / d) in *.
  assert (Hkd : k * d' <= n * c').
  { assert (k * d <= n * c) by lia.
    assert (k * d * d' <= n * c' * d) by nia.
    nia. }
  destruct (Z_le_gt_dec (k - 1) 0) as [Hsmall|Hbig].
  { destruct Hfin as [->|(m' & e' & -> & _)]; [simpl; lia|].
    assert (0 <= floor (S754_finite false m' e')); [|lia].
    unfold floor, cond_Zopp. destruct e' as [|j|j].
    - simpl. lia.
    - rewrite Z.shiftl_mul_pow2 by lia.
      assert (0 < 2 ^ Zpos j) by (apply Z.pow_pos_nonneg; lia). nia.
    - rewrite Z.shiftr_div_pow2 by lia.
      apply Z.div_pos; [lia|apply Z.pow_pos_nonneg; lia]. }
  assert (HB : 1 <= k - 1 < 2 ^ 53).
  { split; [lia|]. change (2 ^ 53) with 9007199254740992.
    change (2 ^ 25) with 33554432 in *. nia. }
  assert (Hprod : dy_ge (Zpos (mn * m)) (en + e) (k - 1)).
  { apply dy_ge_dyle. rewrite Pos2Z.inj_mul.
    apply (dyle_cancel d'); [lia|].
    apply dy_ge_dyle in Hge.
    pose proof (dyle_mul n 0 (Zpos mn) en (2 ^ 27 * c' - 1) (-27) (d' * Zpos m) e
                  ltac:(lia) ltac:(change (2 ^ 27) with 134217728; lia)
                  ltac:(lia) Hge Hlo) as H1.
    rewrite Z.add_0_l in H1.
    replace (Zpos mn * (d' * Zpos m)) with (d' * (Zpos mn * Zpos m)) in H1 by ring.
    eapply dyle_trans; [|exact H1].
    unfold dyle. change (Z.max 0 (0 - -27)) with 27.
    change (Z.max 0 (-27 - 0)) with 0. change (2 ^ 0) with 1.
    change (2 ^ 27) with 134217728. change (2 ^ 25) with 33554432 in *.
    nia. }
  pose proof (binary_round_aux_ge false (Zpos (mn * m)) (en + e) (k - 1) loc_Exact
                ltac:(lia) HB Hprod) as Hres.
  destruct Hfin as [E|(m' & e' & E & _)]; rewrite E in *; [contradiction|].
  destruct Hres as [_ Hres]. apply floor_above. exact Hres.
Qed.

End Binary64Exact.

(** ** Beyond the claims: the position queries *)

Lemma getitem_in_range {A} (l : list A) (i : Z) :
  0 <= i < len l ->
  exists x, nth_error l (Z.to_nat i) = Some x /\ getitem l i = Ok x.
Proof.
  intros [H0 Hlt]. unfold getitem.
  destruct (Z.ltb_spec i 0) as [|_]; [lia|].
  destruct (Z.ltb_spec i 0) as [|_]; [lia|].
  destruct (Z.leb_spec (len l) i) as [|_]; [lia|]. simpl.
  destruct (nth_error l (Z.to_nat i)) as [x|] eqn:E.
  - exists x. split; reflexivity.
  - apply nth_error_None in E. unfold len in Hlt. lia.
Qed.

(** X1: in every state the handler can reach, [get_current_image_info]
    does not raise; it answers [("", 0, 0)] when nothing is loaded and
    otherwise the base name of the path under the cursor, the number of
    loaded images and a position between 1 and that number. *)
Theorem current_info_reachable (basename : string -> string) (self : ImageHandler)
    (Hreach : reachable self) :
  (images self = [] /\
   get_current_image_info basename self = Ok (EmptyString, 0, 0)) \/
  (exists p,
     nth_error (images self) (Z.to_nat (current_index self)) = Some p /\
     get_current_image_info basename self =
       Ok (basename p, len (images self), current_index self + 1) /\
     1 <= current_index self + 1 <= len (images self)).
Proof.
  destruct (cursor_inv_reachable self Hreach) as (H0 & _ & Hn).
  unfold get_current_image_info.
  destruct (images self) as [|q l] eqn:E; [left; split; reflexivity|right].
  assert (Hr : 0 <= current_index self < len (q :: l)) by (split; [exact H0|apply Hn; discriminate]).
  destruct (getitem_in_range (q :: l) (current_index self) Hr) as (p & Hp & Hg).
  exists p. split; [exact Hp|]. simpl nonempty. simpl negb. cbv iota.
  rewrite Hg. split; [reflexivity|lia].
Qed.

(** X2: [get_current_image_path] guards the end of the list and
    [get_current_image_info] does not: with images loaded and the cursor
    at or beyond [len(images)], the first answers [None] and the second
    raises [IndexError]. *)
Theorem cursor_past_end (basename : string -> string) (self : ImageHandler)
    (Hne : images self <> [])
    (Hpast : len (images self) <= current_index self) :
  get_current_image_path self = Ok None /\
  get_current_image_info basename self = Raise IndexError.
Proof.
  unfold get_current_image_path, get_current_image_info, getitem.
  assert (Hlen : 0 <= len (images self)) by (unfold len; lia).
  destruct (images self) as [|q l] eqn:E; [contradiction|].
  simpl nonempty. simpl negb.
  destruct (Z.leb_spec (len (q :: l)) (current_index self)) as [_|]; [|lia].
  split; [reflexivity|].
  destruct (Z.ltb_spec (current_index self) 0) as [|_]; [lia|].
  cbv iota.
  destruct (Z.ltb_spec (current_index self) 0) as [|_]; [lia|].
  destruct (Z.leb_spec (len (q :: l)) (current_index self)) as [_|]; [|lia].
  reflexivity.
Qed.

(** X3: in every reachable state [get_current_image_path] does not raise;
    it is [None] exactly when nothing is loaded and otherwise the path
    under the cursor, an element of [images]. *)
Theorem current_path_reachable (self : ImageHandler) (Hreach : reachable self) :
  get_current_image_path self =
    Ok (nth_error (images self) (Z.to_nat (current_index self))) /\
  (get_current_image_path self = Ok None <-> images self = []) /\
  (forall p, get_current_image_path self = Ok (Some p) -> In p (images self)).
Proof.
  destruct (cursor_inv_reachable self Hreach) as (H0 & He & Hn).
  unfold get_current_image_path.
  destruct (images self) as [|q l] eqn:E.
  - simpl. rewrite (He eq_refl). simpl. repeat split; intros; try discriminate; auto.
  - assert (Hr : 0 <= current_index self < len (q :: l))
      by (split; [exact H0|apply Hn; discriminate]).
    destruct (getitem_in_range (q :: l) (current_index self) Hr) as (p & Hp & Hg).
    simpl nonempty. simpl negb.
    destruct (Z.leb_spec (len (q :: l)) (current_index self)) as [|_]; [lia|].
    simpl orb. cbv iota. rewrite Hg, Hp. repeat split; intros; try discriminate.
    injection H as <-. eapply nth_error_In. exact Hp.
Qed.

(** ** Beyond the claims: validation *)

Lemma is_valid_image_eq (w : World) (p : string) (self : ImageHandler) :
  is_valid_image w p self = (Ok (valid_image w p), self, validation_trace w p).
Proof.
  unfold valid_image, validation_trace. unfold_m. simpl.
  destruct (path_exists w p); simpl; [|reflexivity].
  destruct (image_open w p) as [img|]; simpl; [|reflexivity].
  destruct (file_verify img); reflexivity.
Qed.

(** X4: [is_valid_image] never raises and never writes the handler; it
    answers [True] exactly for a path that exists, opens and verifies, and
    it does not even try to open a path that does not exist. *)
Theorem is_valid_image_fails_closed (w : World) (p : string) (self : ImageHandler) :
  is_valid_image w p self = (Ok (valid_image w p), self, validation_trace w p) /\
  (valid_image w p = true <->
   path_exists w p = true /\
   exists img, image_open w p = Some img /\ file_verify img = true) /\
  (path_exists w p = false ->
   trace_of (is_valid_image w p self) = [EvExists p]).
Proof.
  pose proof (is_valid_image_eq w p self) as E.
  split; [exact E|]. split.
  - unfold valid_image. rewrite andb_true_iff. split.
    + intros [Hex Hv]. split; [exact Hex|].
      destruct (image_open w p) as [img|]; [|discriminate].
      exists img. split; [reflexivity|exact Hv].
    + intros [Hex (img & Ho & Hv)]. rewrite Ho. split; assumption.
  - intros Hmiss. rewrite E. unfold trace_of, validation_trace. simpl.
    rewrite Hmiss. reflexivity.
Qed.

Lemma collect_valid_trace (w : World) (ps acc : list string) (self : ImageHandler) :
  collect_valid w ps acc self =
  (Ok (acc ++ filter (valid_image w) ps), self, flat_map (validation_trace w) ps).
Proof.
  revert acc. induction ps as [|p ps IH]; intros acc; simpl.
  - rewrite app_nil_r. reflexivity.
  - unfold bind.
    rewrite is_valid_image_eq.
    destruct (valid_image w p).
    + rewrite IH, <- app_assoc. reflexivity.
    + rewrite IH. reflexivity.
Qed.

Lemma validation_trace_no_decoding (w : World) (p : string) :
  forallb (fun e => negb (decoding e)) (validation_trace w p) = true.
Proof.
  unfold validation_trace. destruct (path_exists w p); [|reflexivity].
  destruct (image_open w p); reflexivity.
Qed.

(** X5: [load_images] checks every candidate once, in the order given,
    also after a valid one was found, and that is all it does outside the
    handler: no pixel data is decoded and no bitmap is built. *)
Theorem load_images_trace (w : World) (ps : list string) (self : ImageHandler) :
  trace_of (load_images w ps self) = flat_map (validation_trace w) ps /\
  forallb (fun e => negb (decoding e)) (trace_of (load_images w ps self)) = true.
Proof.
  assert (E : trace_of (load_images w ps self) = flat_map (validation_trace w) ps).
  { unfold load_images, bind at 1. rewrite collect_valid_trace. simpl.
    destruct (filter (valid_image w) ps); unfold_m; simpl;
      rewrite ?app_nil_r; reflexivity. }
  split; [exact E|]. rewrite E. clear E.
  induction ps as [|p ps IH]; [reflexivity|].
  simpl. rewrite forallb_app, validation_trace_no_decoding, IH. reflexivity.
Qed.

(** What a call does to [images]. *)
Lemma exec_images (c : call) (self : ImageHandler) :
  images (exec c self) =
  match c with
  | Load w ps =>
      if nonempty (filter (valid_image w) ps) then filter (valid_image w) ps
      else images self
  | _ => images self
  end.
Proof.
  destruct c as [w ps| | |w tw th]; simpl.
  - destruct (load_images_run w ps self) as [t ->]. unfold state_of. simpl.
    destruct (nonempty (filter (valid_image w) ps)); reflexivity.
  - rewrite next_image_run.
    destruct (nonempty (images self) && (current_index self <? len (images self) - 1));
      reflexivity.
  - rewrite previous_image_run.
    destruct (nonempty (images self) && (current_index self >? 0)); reflexivity.
  - apply load_current_image_cursor.
Qed.

Lemma exec_all_reachable (cs : list call) (self : ImageHandler) :
  reachable self -> reachable (exec_all cs self).
Proof.
  revert self. induction cs as [|c cs IH]; intros self Hr; simpl; [exact Hr|].
  apply IH, reach_call, Hr.
Qed.

Lemma accepted_batch_images (cs : list call) (self : ImageHandler)
    (before : option (World * list string)) :
  images self =
    match before with Some (w, ps) => filter (valid_image w) ps | None => [] end ->
  images (exec_all cs self) =
    match accepted_batch cs before with
    | Some (w, ps) => filter (valid_image w) ps
    | None => []
    end.
Proof.
  revert self before. induction cs as [|c cs IH]; intros self before Hb; simpl;
    [exact Hb|].
  destruct c as [w ps| | |w tw th]; apply IH; rewrite exec_images; try exact Hb.
  destruct (nonempty (filter (valid_image w) ps)); [reflexivity|exact Hb].
Qed.

Lemma accepted_batch_origin (cs : list call) (before : option (World * list string))
    (w : World) (ps : list string) :
  accepted_batch cs before = Some (w, ps) ->
  before = Some (w, ps) \/
  (In (Load w ps) cs /\ nonempty (filter (valid_image w) ps) = true).
Proof.
  revert before. induction cs as [|c cs IH]; intros before E; simpl in E;
    [left; exact E|].
  destruct c as [w' ps'| | |w' tw th];
    try (destruct (IH _ E) as [Hb|[Hin Hne]];
         [left; exact Hb|right; split; [right; exact Hin|exact Hne]]).
  destruct (IH _ E) as [Hb|[Hin Hne]].
  - destruct (nonempty (filter (valid_image w') ps')) eqn:Hne'.
    + injection Hb as -> ->. right. split; [left; reflexivity|exact Hne'].
    + left. exact Hb.
  - right. split; [right; exact Hin|exact Hne].
Qed.

(** X6: whatever is loaded was checked by the call that loaded it.  After
    any sequence of calls from [__init__], [images] is empty when no
    [load_images] of the sequence found a valid image; otherwise it is
    exactly what the last such [load_images] kept: the candidates of that
    batch, in order, that passed [is_valid_image] in the world of that
    call.  Later calls, batches without a valid image included, do not
    change it. *)
Theorem images_were_validated (cs : list call) :
  let self := exec_all cs init in
  reachable self /\
  match accepted_batch cs None with
  | None => images self = []
  | Some (w, ps) =>
      In (Load w ps) cs /\
      images self = filter (valid_image w) ps /\
      images self <> [] /\
      Forall (fun p => In p ps /\ valid_image w p = true) (images self)
  end.
Proof.
  cbv zeta. split; [apply exec_all_reachable, reach_init|].
  pose proof (accepted_batch_images cs init None eq_refl) as Himg.
  destruct (accepted_batch cs None) as [[w ps]|] eqn:E; [|exact Himg].
  destruct (accepted_batch_origin cs None w ps E) as [Hb|[Hin Hne]];
    [discriminate|].
  split; [exact Hin|]. split; [exact Himg|]. rewrite Himg. split.
  - intros E0. rewrite E0 in Hne. discriminate.
  - apply Forall_forall. intros x Hx. apply filter_In in Hx. exact Hx.
Qed.

(** ** Beyond the claims: what a rendering leaves behind *)

Lemma load_current_image_decoded (w : World) (tw th : Z) (self : ImageHandler)
    (photo : PhotoImage)
    (Hok : result_of (load_current_image w tw th self) = Ok (Some photo)) :
  let self' := state_of (load_current_image w tw th self) in
  current_image self' = Some photo /\
  exists p img,
    getitem (images self) (current_index self) = Ok p /\
    decode w p = Some img /\
    original_image self' = Some img.
Proof.
  cbv zeta. revert Hok. rewrite load_current_image_eq.
  destruct (negb (nonempty (images self)) || (len (images self) <=? current_index self));
    [discriminate|].
  destruct (getitem (images self) (current_index self)) as [p|e]; [|discriminate].
  destruct (image_open w p) as [img|] eqn:Eo; [|discriminate].
  destruct (file_load img) as [px|] eqn:El; [|discriminate].
  cbv zeta. set (s1 := mkImageHandler _ _ _ _).
  pose proof (fit_state w img tw th s1) as Hs.
  destruct (fit w img tw th s1) as [[[r|e] s2] t]; [|discriminate].
  unfold state_of in Hs. simpl in Hs. subst s2.
  destruct (photo_ok w r); [|discriminate].
  unfold result_of, state_of. simpl. intros [= <-].
  split; [reflexivity|].
  exists p, (mkImage (file_size img) px).
  unfold decode. rewrite Eo, El. auto.
Qed.

(** X7: when [load_current_image] returns a bitmap, that bitmap is the
    handler's [current_image], the recorded original is the decoded image
    of the path under the cursor (so [get_original_size] is its size), and
    [images] and [current_index] are as before. *)
Theorem render_success_records (w : World) (tw th : Z) (self : ImageHandler)
    (photo : PhotoImage)
    (Hok : result_of (load_current_image w tw th self) = Ok (Some photo)) :
  let self' := state_of (load_current_image w tw th self) in
  current_image self' = Some photo /\
  (exists p img,
     getitem (images self) (current_index self) = Ok p /\
     decode w p = Some img /\
     original_image self' = Some img /\
     get_original_size self' = Some (size img)) /\
  images self' = images self /\
  current_index self' = current_index self.
Proof.
  cbv zeta.
  destruct (load_current_image_cursor w tw th self) as [Hi Hc].
  destruct (load_current_image_decoded w tw th self photo Hok)
    as (Hcur & p & img & Hp & Hd & Ho).
  split; [exact Hcur|]. split; [|split; assumption].
  exists p, img. unfold get_original_size. rewrite Ho.
  repeat split; assumption.
Qed.

(** Every exception of [load_current_image] is caught. *)
Lemma load_current_image_returns (w : World) (tw th : Z) (self : ImageHandler) :
  exists r, result_of (load_current_image w tw th self) = Ok r.
Proof.
  rewrite load_current_image_eq.
  destruct (negb (nonempty (images self)) || (len (images self) <=? current_index self));
    [eexists; reflexivity|].
  destruct (getitem (images self) (current_index self)) as [p|e];
    [|eexists; reflexivity].
  destruct (image_open w p) as [img|]; [|eexists; reflexivity].
  destruct (file_load img) as [px|]; [|eexists; reflexivity].
  cbv zeta. set (s1 := mkImageHandler _ _ _ _).
  destruct (fit w img tw th s1) as [[[r|e] s2] t].
  - destruct (photo_ok w r); eexists; reflexivity.
  - eexists; reflexivity.
Qed.

(** X8: [load_current_image] never raises: whatever goes wrong inside is
    caught and answered by [None], and then the bitmap on display
    ([current_image]) is the one of before the call. *)
Theorem render_failure_keeps_bitmap (w : World) (tw th : Z) (self : ImageHandler) :
  let run := load_current_image w tw th self in
  (exists r, result_of run = Ok r) /\
  (result_of run = Ok None -> current_image (state_of run) = current_image self).
Proof.
  cbv zeta. rewrite load_current_image_eq.
  destruct (negb (nonempty (images self)) || (len (images self) <=? current_index self));
    [split; [eexists|]; reflexivity|].
  destruct (getitem (images self) (current_index self)) as [p|e];
    [|split; [eexists|]; reflexivity].
  destruct (image_open w p) as [img|]; [|split; [eexists|]; reflexivity].
  destruct (file_load img) as [px|]; [|split; [eexists|]; reflexivity].
  cbv zeta. set (s1 := mkImageHandler _ _ _ _).
  pose proof (fit_state w img tw th s1) as Hs.
  destruct (fit w img tw th s1) as [[[r|e] s2] t];
    unfold state_of in Hs; simpl in Hs; subst s2.
  - destruct (photo_ok w r); unfold result_of, state_of; simpl.
    + split; [eexists; reflexivity|discriminate].
    + split; [eexists|]; reflexivity.
  - unfold result_of, state_of; simpl. split; [eexists|]; reflexivity.
Qed.

(** ** Beyond the claims: walking through the images *)

(** X9: with the cursor inside [images], a successful [next_image] is
    undone by [previous_image] and a successful [previous_image] by
    [next_image]: the handler is back in the state it started from. *)
Theorem next_previous_round_trip (self : ImageHandler)
    (Hin : 0 <= current_index self < len (images self)) :
  (result_of (next_image self) = Ok true ->
   previous_image (state_of (next_image self)) = (Ok true, self, [])) /\
  (result_of (previous_image self) = Ok true ->
   next_image (state_of (previous_image self)) = (Ok true, self, [])).
Proof.
  destruct self as [imgs idx cur orig]. simpl in Hin.
  assert (Hne : nonempty imgs = true) by (apply nonempty_len; lia).
  split.
  - rewrite next_image_run. simpl. rewrite Hne. simpl.
    destruct (Z.ltb_spec idx (len imgs - 1)); [|discriminate]. intros _.
    unfold state_of. simpl. rewrite previous_image_run. simpl. rewrite Hne. simpl.
    destruct (Z.gtb_spec (idx + 1) 0); [|lia].
    replace (idx + 1 - 1) with idx by lia. reflexivity.
  - rewrite previous_image_run. simpl. rewrite Hne. simpl.
    destruct (Z.gtb_spec idx 0); [|discriminate]. intros _.
    unfold state_of. simpl. rewrite next_image_run. simpl. rewrite Hne. simpl.
    destruct (Z.ltb_spec (idx - 1) (len imgs - 1)); [|lia].
    replace (idx - 1 + 1) with idx by lia. reflexivity.
Qed.

(** X10: [k] calls of [next_image] move the cursor [k] positions forward
    and stop at the last image: from a cursor inside [images] they end at
    [min(current_index + k, len(images) - 1)], with the same images. *)
Theorem advance_times_stops_at_last (k : nat) (self : ImageHandler)
    (Hin : 0 <= current_index self < len (images self)) :
  current_index (advance_times k self) =
    Z.min (current_index self + Z.of_nat k) (len (images self) - 1) /\
  images (advance_times k self) = images self.
Proof.
  revert self Hin. induction k as [|k IH]; intros self Hin.
  - simpl. split; [lia|reflexivity].
  - simpl advance_times. simpl exec. rewrite next_image_run.
    assert (Hne : nonempty (images self) = true) by (apply nonempty_len; lia).
    rewrite Hne. simpl andb.
    destruct (Z.ltb_spec (current_index self) (len (images self) - 1)) as [Hlt|Hge];
      unfold state_of; simpl fst; simpl snd.
    + destruct (IH (mkImageHandler (images self) (current_index self + 1)
                      (current_image self) (original_image self))) as [Hi Him].
      { simpl. lia. }
      simpl in Hi, Him. rewrite Hi, Him. split; [lia|reflexivity].
    + destruct (IH self Hin) as [Hi Him]. rewrite Hi, Him.
      split; [lia|reflexivity].
Qed.

(** ** Beyond the claims: queries *)

Lemma has_images_nonempty (self : ImageHandler) :
  has_images self = nonempty (images self).
Proof.
  unfold has_images, len. destruct (images self); simpl; [reflexivity|].
  apply Z.gtb_lt. lia.
Qed.

(** ** Beyond the claims: when the image already fits *)

Lemma fit_keeps (w : World) (img : ImageFile) (px : list Z) (W H tw th : Z)
    (self : ImageHandler) :
  file_size img = (W, H) -> file_load img = Some px ->
  0 < W -> W <= tw < 2 ^ 1023 -> 0 < H -> H <= th < 2 ^ 1023 ->
  fit w img tw th self = (Ok (mkImage (W, H) px), self, [EvCopy]).
Proof.
  intros Hsize Hload HW Htw HH Hth.
  destruct (Binary64.quotient_nonneg tw W ltac:(lia) HW) as [Ea _].
  destruct (Binary64.quotient_nonneg th H ltac:(lia) HH) as [Eb _].
  pose proof (Binary64Lower.quotient_ge_one tw W HW Htw) as Ha.
  pose proof (Binary64Lower.quotient_ge_one th H HH Hth) as Hb.
  unfold fit. rewrite Hsize. unfold bind at 1, lift. rewrite Ea.
  unfold bind at 1. rewrite Eb. cbv zeta.
  assert (Hr : lt_one (Py.min (quotient tw W) (quotient th H)) = false).
  { unfold Py.min. destruct (SFltb _ _); assumption. }
  rewrite Hr. unfold img_copy, bind, emit, lift. rewrite Hload, Hsize. reflexivity.
Qed.

(** X12: an image that already fits the target, [W <= w] and [H <= h],
    is shown at its original size: [ratio >= 1], the codec is never asked
    to resample, and the bitmap is a copy of the decoded image. *)
Theorem render_fitting_image (w : World) (tw th : Z) (self : ImageHandler)
    (p : string) (img : ImageFile) (px : list Z) (W H : Z)
    (Hpath : getitem (images self) (current_index self) = Ok p)
    (Hopen : image_open w p = Some img)
    (Hload : file_load img = Some px)
    (Hsize : file_size img = (W, H))
    (HW : 0 < W) (HH : 0 < H)
    (Htw : W <= tw < 2 ^ 1023) (Hth : H <= th < 2 ^ 1023)
    (Hphoto : photo_ok w (mkImage (W, H) px) = true) :
  lt_one (ratio_of W H tw th) = false /\
  load_current_image w tw th self =
    (Ok (Some (mkPhotoImage (mkImage (W, H) px))),
     mkImageHandler (images self) (current_index self)
       (Some (mkPhotoImage (mkImage (W, H) px))) (Some (mkImage (W, H) px)),
     [EvOpen p; EvCopy; EvCopy; EvPhotoImage]).
Proof.
  split.
  - unfold ratio_of, Py.min.
    destruct (SFltb _ _); apply Binary64Lower.quotient_ge_one; assumption.
  - rewrite load_current_image_eq.
    rewrite (getitem_guard self p Hpath), Hpath, Hopen, Hload. cbv zeta.
    rewrite (fit_keeps w img px W H tw th _ Hsize Hload HW Htw HH Hth).
    rewrite Hsize, Hphoto. reflexivity.
Qed.

(** ** Beyond the claims: when the image is too large *)

Lemma ratio_lt_one (W H tw th : Z) :
  0 < W <= 2 ^ 53 -> 0 < H <= 2 ^ 53 ->
  0 <= tw < 2 ^ 1023 -> 0 <= th < 2 ^ 1023 ->
  tw < W \/ th < H ->
  lt_one (ratio_of W H tw th) = true.
Proof.
  intros HW HH Htw Hth Hbig. unfold ratio_of.
  destruct (Binary64.quotient_nonneg tw W Htw ltac:(lia)) as [_ Hna].
  destruct (Binary64.quotient_nonneg th H Hth ltac:(lia)) as [_ Hnb].
  apply Binary64Fit.min_lt_one; try assumption.
  destruct Hbig as [Hlt|Hlt]; [left|right];
    apply Binary64Upper.quotient_lt_one; lia.
Qed.

(** The scaling of lines 107-115 whatever the codec answers. *)
Lemma fit_eq (w : World) (img : ImageFile) (px : list Z) (W H tw th : Z)
    (self : ImageHandler) :
  file_size img = (W, H) -> file_load img = Some px ->
  0 < W < 2 ^ 53 -> 0 < H < 2 ^ 53 ->
  0 <= tw < 2 ^ 1023 -> 0 <= th < 2 ^ 1023 ->
  fit w img tw th self =
    (if lt_one (ratio_of W H tw th) then
       match resample w (mkImage (W, H) px) (fitted_size W H tw th) with
       | Some px' =>
           (Ok (mkImage (fitted_size W H tw th) px'), self,
            [EvResize (fitted_size W H tw th)])
       | None => (Raise CodecError, self, [EvResize (fitted_size W H tw th)])
       end
     else (Ok (mkImage (W, H) px), self, [EvCopy])) /\
  0 <= fst (fitted_size W H tw th) <= W /\
  0 <= snd (fitted_size W H tw th) <= H.
Proof.
  intros Hsize Hload HW HH Htw Hth.
  destruct (Binary64.quotient_nonneg tw W Htw ltac:(lia)) as [Ea Hna].
  destruct (Binary64.quotient_nonneg th H Hth ltac:(lia)) as [Eb Hnb].
  pose proof (Binary64.min_nonneg _ _ Hna Hnb) as Hnr.
  unfold fit. rewrite Hsize. unfold bind at 1, lift. rewrite Ea.
  unfold bind at 1. rewrite Eb. cbv zeta.
  unfold fitted_size in *. fold (ratio_of W H tw th) in *.
  set (ratio := ratio_of W H tw th) in *.
  destruct (lt_one ratio) eqn:Hlt.
  - pose proof (Binary64.lt_one_le ratio Hnr Hlt) as Hle.
    destruct (Binary64.times_le W ratio HW Hle) as [EW HWle].
    destruct (Binary64.times_le H ratio HH Hle) as [EH HHle].
    destruct (Binary64.floor_le _ W ltac:(lia) HWle) as [EfW HfW].
    destruct (Binary64.floor_le _ H ltac:(lia) HHle) as [EfH HfH].
    split; [|simpl; lia].
    unfold bind at 1. rewrite EW. unfold bind at 1. rewrite EfW.
    unfold bind at 1. rewrite EH. unfold bind at 1. rewrite EfH.
    unfold img_resize, bind, emit, lift. rewrite Hload, Hsize.
    destruct (resample w (mkImage (W, H) px) _) as [px'|]; reflexivity.
  - split; [|simpl; lia].
    unfold img_copy, bind, emit, lift. rewrite Hload, Hsize. reflexivity.
Qed.

(** X13: an image larger than the target in width or in height
    ([w < W] or [h < H]) is always handed to the codec for resizing:
    [ratio < 1] in binary64 arithmetic and the codec is asked exactly once,
    for the size [(floor(W * ratio), floor(H * ratio))], whatever it
    answers.  When it returns the resized image and Tk builds the bitmap,
    the bitmap returned has that size; when it refuses the size, or Tk
    fails, the error is printed and [None] is returned.  With X12: the
    image is resized exactly when it does not fit. *)
Theorem render_too_large_is_resized (w : World) (tw th : Z) (self : ImageHandler)
    (p : string) (img : ImageFile) (px : list Z) (W H : Z)
    (Hpath : getitem (images self) (current_index self) = Ok p)
    (Hopen : image_open w p = Some img)
    (Hload : file_load img = Some px)
    (Hsize : file_size img = (W, H))
    (HW : 0 < W < 2 ^ 53) (HH : 0 < H < 2 ^ 53)
    (Htw : 0 <= tw < 2 ^ 1023) (Hth : 0 <= th < 2 ^ 1023)
    (Hbig : tw < W \/ th < H) :
  let sz := (floor (times W (ratio_of W H tw th)),
             floor (times H (ratio_of W H tw th))) in
  let run := load_current_image w tw th self in
  lt_one (ratio_of W H tw th) = true /\
  match resample w (mkImage (W, H) px) sz with
  | Some px' =>
      if photo_ok w (mkImage sz px') then
        result_of run = Ok (Some (mkPhotoImage (mkImage sz px'))) /\
        trace_of run = [EvOpen p; EvCopy; EvResize sz; EvPhotoImage]
      else
        result_of run = Ok None /\
        trace_of run =
          [EvOpen p; EvCopy; EvResize sz; EvPhotoImage; EvPrint CodecError]
  | None =>
      result_of run = Ok None /\
      trace_of run = [EvOpen p; EvCopy; EvResize sz; EvPrint CodecError]
  end.
Proof.
  cbv zeta.
  pose proof (ratio_lt_one W H tw th ltac:(lia) ltac:(lia) Htw Hth Hbig) as Hlt.
  split; [exact Hlt|].
  rewrite load_current_image_eq.
  rewrite (getitem_guard self p Hpath), Hpath, Hopen, Hload. cbv zeta.
  destruct (fit_eq w img px W H tw th
              (mkImageHandler (images self) (current_index self)
                 (current_image self) (Some (mkImage (file_size img) px)))
              Hsize Hload HW HH Htw Hth) as [-> _].
  unfold fitted_size. rewrite Hlt.
  destruct (resample w (mkImage (W, H) px) _) as [px'|].
  - destruct (photo_ok w _); split; reflexivity.
  - split; reflexivity.
Qed.

(** X14: the bitmap fits the target.  For an image of size [(W, H)] and a
    target [(w, h)] below [2^51], the bitmap [load_current_image] returns
    is at most [w] wide and [h] high, whether it was resized or not, and
    it has the original size exactly when the image already fits. *)
Theorem render_fits_target (w : World) (tw th : Z) (self : ImageHandler)
    (p : string) (img : ImageFile) (px : list Z) (W H : Z)
    (Hpath : getitem (images self) (current_index self) = Ok p)
    (Hopen : image_open w p = Some img)
    (Hload : file_load img = Some px)
    (Hsize : file_size img = (W, H))
    (HW : 0 < W < 2 ^ 53) (HH : 0 < H < 2 ^ 53)
    (Htw : 0 <= tw < 2 ^ 51) (Hth : 0 <= th < 2 ^ 51)
    (Hresize : lt_one (ratio_of W H tw th) = true ->
               resample w (mkImage (W, H) px) (fitted_size W H tw th) <> None)
    (Hphoto : forall r, photo_ok w r = true) :
  exists photo,
    result_of (load_current_image w tw th self) = Ok (Some photo) /\
    0 <= fst (photo_size photo) <= tw /\
    0 <= snd (photo_size photo) <= th /\
    (photo_size photo = (W, H) <-> W <= tw /\ H <= th).
Proof.
  assert (Htw' : 0 <= tw < 2 ^ 1023).
  { assert (2 ^ 51 <= 2 ^ 1023) by (apply Z.pow_le_mono_r; lia). lia. }
  assert (Hth' : 0 <= th < 2 ^ 1023).
  { assert (2 ^ 51 <= 2 ^ 1023) by (apply Z.pow_le_mono_r; lia). lia. }
  rewrite load_current_image_eq.
  rewrite (getitem_guard self p Hpath), Hpath, Hopen, Hload. cbv zeta.
  set (s1 := mkImageHandler _ _ _ _).
  destruct (fit_run w img px W H tw th s1 Hsize Hload HW HH Htw' Hth' Hresize)
    as ((r & t & Efit & Hr) & _ & _).
  rewrite Efit, Hphoto. exists (mkPhotoImage r).
  unfold result_of, photo_size. simpl. rewrite Hr. clear Efit Hr.
  split; [reflexivity|].
  unfold fitted_size.
  destruct (Z_le_gt_dec W tw) as [HfW|HfW]; [destruct (Z_le_gt_dec H th) as [HfH|HfH]|].
  - (* the image fits *)
    assert (Hge : lt_one (ratio_of W H tw th) = false).
    { unfold ratio_of, Py.min.
      destruct (SFltb _ _); apply Binary64Lower.quotient_ge_one; lia. }
    rewrite Hge. simpl. split; [lia|]. split; [lia|]. split; [intros _; lia|reflexivity].
  - (* too high *)
    destruct (Binary64.quotient_nonneg tw W Htw' ltac:(lia)) as [_ Hna].
    destruct (Binary64.quotient_nonneg th H Hth' ltac:(lia)) as [_ Hnb].
    pose proof (Binary64Fit.quotient_canonical tw W Htw' ltac:(lia)) as Hca.
    pose proof (Binary64Fit.quotient_canonical th H Hth' ltac:(lia)) as Hcb.
    destruct (Binary64Fit.min_float_le _ _ Hca Hcb) as [Hla Hlb].
    fold (ratio_of W H tw th) in Hla, Hlb.
    assert (Hbig : tw < W \/ th < H) by (right; lia).
    rewrite (ratio_lt_one W H tw th ltac:(lia) ltac:(lia) Htw' Hth' Hbig).
    pose proof (Binary64Fit.times_fits tw W _ Htw HW Hla) as HfitW.
    pose proof (Binary64Fit.times_fits th H _ Hth HH Hlb) as HfitH.
    simpl. split; [lia|]. split; [lia|]. split.
    + intros E. injection E as E1 E2. lia.
    + intros [? ?]. lia.
  - (* too wide *)
    destruct (Binary64.quotient_nonneg tw W Htw' ltac:(lia)) as [_ Hna].
    destruct (Binary64.quotient_nonneg th H Hth' ltac:(lia)) as [_ Hnb].
    pose proof (Binary64Fit.quotient_canonical tw W Htw' ltac:(lia)) as Hca.
    pose proof (Binary64Fit.quotient_canonical th H Hth' ltac:(lia)) as Hcb.
    destruct (Binary64Fit.min_float_le _ _ Hca Hcb) as [Hla Hlb].
    fold (ratio_of W H tw th) in Hla, Hlb.
    assert (Hbig : tw < W \/ th < H) by (left; lia).
    rewrite (ratio_lt_one W H tw th ltac:(lia) ltac:(lia) Htw' Hth' Hbig).
    pose proof (Binary64Fit.times_fits tw W _ Htw HW Hla) as HfitW.
    pose proof (Binary64Fit.times_fits th H _ Hth HH Hlb) as HfitH.
    simpl. split; [lia|]. split; [lia|]. split.
    + intros E. injection E as E1 E2. lia.
    + intros [? ?]. lia.
Qed.

(** ** The size of what is rendered *)

(** For targets below [2^51] the size asked for is inside the target. *)
Lemma fitted_size_fits (W H tw th : Z) :
  0 < W < 2 ^ 53 -> 0 < H < 2 ^ 53 ->
  0 <= tw < 2 ^ 51 -> 0 <= th < 2 ^ 51 ->
  tw < W \/ th < H ->
  0 <= fst (fitted_size W H tw th) <= tw /\
  0 <= snd (fitted_size W H tw th) <= th.
Proof.
  intros HW HH Htw Hth Hbig.
  assert (Htw' : 0 <= tw < 2 ^ 1023).
  { assert (2 ^ 51 <= 2 ^ 1023) by (apply Z.pow_le_mono_r; lia). lia. }
  assert (Hth' : 0 <= th < 2 ^ 1023).
  { assert (2 ^ 51 <= 2 ^ 1023) by (apply Z.pow_le_mono_r; lia). lia. }
  pose proof (Binary64Fit.quotient_canonical tw W Htw' ltac:(lia)) as Hca.
  pose proof (Binary64Fit.quotient_canonical th H Hth' ltac:(lia)) as Hcb.
  destruct (Binary64Fit.min_float_le _ _ Hca Hcb) as [Hla Hlb].
  fold (ratio_of W H tw th) in Hla, Hlb.
  unfold fitted_size.
  rewrite (ratio_lt_one W H tw th ltac:(lia) ltac:(lia) Htw' Hth' Hbig).
  pose proof (Binary64Fit.times_fits tw W _ Htw HW Hla) as HfitW.
  pose proof (Binary64Fit.times_fits th H _ Hth HH Hlb) as HfitH.
  simpl. split; assumption.
Qed.

(** The size in exact arithmetic, without rational numbers: [c / d] is
    the smaller of [w / W] and [h / H]. *)
Lemma Qmin_cases (a c : Z) (b d : positive) :
  Qminmax.Qmin (QArith_base.Qmake a b) (QArith_base.Qmake c d) =
  if a * Zpos d <=? c * Zpos b then QArith_base.Qmake a b else QArith_base.Qmake c d.
Proof.
  unfold Qminmax.Qmin, GenericMinMax.gmin, QArith_base.Qcompare.
  cbn [QArith_base.Qnum QArith_base.Qden].
  destruct (Z.compare_spec (a * Zpos d) (c * Zpos b));
    destruct (Z.leb_spec (a * Zpos d) (c * Zpos b)); try reflexivity; lia.
Qed.

Lemma Qdiv_int (a : Z) (b : positive) :
  QArith_base.Qdiv (QArith_base.inject_Z a) (QArith_base.inject_Z (Zpos b)) =
  QArith_base.Qmake a b.
Proof.
  unfold QArith_base.Qdiv, QArith_base.Qinv, QArith_base.inject_Z, QArith_base.Qmult.
  cbn [QArith_base.Qnum QArith_base.Qden].
  rewrite Z.mul_1_r, Pos.mul_1_l. reflexivity.
Qed.

Lemma Qfloor_times (n a : Z) (b : positive) :
  Qround.Qfloor (QArith_base.Qmult (QArith_base.inject_Z n) (QArith_base.Qmake a b)) =
  n * a / Zpos b.
Proof.
  unfold Qround.Qfloor, QArith_base.Qmult, QArith_base.inject_Z.
  cbn [QArith_base.Qnum QArith_base.Qden]. rewrite Pos.mul_1_l. reflexivity.
Qed.

Lemma Qle_bool_one (a : Z) (b : positive) :
  QArith_base.Qle_bool (QArith_base.inject_Z 1) (QArith_base.Qmake a b) =
  (Zpos b <=? a).
Proof.
  unfold QArith_base.Qle_bool, QArith_base.inject_Z.
  cbn [QArith_base.Qnum QArith_base.Qden]. rewrite Z.mul_1_r, Z.mul_1_l. reflexivity.
Qed.

Lemma spec_fitted_size_eq (W H w h : Z) :
  0 < W -> 0 < H ->
  spec_fitted_size W H w h =
    if (if w * H <=? h * W then W else H) <=? (if w * H <=? h * W then w else h)
    then (W, H)
    else (W * (if w * H <=? h * W then w else h) / (if w * H <=? h * W then W else H),
          H * (if w * H <=? h * W then w else h) / (if w * H <=? h * W then W else H)).
Proof.
  intros HW HH. destruct W as [|pW|pW]; try lia. destruct H as [|pH|pH]; try lia.
  unfold spec_fitted_size. rewrite !Qdiv_int, Qmin_cases.
  destruct (w * Zpos pH <=? h * Zpos pW);
    rewrite Qle_bool_one, !Qfloor_times; reflexivity.
Qed.

(** For sizes and targets below [2^25], each dimension computed in
    binary64 is the exact one or one less. *)
Lemma fitted_size_exact (W H tw th : Z) :
  0 < W < 2 ^ 25 -> 0 < H < 2 ^ 25 -> 0 <= tw < 2 ^ 25 -> 0 <= th < 2 ^ 25 ->
  tw < W \/ th < H ->
  fst (spec_fitted_size W H tw th) - 1 <= fst (fitted_size W H tw th)
    <= fst (spec_fitted_size W H tw th) /\
  snd (spec_fitted_size W H tw th) - 1 <= snd (fitted_size W H tw th)
    <= snd (spec_fitted_size W H tw th).
Proof.
  intros HW HH Htw Hth Hbig.
  assert (H25 : 2 ^ 25 <= 2 ^ 53) by (apply Z.pow_le_mono_r; lia).
  assert (H53 : 2 ^ 53 <= 2 ^ 1023) by (apply Z.pow_le_mono_r; lia).
  pose proof (ratio_lt_one W H tw th ltac:(lia) ltac:(lia) ltac:(lia) ltac:(lia) Hbig)
    as Hlt.
  pose proof (Binary64Fit.quotient_canonical tw W ltac:(lia) ltac:(lia)) as Hca.
  pose proof (Binary64Fit.quotient_canonical th H ltac:(lia) ltac:(lia)) as Hcb.
  destruct (Binary64Fit.min_float_le _ _ Hca Hcb) as [Hla Hlb].
  fold (ratio_of W H tw th) in Hla, Hlb.
  rewrite (spec_fitted_size_eq W H tw th ltac:(lia) ltac:(lia)).
  set (c := if tw * H <=? th * W then tw else th).
  set (d := if tw * H <=? th * W then W else H).
  assert (Hcd : 0 <= c < d /\ 0 < d < 2 ^ 25 /\ c * W <= tw * d /\ c * H <= th * d /\
                float_le (ratio_of W H tw th) (quotient c d)).
  { subst c d. destruct (Z.leb_spec (tw * H) (th * W));
      (split; [nia|]); (split; [lia|]); (split; [nia|]); (split; [nia|]); assumption. }
  destruct Hcd as (Hc & Hd & HcW & HcH & Hle).
  destruct (Z.leb_spec d c) as [|_]; [lia|].
  unfold fitted_size. rewrite Hlt. cbn [fst snd].
  assert (Hlow : forall n, 0 < n < 2 ^ 25 ->
                 n * c / d - 1 <= floor (times n (ratio_of W H tw th))).
  { intros n Hn. revert Hlt. unfold ratio_of, Py.min.
    assert (Hzero : forall b, 0 < b -> c * b <= 0 * d ->
                    n * c / d - 1 <= floor (times n (quotient 0 b))).
    { intros b Hb Hcb0. assert (Ec : c = 0) by nia.
      rewrite Ec, Z.mul_0_r, Z.div_0_l by lia.
      destruct (Binary64Exact.float_of_int_exact n ltac:(lia)) as (mn & en & En & _).
      unfold times, quotient, exact, SFdiv. rewrite En.
      destruct b; try lia. simpl. lia. }
    destruct (SFltb (quotient th H) (quotient tw W)); intros Hlt.
    - destruct (Z.eq_dec th 0) as [E0|E0].
      + rewrite E0 in *. apply Hzero; lia.
      + apply Binary64Exact.times_lower; try lia. exact Hlt.
    - destruct (Z.eq_dec tw 0) as [E0|E0].
      + rewrite E0 in *. apply Hzero; lia.
      + apply Binary64Exact.times_lower; try lia. exact Hlt. }
  pose proof (Binary64Exact.times_upper W c d _ HW Hc Hd Hle) as HuW.
  pose proof (Binary64Exact.times_upper H c d _ HH Hc Hd Hle) as HuH.
  pose proof (Hlow W HW). pose proof (Hlow H HH). lia.
Qed.



(** ** The viewer *)

Ltac unfold_v :=
  unfold update_navigation_buttons, update_status, image_label_configure,
    info_label_configure, counter_label_configure, status_label_configure,
    prev_button_configure, next_button_configure, set_resize_after,
    on_handler, vbind, vret, vget, vput, vlift, vemit in *.

Lemma update_navigation_buttons_run (v : ImageViewer) :
  update_navigation_buttons v =
  (Ok tt,
   mkImageViewer (image_handler v) (image_label_image v) (image_label_text v)
     (info_label v) (counter_label v) (status_label v)
     (if has_images (image_handler v) && has_previous (image_handler v)
      then normal else disabled)
     (if has_images (image_handler v) && has_next (image_handler v)
      then normal else disabled)
     (resize_after v),
   []).
Proof.
  unfold_v. destruct (has_images (image_handler v)); simpl; [|reflexivity].
  destruct (has_previous (image_handler v)); simpl;
    destruct (has_next (image_handler v)); reflexivity.
Qed.

(** [update_display], one branch after the other. *)
Lemma update_display_run (w : World) (basename : string -> string)
    (frame : Z * Z) (v : ImageViewer) :
  update_display w basename frame v =
  if negb (has_images (image_handler v)) then
    (Ok tt,
     mkImageViewer (image_handler v) None "No image to display"
       "No images loaded" "" (status_label v)
       (prev_button v) (next_button v) (resize_after v),
     [])
  else if (fst frame - 20 <=? 1) || (snd frame - 20 <=? 1) then
    (Ok tt, v, [UpdateIdletasks; After 100 cb_update_display])
  else
    match load_current_image w (fst frame - 20) (snd frame - 20) (image_handler v) with
    | (Ok (Some photo), h, t) =>
        match get_current_image_info basename h with
        | Ok (filename, total, position) =>
            (Ok tt,
             mkImageViewer h (Some photo) "" ("Current: " ++ filename)
               (str position ++ " of " ++ str total)
               (match get_original_size h with
                | Some original_size =>
                    filename ++ " - " ++ str (fst original_size) ++
                    times_sign ++ str (snd original_size) ++ " pixels"
                | None => status_label v
                end)
               (prev_button v) (next_button v) (resize_after v),
             UpdateIdletasks :: map Handler t)
        | Raise e =>
            (Raise e,
             mkImageViewer h (Some photo) "" (info_label v) (counter_label v)
               (status_label v) (prev_button v) (next_button v) (resize_after v),
             UpdateIdletasks :: map Handler t)
        end
    | (Ok None, h, t) =>
        (Ok tt,
         mkImageViewer h None "Error loading image" (info_label v)
           (counter_label v) "Error loading current image"
           (prev_button v) (next_button v) (resize_after v),
         UpdateIdletasks :: map Handler t)
    | (Raise e, h, t) =>
        (Raise e,
         mkImageViewer h (image_label_image v) (image_label_text v)
           (info_label v) (counter_label v) (status_label v)
           (prev_button v) (next_button v) (resize_after v),
         UpdateIdletasks :: map Handler t)
    end.
Proof.
  unfold update_display, vbind at 1, vget.
  destruct (negb (has_images (image_handler v))); [reflexivity|].
  unfold vbind at 1, vemit. cbv zeta.
  destruct ((fst frame - 20 <=? 1) || (snd frame - 20 <=? 1)).
  { destruct v; reflexivity. }
  unfold vbind at 1, on_handler.
  destruct (load_current_image w (fst frame - 20) (snd frame - 20) (image_handler v))
    as [[[[photo|]|e] h] t]; simpl.
  - unfold_v. simpl.
    destruct (get_current_image_info basename h) as [[[filename total] position]|e];
      simpl; [|rewrite ?app_nil_r; reflexivity].
    destruct (get_original_size h); simpl; rewrite ?app_nil_r; reflexivity.
  - unfold_v. simpl. rewrite ?app_nil_r. reflexivity.
  - reflexivity.
Qed.

(** X11: after [update_navigation_buttons] a button is enabled exactly
    when pressing it would move the cursor: [next_button] is [normal] iff
    [next_image] would return [True], [prev_button] is [normal] iff
    [previous_image] would; nothing else of the viewer changes and no
    outside call is made. *)
Theorem buttons_match_navigation (v : ImageViewer) :
  let v' := vstate_of (update_navigation_buttons v) in
  vresult_of (update_navigation_buttons v) = Ok tt /\
  vtrace_of (update_navigation_buttons v) = [] /\
  image_handler v' = image_handler v /\
  display v' = display v /\ status_label v' = status_label v /\
  (next_button v' = normal <->
   result_of (next_image (image_handler v)) = Ok true) /\
  (prev_button v' = normal <->
   result_of (previous_image (image_handler v)) = Ok true).
Proof.
  cbv zeta. rewrite update_navigation_buttons_run.
  unfold vresult_of, vtrace_of, vstate_of, display. simpl.
  rewrite next_image_run, previous_image_run, has_images_nonempty.
  unfold has_previous, has_next.
  repeat (split; [reflexivity|]).
  destruct (nonempty (images (image_handler v))); simpl.
  - destruct (current_index (image_handler v) >? 0); simpl;
      destruct (current_index (image_handler v) <? len (images (image_handler v)) - 1);
      simpl; repeat split; intros; try discriminate; reflexivity.
  - repeat split; intros; discriminate.
Qed.

(** X15: [update_display] asks the handler for a bitmap only when both
    target dimensions exceed 1.  With images loaded and a frame whose
    width or height minus the 20 pixels of padding is at most 1, it
    changes nothing, does not call the handler and schedules itself again
    after 100 ms. *)
Theorem update_display_waits_for_frame (w : World) (basename : string -> string)
    (frame : Z * Z) (v : ImageViewer)
    (Himages : has_images (image_handler v) = true)
    (Hsmall : fst frame - 20 <= 1 \/ snd frame - 20 <= 1) :
  update_display w basename frame v =
    (Ok tt, v, [UpdateIdletasks; After 100 cb_update_display]).
Proof.
  rewrite update_display_run, Himages. simpl negb. cbv iota.
  assert (E : (fst frame - 20 <=? 1) || (snd frame - 20 <=? 1) = true).
  { apply orb_true_iff. destruct Hsmall; [left|right]; apply Z.leb_le; assumption. }
  rewrite E. reflexivity.
Qed.

Lemma has_images_in_range (h : ImageHandler) :
  0 <= current_index h < len (images h) -> has_images h = true.
Proof. intros H. rewrite has_images_nonempty. apply nonempty_len. lia. Qed.

(** X16: when the frame is ready and the handler returns a bitmap,
    [update_display] shows it: the image label holds the bitmap and no
    text, the info label names the file under the cursor, the counter
    reads "position of total" with the 1-based position, and the status
    line gives the original size in pixels.  The buttons are not
    touched. *)
Theorem update_display_shows_position (w : World) (basename : string -> string)
    (frame : Z * Z) (v : ImageViewer) (photo : PhotoImage)
    (Hin : 0 <= current_index (image_handler v) < len (images (image_handler v)))
    (Hframe : 1 < fst frame - 20 /\ 1 < snd frame - 20)
    (Hok : result_of (load_current_image w (fst frame - 20) (snd frame - 20)
                        (image_handler v)) = Ok (Some photo)) :
  let v' := vstate_of (update_display w basename frame v) in
  let h := image_handler v in
  vresult_of (update_display w basename frame v) = Ok tt /\
  image_label_image v' = Some photo /\ image_label_text v' = EmptyString /\
  (exists p W H,
     nth_error (images h) (Z.to_nat (current_index h)) = Some p /\
     get_original_size (image_handler v') = Some (W, H) /\
     info_label v' = ("Current: " ++ basename p)%string /\
     counter_label v' =
       (str (current_index h + 1) ++ " of " ++ str (len (images h)))%string /\
     status_label v' =
       (basename p ++ " - " ++ str W ++ times_sign ++ str H ++ " pixels")%string) /\
  prev_button v' = prev_button v /\ next_button v' = next_button v.
Proof.
  cbv zeta. rewrite update_display_run, (has_images_in_range _ Hin).
  simpl negb. cbv iota.
  assert (E : (fst frame - 20 <=? 1) || (snd frame - 20 <=? 1) = false).
  { apply orb_false_iff. split; apply Z.leb_gt; lia. }
  rewrite E.
  destruct (load_current_image_cursor w (fst frame - 20) (snd frame - 20)
              (image_handler v)) as [Hi Hc].
  destruct (load_current_image_decoded w _ _ _ photo Hok)
    as (_ & p & img & _ & _ & Ho).
  assert (Hsz : get_original_size
                  (state_of (load_current_image w (fst frame - 20) (snd frame - 20)
                               (image_handler v))) = Some (size img))
    by (unfold get_original_size; rewrite Ho; reflexivity).
  clear Ho.
  destruct (getitem_in_range _ _ Hin) as (p' & Hnth & Hget).
  unfold result_of, state_of in *.
  destruct (load_current_image w (fst frame - 20) (snd frame - 20) (image_handler v))
    as [[r h] t]. simpl in *. subst r.
  unfold get_current_image_info. rewrite Hi, Hc, Hget.
  assert (Hne : nonempty (images (image_handler v)) = true) by (apply nonempty_len; lia).
  rewrite Hne. simpl negb. cbv iota.
  unfold vresult_of, vstate_of. simpl. rewrite Hsz. simpl.
  repeat (split; [reflexivity|]).
  split; [|split; reflexivity].
  exists p', (fst (size img)), (snd (size img)).
  split; [exact Hnth|]. split; [destruct (size img); reflexivity|].
  repeat split.
Qed.

(** X17: when the frame is ready and the handler returns [None],
    [update_display] clears the image, shows "Error loading image" and
    sets the status line, but leaves the info label and the counter as
    they were: they keep describing the image shown before. *)
Theorem update_display_render_failure (w : World) (basename : string -> string)
    (frame : Z * Z) (v : ImageViewer)
    (Himages : has_images (image_handler v) = true)
    (Hframe : 1 < fst frame - 20 /\ 1 < snd frame - 20)
    (Hnone : result_of (load_current_image w (fst frame - 20) (snd frame - 20)
                          (image_handler v)) = Ok None) :
  let v' := vstate_of (update_display w basename frame v) in
  vresult_of (update_display w basename frame v) = Ok tt /\
  image_label_image v' = None /\
  image_label_text v' = "Error loading image"%string /\
  status_label v' = "Error loading current image"%string /\
  info_label v' = info_label v /\ counter_label v' = counter_label v /\
  prev_button v' = prev_button v /\ next_button v' = next_button v.
Proof.
  cbv zeta. rewrite update_display_run, Himages. simpl negb. cbv iota.
  assert (E : (fst frame - 20 <=? 1) || (snd frame - 20 <=? 1) = false).
  { apply orb_false_iff. split; apply Z.leb_gt; lia. }
  rewrite E. unfold result_of in Hnone.
  destruct (load_current_image w (fst frame - 20) (snd frame - 20) (image_handler v))
    as [[r h] t]. simpl in Hnone. subst r.
  unfold vresult_of, vstate_of. simpl. repeat split.
Qed.

(** ** The viewer's entry points *)

Lemma load_images_eq (w : World) (ps : list string) (self : ImageHandler) :
  load_images w ps self =
  (Ok (nonempty (filter (valid_image w) ps)),
   (if nonempty (filter (valid_image w) ps)
    then mkImageHandler (filter (valid_image w) ps) 0
           (current_image self) (original_image self)
    else self),
   flat_map (validation_trace w) ps).
Proof.
  unfold load_images, bind at 1. rewrite collect_valid_trace. simpl.
  destruct (filter (valid_image w) ps); unfold_m; simpl;
    rewrite ?app_nil_r; reflexivity.
Qed.

Lemma cursor_inv_range (h : ImageHandler) :
  cursor_inv h -> has_images h = true ->
  0 <= current_index h < len (images h).
Proof.
  intros (H0 & _ & Hn) Hi. rewrite has_images_nonempty in Hi.
  split; [exact H0|]. apply Hn. intros E. rewrite E in Hi. discriminate.
Qed.

(** [update_display] in a handler whose cursor is in range: it returns,
    and it leaves the list, the cursor, the buttons and the pending
    timer alone. *)
Lemma update_display_keeps (w : World) (basename : string -> string)
    (frame : Z * Z) (v : ImageViewer) :
  cursor_inv (image_handler v) ->
  exists v' t,
    update_display w basename frame v = (Ok tt, v', t) /\
    (image_handler v' = image_handler v \/
     image_handler v' =
       exec (Render w (fst frame - 20) (snd frame - 20)) (image_handler v)) /\
    images (image_handler v') = images (image_handler v) /\
    current_index (image_handler v') = current_index (image_handler v) /\
    prev_button v' = prev_button v /\ next_button v' = next_button v /\
    resize_after v' = resize_after v.
Proof.
  intros Hinv. rewrite update_display_run.
  destruct (has_images (image_handler v)) eqn:Hi; simpl negb; cbv iota.
  2:{ do 2 eexists. split; [reflexivity|]. simpl. repeat split. left. reflexivity. }
  pose proof (cursor_inv_range _ Hinv Hi) as Hin.
  destruct ((fst frame - 20 <=? 1) || (snd frame - 20 <=? 1)).
  { exists v. eexists. split; [reflexivity|]. repeat split. left. reflexivity. }
  destruct (load_current_image_cursor w (fst frame - 20) (snd frame - 20)
              (image_handler v)) as [Him Hc].
  destruct (load_current_image_returns w (fst frame - 20) (snd frame - 20)
              (image_handler v)) as [r Hr].
  assert (Hex : state_of (load_current_image w (fst frame - 20) (snd frame - 20)
                            (image_handler v)) =
                exec (Render w (fst frame - 20) (snd frame - 20)) (image_handler v))
    by reflexivity.
  unfold state_of, result_of in *.
  destruct (load_current_image w (fst frame - 20) (snd frame - 20) (image_handler v))
    as [[r' h] t]. simpl in *. subst r'.
  destruct r as [photo|].
  - unfold get_current_image_info. rewrite Him, Hc.
    destruct (getitem_in_range _ _ Hin) as (p & _ & ->).
    assert (Hne : nonempty (images (image_handler v)) = true)
      by (apply nonempty_len; lia).
    rewrite Hne. simpl negb. cbv iota.
    do 2 eexists. split; [reflexivity|]. simpl.
    repeat split; try assumption. right. exact Hex.
  - do 2 eexists. split; [reflexivity|]. simpl.
    repeat split; try assumption. right. exact Hex.
Qed.

Lemma update_display_reachable (w : World) (basename : string -> string)
    (frame : Z * Z) (v v' : ImageViewer) :
  reachable (image_handler v) ->
  image_handler v' = image_handler v \/
  image_handler v' =
    exec (Render w (fst frame - 20) (snd frame - 20)) (image_handler v) ->
  reachable (image_handler v').
Proof.
  intros Hr [->| ->]; [exact Hr|]. apply reach_call, Hr.
Qed.

Lemma on_handler_next_image (v : ImageViewer) :
  on_handler next_image v =
  if has_images (image_handler v) && has_next (image_handler v)
  then (Ok true,
        mkImageViewer (exec Advance (image_handler v))
          (image_label_image v) (image_label_text v) (info_label v)
          (counter_label v) (status_label v) (prev_button v) (next_button v)
          (resize_after v), [])
  else (Ok false, v, []).
Proof.
  unfold on_handler, exec. rewrite next_image_run, has_images_nonempty.
  unfold has_next.
  destruct (nonempty (images (image_handler v)) &&
            (current_index (image_handler v) <? len (images (image_handler v)) - 1));
    [reflexivity|]. destruct v; reflexivity.
Qed.

Lemma on_handler_previous_image (v : ImageViewer) :
  on_handler previous_image v =
  if has_images (image_handler v) && has_previous (image_handler v)
  then (Ok true,
        mkImageViewer (exec Retreat (image_handler v))
          (image_label_image v) (image_label_text v) (info_label v)
          (counter_label v) (status_label v) (prev_button v) (next_button v)
          (resize_after v), [])
  else (Ok false, v, []).
Proof.
  unfold on_handler, exec. rewrite previous_image_run, has_images_nonempty.
  unfold has_previous.
  destruct (nonempty (images (image_handler v)) &&
            (current_index (image_handler v) >? 0));
    [reflexivity|]. destruct v; reflexivity.
Qed.

(** The buttons after a display update followed by
    [update_navigation_buttons]. *)
Lemma buttons_for_same (h h' : ImageHandler) :
  images h' = images h -> current_index h' = current_index h ->
  buttons_for h' = buttons_for h.
Proof.
  intros Hi Hc. unfold buttons_for, has_images, has_previous, has_next.
  rewrite Hi, Hc. reflexivity.
Qed.

(** [ImageViewer.next_image] from a handler that keeps its invariant. *)
Lemma viewer_next_image_run (w : World) (basename : string -> string)
    (frame : Z * Z) (v : ImageViewer) :
  cursor_inv (image_handler v) ->
  exists v' t,
    viewer_next_image w basename frame v = (Ok tt, v', t) /\
    (reachable (image_handler v) -> reachable (image_handler v')) /\
    if has_images (image_handler v) && has_next (image_handler v) then
      images (image_handler v') = images (image_handler v) /\
      current_index (image_handler v') = current_index (image_handler v) + 1 /\
      status_label v' = "Next image"%string /\
      (prev_button v', next_button v') = buttons_for (image_handler v')
    else v' = v /\ t = [].
Proof.
  intros Hinv. unfold viewer_next_image, vbind at 1.
  rewrite on_handler_next_image.
  destruct (has_images (image_handler v) && has_next (image_handler v)) eqn:E.
  2:{ exists v, []. repeat split. auto. }
  set (v1 := mkImageViewer _ _ _ _ _ _ _ _ _).
  assert (Hinv1 : cursor_inv (image_handler v1)) by (apply cursor_inv_exec, Hinv).
  destruct (update_display_keeps w basename frame v1 Hinv1)
    as (v2 & t2 & E2 & Hh & Hi & Hc & _).
  unfold vbind at 1. rewrite E2.
  unfold vbind at 1. rewrite update_navigation_buttons_run.
  unfold update_status, status_label_configure, vbind, vget, vput. simpl.
  do 2 eexists. split; [reflexivity|]. simpl.
  split.
  { intros Hr. apply (update_display_reachable w basename frame v1); [|exact Hh].
    apply reach_call, Hr. }
  rewrite Hi, Hc. subst v1. simpl. rewrite next_image_run.
  apply andb_true_iff in E. destruct E as [E1 E3].
  rewrite has_images_nonempty in E1. unfold has_next in E3.
  rewrite E1, E3. unfold state_of. simpl.
  repeat split.
Qed.

(** [ImageViewer.previous_image] likewise. *)
Lemma viewer_previous_image_run (w : World) (basename : string -> string)
    (frame : Z * Z) (v : ImageViewer) :
  cursor_inv (image_handler v) ->
  exists v' t,
    viewer_previous_image w basename frame v = (Ok tt, v', t) /\
    (reachable (image_handler v) -> reachable (image_handler v')) /\
    if has_images (image_handler v) && has_previous (image_handler v) then
      images (image_handler v') = images (image_handler v) /\
      current_index (image_handler v') = current_index (image_handler v) - 1 /\
      status_label v' = "Previous image"%string /\
      (prev_button v', next_button v') = buttons_for (image_handler v')
    else v' = v /\ t = [].
Proof.
  intros Hinv. unfold viewer_previous_image, vbind at 1.
  rewrite on_handler_previous_image.
  destruct (has_images (image_handler v) && has_previous (image_handler v)) eqn:E.
  2:{ exists v, []. repeat split. auto. }
  set (v1 := mkImageViewer _ _ _ _ _ _ _ _ _).
  assert (Hinv1 : cursor_inv (image_handler v1)) by (apply cursor_inv_exec, Hinv).
  destruct (update_display_keeps w basename frame v1 Hinv1)
    as (v2 & t2 & E2 & Hh & Hi & Hc & _).
  unfold vbind at 1. rewrite E2.
  unfold vbind at 1. rewrite update_navigation_buttons_run.
  unfold update_status, status_label_configure, vbind, vget, vput. simpl.
  do 2 eexists. split; [reflexivity|]. simpl.
  split.
  { intros Hr. apply (update_display_reachable w basename frame v1); [|exact Hh].
    apply reach_call, Hr. }
  rewrite Hi, Hc. subst v1. simpl. rewrite previous_image_run.
  apply andb_true_iff in E. destruct E as [E1 E3].
  rewrite has_images_nonempty in E1. unfold has_previous in E3.
  rewrite E1, E3. unfold state_of. simpl.
  repeat split.
Qed.

(** [open_images], whatever the state before. *)
Lemma open_images_run (w : World) (basename : string -> string)
    (frame : Z * Z) (file_paths : list string) (v : ImageViewer) :
  exists v' t,
    open_images w basename frame file_paths v = (Ok tt, v', t) /\
    (reachable (image_handler v) -> reachable (image_handler v')) /\
    if nonempty (filter (valid_image w) file_paths) then
      images (image_handler v') = filter (valid_image w) file_paths /\
      current_index (image_handler v') = 0 /\
      status_label v' =
        ("Loaded " ++ str (len file_paths) ++ " images")%string /\
      (prev_button v', next_button v') = buttons_for (image_handler v')
    else
      image_handler v' = image_handler v /\ display v' = display v /\
      prev_button v' = prev_button v /\ next_button v' = next_button v /\
      resize_after v' = resize_after v /\
      status_label v' =
        (if nonempty file_paths then "Error loading images"
         else "No files selected")%string /\
      t = if nonempty file_paths
          then map Handler (flat_map (validation_trace w) file_paths) ++
               [ShowError "Error" "No valid images could be loaded."]
          else [].
Proof.
  unfold open_images.
  destruct (nonempty file_paths) eqn:Hps.
  2:{ destruct file_paths; [|discriminate]. simpl.
      unfold update_status, status_label_configure, vbind, vget, vput. simpl.
      do 2 eexists. split; [reflexivity|]. simpl. repeat split. auto. }
  unfold vbind at 1, on_handler. rewrite load_images_eq.
  assert (Hex : state_of (load_images w file_paths (image_handler v)) =
                exec (Load w file_paths) (image_handler v)) by reflexivity.
  rewrite load_images_eq in Hex. unfold state_of in Hex. simpl in Hex.
  destruct (nonempty (filter (valid_image w) file_paths)) eqn:E.
  - set (v1 := mkImageViewer _ _ _ _ _ _ _ _ _).
    assert (Hinv1 : cursor_inv (image_handler v1)).
    { subst v1. simpl. apply nonempty_len in E.
      unfold cursor_inv. simpl. repeat split; lia. }
    destruct (update_display_keeps w basename frame v1 Hinv1)
      as (v2 & t2 & E2 & Hh & Hi & Hc & _).
    unfold vbind at 1. rewrite E2.
    unfold update_status, status_label_configure.
    unfold vbind at 1. unfold vbind at 1. unfold vget, vput.
    rewrite update_navigation_buttons_run.
    do 2 eexists. split; [reflexivity|]. simpl.
    split.
    { intros Hr. apply (update_display_reachable w basename frame v1); [|exact Hh].
      subst v1. simpl. rewrite Hex.
      apply (reach_call (Load w file_paths)), Hr. }
    rewrite Hi, Hc. subst v1. simpl. repeat split.
  - unfold vbind at 1, vemit.
    unfold update_status, status_label_configure, vbind, vget, vput. simpl.
    do 2 eexists. split; [reflexivity|]. simpl.
    repeat split. auto.
Qed.

Lemma on_frame_resize_run (id : Z) (v : ImageViewer) :
  on_frame_resize id v =
  if has_images (image_handler v) then
    (Ok tt,
     mkImageViewer (image_handler v) (image_label_image v) (image_label_text v)
       (info_label v) (counter_label v) (status_label v)
       (prev_button v) (next_button v) (Some id),
     match resize_after v with
     | Some pending => [AfterCancel pending; After 250 cb_update_display]
     | None => [After 250 cb_update_display]
     end)
  else (Ok tt, v, []).
Proof.
  unfold on_frame_resize, vbind at 1, vget.
  destruct (has_images (image_handler v)); [|reflexivity].
  unfold set_resize_after, vbind, vget, vput, vemit, vret.
  destruct (resize_after v); reflexivity.
Qed.

(** The buttons as equations and as what a press would do. *)
Lemma buttons_for_navigation (h : ImageHandler) (p n : button_state) :
  (p, n) = buttons_for h ->
  (p = normal <-> result_of (previous_image h) = Ok true) /\
  (n = normal <-> result_of (next_image h) = Ok true).
Proof.
  unfold buttons_for. intros E. injection E as -> ->.
  rewrite next_image_run, previous_image_run, has_images_nonempty.
  unfold has_previous, has_next.
  destruct (nonempty (images h)); simpl.
  - destruct (current_index h >? 0); simpl;
      destruct (current_index h <? len (images h) - 1);
      simpl; repeat split; intros; try discriminate; reflexivity.
  - repeat split; intros; discriminate.
Qed.

(** ** Beyond the claims: the viewer's navigation *)

(** X18: a press that cannot move the cursor does nothing at all: when
    [next_image] of the handler would return [False] (last image, or no
    images), the viewer's [next_image] leaves every widget and the handler
    as they are and makes no outside call, so the display is not rendered
    again and the status line is not touched; likewise for
    [previous_image] on the first image. *)
Theorem viewer_navigation_at_boundary (w : World) (basename : string -> string)
    (frame : Z * Z) (v : ImageViewer) :
  (result_of (next_image (image_handler v)) = Ok false ->
   viewer_next_image w basename frame v = (Ok tt, v, [])) /\
  (result_of (previous_image (image_handler v)) = Ok false ->
   viewer_previous_image w basename frame v = (Ok tt, v, [])).
Proof.
  split; intros H.
  - unfold viewer_next_image, vbind at 1. rewrite on_handler_next_image.
    rewrite next_image_run, <- has_images_nonempty in H.
    fold (has_next (image_handler v)) in H.
    destruct (has_images (image_handler v) && has_next (image_handler v));
      [discriminate|reflexivity].
  - unfold viewer_previous_image, vbind at 1. rewrite on_handler_previous_image.
    rewrite previous_image_run, <- has_images_nonempty in H.
    fold (has_previous (image_handler v)) in H.
    destruct (has_images (image_handler v) && has_previous (image_handler v));
      [discriminate|reflexivity].
Qed.

(** X19: a press that can move the cursor moves it by one, and whatever
    the display update did, the call ends with the buttons set for the new
    cursor and the status line reading "Next image" or "Previous image":
    the status text with the pixel size that [update_display] writes is
    overwritten before the call returns.  The call does not raise. *)
Theorem viewer_navigation_moves (w : World) (basename : string -> string)
    (frame : Z * Z) (v : ImageViewer)
    (Hin : 0 <= current_index (image_handler v) < len (images (image_handler v))) :
  let h := image_handler v in
  (current_index h < len (images h) - 1 ->
   let run := viewer_next_image w basename frame v in
   let h' := image_handler (vstate_of run) in
   vresult_of run = Ok tt /\
   images h' = images h /\ current_index h' = current_index h + 1 /\
   status_label (vstate_of run) = "Next image"%string /\
   prev_button (vstate_of run) = normal /\
   (next_button (vstate_of run) = normal <->
    current_index h + 1 < len (images h) - 1)) /\
  (0 < current_index h ->
   let run := viewer_previous_image w basename frame v in
   let h' := image_handler (vstate_of run) in
   vresult_of run = Ok tt /\
   images h' = images h /\ current_index h' = current_index h - 1 /\
   status_label (vstate_of run) = "Previous image"%string /\
   next_button (vstate_of run) = normal /\
   (prev_button (vstate_of run) = normal <-> 1 < current_index h)).
Proof.
  cbv zeta.
  assert (Hinv : cursor_inv (image_handler v)).
  { unfold cursor_inv. repeat split; try lia.
    intros E. rewrite E in Hin. unfold len in Hin. simpl in Hin. lia. }
  assert (Hi : has_images (image_handler v) = true)
    by (apply has_images_in_range, Hin).
  split; intros Hmove.
  - destruct (viewer_next_image_run w basename frame v Hinv)
      as (v' & t & -> & _ & Hrun).
    assert (Hn : has_next (image_handler v) = true)
      by (apply Z.ltb_lt; exact Hmove).
    rewrite Hi, Hn in Hrun. simpl in Hrun.
    destruct Hrun as (Him & Hc & Hs & Hb).
    unfold vresult_of, vstate_of. simpl.
    unfold buttons_for, has_images, has_previous, has_next in Hb.
    rewrite Him, Hc in Hb. injection Hb as Hp Hnx.
    repeat (split; [assumption || reflexivity|]).
    assert (Hlen : (len (images (image_handler v)) >? 0) = true) by (apply Z.gtb_lt; lia).
    rewrite Hlen in Hp, Hnx. simpl in Hp, Hnx.
    split.
    + rewrite Hp. destruct (Z.gtb_spec (current_index (image_handler v) + 1) 0);
        [reflexivity|lia].
    + rewrite Hnx.
      destruct (Z.ltb_spec (current_index (image_handler v) + 1)
                  (len (images (image_handler v)) - 1));
        split; intros; try discriminate; try reflexivity; lia.
  - destruct (viewer_previous_image_run w basename frame v Hinv)
      as (v' & t & -> & _ & Hrun).
    assert (Hn : has_previous (image_handler v) = true)
      by (apply Z.gtb_lt; lia).
    rewrite Hi, Hn in Hrun. simpl in Hrun.
    destruct Hrun as (Him & Hc & Hs & Hb).
    unfold vresult_of, vstate_of. simpl.
    unfold buttons_for, has_images, has_previous, has_next in Hb.
    rewrite Him, Hc in Hb. injection Hb as Hp Hnx.
    repeat (split; [assumption || reflexivity|]).
    assert (Hlen : (len (images (image_handler v)) >? 0) = true) by (apply Z.gtb_lt; lia).
    rewrite Hlen in Hp, Hnx. simpl in Hp, Hnx.
    split.
    + rewrite Hnx.
      destruct (Z.ltb_spec (current_index (image_handler v) - 1)
                  (len (images (image_handler v)) - 1)); [reflexivity|lia].
    + rewrite Hp.
      destruct (Z.gtb_spec (current_index (image_handler v) - 1) 0);
        split; intros; try discriminate; try reflexivity; lia.
Qed.

(** ** Beyond the claims: opening files *)

(** X20: an [open_images] that loads nothing keeps what is on the screen:
    when the dialog is cancelled or no selected file is a valid image, the
    handler, the image, the info label, the counter and the buttons stay
    as they were; only the status line changes, to "No files selected"
    with no outside call when nothing was selected, and to
    "Error loading images" after one error box when files were selected,
    each of them checked once. *)
Theorem open_images_rejected (w : World) (basename : string -> string)
    (frame : Z * Z) (file_paths : list string) (v : ImageViewer)
    (Hnone : filter (valid_image w) file_paths = []) :
  let run := open_images w basename frame file_paths v in
  let v' := vstate_of run in
  vresult_of run = Ok tt /\
  image_handler v' = image_handler v /\ display v' = display v /\
  prev_button v' = prev_button v /\ next_button v' = next_button v /\
  (file_paths = [] ->
   status_label v' = "No files selected"%string /\ vtrace_of run = []) /\
  (file_paths <> [] ->
   status_label v' = "Error loading images"%string /\
   vtrace_of run =
     map Handler (flat_map (validation_trace w) file_paths) ++
     [ShowError "Error" "No valid images could be loaded."]).
Proof.
  cbv zeta.
  destruct (open_images_run w basename frame file_paths v)
    as (v' & t & -> & _ & Hrun).
  rewrite Hnone in Hrun. simpl in Hrun.
  destruct Hrun as (Hh & Hd & Hp & Hn & _ & Hs & Ht).
  unfold vresult_of, vstate_of, vtrace_of. simpl.
  repeat (split; [assumption || reflexivity|]).
  split; intros E.
  - subst file_paths. simpl in Hs, Ht. split; assumption.
  - destruct file_paths; [contradiction|]. simpl in Hs, Ht. split; assumption.
Qed.

(** X21: an [open_images] that finds at least one valid image puts the
    cursor on the first of the valid ones, disables the previous button
    and enables the next button exactly when more than one image was
    loaded.  The status line it leaves counts the files selected, not the
    images loaded. *)
Theorem open_images_loaded (w : World) (basename : string -> string)
    (frame : Z * Z) (file_paths : list string) (v : ImageViewer)
    (Hsome : filter (valid_image w) file_paths <> []) :
  let run := open_images w basename frame file_paths v in
  let v' := vstate_of run in
  vresult_of run = Ok tt /\
  images (image_handler v') = filter (valid_image w) file_paths /\
  current_index (image_handler v') = 0 /\
  status_label v' = ("Loaded " ++ str (len file_paths) ++ " images")%string /\
  prev_button v' = disabled /\
  (next_button v' = normal <-> 1 < len (filter (valid_image w) file_paths)).
Proof.
  cbv zeta.
  destruct (open_images_run w basename frame file_paths v)
    as (v' & t & -> & _ & Hrun).
  assert (E : nonempty (filter (valid_image w) file_paths) = true).
  { destruct (filter (valid_image w) file_paths); [contradiction|reflexivity]. }
  rewrite E in Hrun. destruct Hrun as (Him & Hc & Hs & Hb).
  unfold vresult_of, vstate_of. simpl.
  unfold buttons_for, has_images, has_previous, has_next in Hb.
  rewrite Him, Hc in Hb. injection Hb as Hp Hnx.
  repeat (split; [assumption || reflexivity|]).
  apply nonempty_len in E.
  assert (Hlen : (len (filter (valid_image w) file_paths) >? 0) = true)
    by (apply Z.gtb_lt; lia).
  rewrite Hlen in Hp, Hnx. simpl in Hp, Hnx.
  split; [exact Hp|]. rewrite Hnx.
  destruct (Z.ltb_spec 0 (len (filter (valid_image w) file_paths) - 1));
    split; intros; try discriminate; try reflexivity; lia.
Qed.

(** ** Beyond the claims: resizing the frame *)

Lemma resize_events_burst (rest : list Z) (id : Z) (v : ImageViewer) :
  has_images (image_handler v) = true ->
  pending_timers (id :: rest) (snd (resize_events (id :: rest) v)) (remembered v) =
    [last (id :: rest) 0] /\
  resize_after (fst (resize_events (id :: rest) v)) = Some (last (id :: rest) 0) /\
  image_handler (fst (resize_events (id :: rest) v)) = image_handler v /\
  display (fst (resize_events (id :: rest) v)) = display v /\
  List.length (filter (fun e => match e with After _ _ => true | _ => false end)
                 (snd (resize_events (id :: rest) v))) =
    List.length (id :: rest).
Proof.
  revert id v. induction rest as [|id' rest IH]; intros id v Hi.
  - simpl resize_events. rewrite on_frame_resize_run, Hi. unfold remembered.
    destruct (resize_after v) as [p|]; simpl; rewrite ?Z.eqb_refl; simpl;
      repeat split.
  - change (resize_events (id :: id' :: rest) v)
      with (match on_frame_resize id v with
            | (_, self1, t1) =>
                match resize_events (id' :: rest) self1 with
                | (self2, t2) => (self2, t1 ++ t2)
                end
            end).
    rewrite on_frame_resize_run, Hi.
    set (v1 := mkImageViewer _ _ _ _ _ _ _ _ _).
    assert (Hi1 : has_images (image_handler v1) = true) by exact Hi.
    destruct (IH id' v1 Hi1) as (Hp & Hr & Hh & Hd & Hn).
    destruct (resize_events (id' :: rest) v1) as [v2 t2].
    change (last (id :: id' :: rest) 0) with (last (id' :: rest) 0).
    simpl fst in *. simpl snd in *.
    assert (Hrem : remembered v1 = [id]) by reflexivity.
    rewrite Hrem in Hp.
    split.
    { unfold remembered. destruct (resize_after v) as [p|]; simpl;
        rewrite ?Z.eqb_refl; simpl; exact Hp. }
    split; [exact Hr|]. split; [exact Hh|]. split; [exact Hd|].
    rewrite filter_app, length_app, Hn.
    destruct (resize_after v); reflexivity.
Qed.

(** X22: the resize handler debounces.  Tk's timers taken as a list to
    which [after] adds and from which [after_cancel] removes, and the one
    remembered in [_resize_after] being the only one pending at the start:
    after any burst of resize events on a viewer with images, one timer
    was set per event and exactly one is still pending, the one of the
    last event, which is also the one remembered; the handler and the
    display are untouched.  Without images nothing is set at all. *)
Theorem resize_burst_leaves_one_timer (ids : list Z) (v : ImageViewer)
    (Hids : ids <> []) :
  let v' := fst (resize_events ids v) in
  let t := snd (resize_events ids v) in
  (has_images (image_handler v) = true ->
   pending_timers ids t (remembered v) = [last ids 0] /\
   resize_after v' = Some (last ids 0) /\
   image_handler v' = image_handler v /\ display v' = display v /\
   List.length (filter (fun e => match e with After _ _ => true | _ => false end) t) =
     List.length ids) /\
  (has_images (image_handler v) = false -> v' = v /\ t = []).
Proof.
  cbv zeta. split; intros Hi.
  - destruct ids as [|id rest]; [contradiction|].
    apply resize_events_burst, Hi.
  - clear Hids. induction ids as [|id rest IH]; [split; reflexivity|].
    simpl. rewrite on_frame_resize_run, Hi.
    destruct (resize_events rest v) as [v2 t2]. simpl in *.
    destruct IH as [-> ->]. split; reflexivity.
Qed.

(** ** Beyond the claims: every state of the viewer *)

(** What the viewer keeps true from one action to the next. *)
Lemma perform_keeps (basename : string -> string) (a : action) (v : ImageViewer) :
  reachable (image_handler v) ->
  (prev_button v, next_button v) = buttons_for (image_handler v) ->
  vresult_of (perform basename a v) = Ok tt /\
  reachable (image_handler (vstate_of (perform basename a v))) /\
  (prev_button (vstate_of (perform basename a v)),
   next_button (vstate_of (perform basename a v))) =
    buttons_for (image_handler (vstate_of (perform basename a v))).
Proof.
  intros Hr Hb. pose proof (cursor_inv_reachable _ Hr) as Hinv.
  destruct a as [w frame ps|w frame|w frame|id|w frame]; simpl perform.
  - destruct (open_images_run w basename frame ps v) as (v' & t & -> & Hr' & Hrun).
    unfold vresult_of, vstate_of. simpl.
    split; [reflexivity|]. split; [exact (Hr' Hr)|].
    destruct (nonempty (filter (valid_image w) ps)).
    + apply Hrun.
    + destruct Hrun as (Hh & _ & Hp & Hn & _). rewrite Hh, Hp, Hn. exact Hb.
  - destruct (viewer_next_image_run w basename frame v Hinv)
      as (v' & t & -> & Hr' & Hrun).
    unfold vresult_of, vstate_of. simpl.
    split; [reflexivity|]. split; [exact (Hr' Hr)|].
    destruct (has_images (image_handler v) && has_next (image_handler v)).
    + apply Hrun.
    + destruct Hrun as [-> _]. exact Hb.
  - destruct (viewer_previous_image_run w basename frame v Hinv)
      as (v' & t & -> & Hr' & Hrun).
    unfold vresult_of, vstate_of. simpl.
    split; [reflexivity|]. split; [exact (Hr' Hr)|].
    destruct (has_images (image_handler v) && has_previous (image_handler v)).
    + apply Hrun.
    + destruct Hrun as [-> _]. exact Hb.
  - rewrite on_frame_resize_run.
    destruct (has_images (image_handler v));
      unfold vresult_of, vstate_of; simpl; auto.
  - destruct (update_display_keeps w basename frame v Hinv)
      as (v' & t & -> & Hh & Hi & Hc & Hp & Hn & _).
    unfold vresult_of, vstate_of. simpl.
    split; [reflexivity|].
    split; [exact (update_display_reachable w basename frame v v' Hr Hh)|].
    rewrite Hp, Hn, (buttons_for_same _ _ Hi Hc). exact Hb.
Qed.

(** X23: in every state a viewer can reach from [__init__] by opening
    files, pressing next or previous, resizing the frame and firing
    timers, whatever the disk and the frame answer, (1) the handler is in
    a state reachable by its own methods, so its cursor is in range,
    (2) each navigation button is enabled exactly when the press would
    move the cursor, and (3) no action raises. *)
Theorem viewer_reachable_safe (basename : string -> string) (v : ImageViewer)
    (Hreach : vreachable basename v) :
  reachable (image_handler v) /\
  cursor_inv (image_handler v) /\
  (prev_button v = normal <->
   result_of (previous_image (image_handler v)) = Ok true) /\
  (next_button v = normal <->
   result_of (next_image (image_handler v)) = Ok true) /\
  forall a : action, vresult_of (perform basename a v) = Ok tt.
Proof.
  assert (H : reachable (image_handler v) /\
              (prev_button v, next_button v) = buttons_for (image_handler v)).
  { induction Hreach as [|a s _ [IHr IHb]].
    - split; [apply reach_init|reflexivity].
    - destruct (perform_keeps basename a s IHr IHb) as (_ & Hr & Hb).
      split; assumption. }
  destruct H as [Hr Hb].
  split; [exact Hr|]. split; [apply cursor_inv_reachable, Hr|].
  destruct (buttons_for_navigation _ _ _ Hb) as [Hp Hn].
  split; [exact Hp|]. split; [exact Hn|].
  intros a. apply (perform_keeps basename a v Hr Hb).
Qed.

(** ** The further theorems at work on [disk] *)

Lemma gallery_reachable : reachable gallery.
Proof. unfold gallery. apply reach_call, reach_init. Qed.

Lemma current_info_reachable_witness :
  get_current_image_info posix_basename gallery = Ok ("a.jpg"%string, 2, 1).
Proof.
  destruct (current_info_reachable posix_basename gallery gallery_reachable)
    as [[Hnil _]|(p & Hp & Hinfo & _)].
  - vm_compute in Hnil. discriminate.
  - rewrite Hinfo. vm_compute in Hp. injection Hp as <-. vm_compute. reflexivity.
Defined.

Lemma cursor_past_end_witness :
  get_current_image_path overrun = Ok None /\
  get_current_image_info posix_basename overrun = Raise IndexError.
Proof.
  apply (cursor_past_end posix_basename overrun).
  - vm_compute. discriminate.
  - vm_compute. discriminate.
Defined.

Lemma current_path_reachable_witness :
  get_current_image_path gallery = Ok (Some "a.jpg"%string).
Proof.
  destruct (current_path_reachable gallery gallery_reachable) as [H _].
  rewrite H. vm_compute. reflexivity.
Defined.

Lemma images_were_validated_witness :
  images (exec_all session init) = filter (valid_image disk)
    ["a.jpg"; "not_an_image.txt"; "b.png"]%string /\
  images (exec_all session init) = ["a.jpg"; "b.png"]%string.
Proof.
  destruct (images_were_validated session) as [_ H].
  change (accepted_batch session None)
    with (Some (disk, ["a.jpg"; "not_an_image.txt"; "b.png"]%string)) in H.
  destruct H as (_ & H & _).
  split; [exact H|]. rewrite H. reflexivity.
Defined.

Lemma render_success_records_witness :
  get_original_size (state_of (load_current_image disk 800 600 gallery)) =
    Some (4000, 3000) /\
  current_image (state_of (load_current_image disk 800 600 gallery)) =
    Some (mkPhotoImage (mkImage (800, 600) [1; 2; 3])).
Proof.
  destruct (render_success_records disk 800 600 gallery
              (mkPhotoImage (mkImage (800, 600) [1; 2; 3])))
    as (Hcur & (p & img & Hp & Hd & _ & Hsz) & _).
  - vm_compute. reflexivity.
  - split; [|exact Hcur].
    rewrite Hsz. vm_compute in Hp. injection Hp as <-.
    vm_compute in Hd. injection Hd as <-. reflexivity.
Defined.

Lemma next_previous_round_trip_witness :
  previous_image (state_of (next_image gallery)) = (Ok true, gallery, []).
Proof.
  destruct (next_previous_round_trip gallery) as [H _].
  - vm_compute. split; [discriminate|reflexivity].
  - apply H. vm_compute. reflexivity.
Defined.

Lemma advance_times_stops_at_last_witness :
  current_index (advance_times 5 gallery) = 1.
Proof.
  destruct (advance_times_stops_at_last 5 gallery) as [H _].
  - vm_compute. split; [discriminate|reflexivity].
  - rewrite H. vm_compute. reflexivity.
Defined.

Lemma render_fitting_image_witness :
  result_of (load_current_image disk 800 600 (exec Advance gallery)) =
    Ok (Some (mkPhotoImage (mkImage (640, 480) [4; 5]))).
Proof.
  destruct (render_fitting_image disk 800 600 (exec Advance gallery)
              "b.png" photo_b [4; 5] 640 480) as [_ H].
  - vm_compute. reflexivity.
  - vm_compute. reflexivity.
  - reflexivity.
  - reflexivity.
  - reflexivity.
  - reflexivity.
  - vm_compute. split; [discriminate|reflexivity].
  - vm_compute. split; [discriminate|reflexivity].
  - reflexivity.
  - rewrite H. reflexivity.
Defined.

Lemma render_too_large_is_resized_witness :
  trace_of (load_current_image disk 800 600 gallery) =
    [EvOpen "a.jpg"; EvCopy; EvResize (800, 600); EvPhotoImage] /\
  trace_of (load_current_image portfolio 800 600 strips) =
    [EvOpen "strip.png"; EvCopy; EvResize (800, 0); EvPrint CodecError].
Proof.
  split.
  - destruct (render_too_large_is_resized disk 800 600 gallery
                "a.jpg" photo_a [1; 2; 3] 4000 3000) as [_ H].
    + vm_compute. reflexivity.
    + vm_compute. reflexivity.
    + reflexivity.
    + reflexivity.
    + vm_compute. split; reflexivity.
    + vm_compute. split; reflexivity.
    + vm_compute. split; [discriminate|reflexivity].
    + vm_compute. split; [discriminate|reflexivity].
    + left. reflexivity.
    + assert (E : (floor (times 4000 (ratio_of 4000 3000 800 600)),
                   floor (times 3000 (ratio_of 4000 3000 800 600))) = (800, 600))
        by (vm_compute; reflexivity).
      rewrite E in H. apply H.
  - destruct (render_too_large_is_resized portfolio 800 600 strips
                "strip.png" strip [7] 4000 4) as [_ H].
    + vm_compute. reflexivity.
    + vm_compute. reflexivity.
    + reflexivity.
    + reflexivity.
    + vm_compute. split; reflexivity.
    + vm_compute. split; reflexivity.
    + vm_compute. split; [discriminate|reflexivity].
    + vm_compute. split; [discriminate|reflexivity].
    + left. reflexivity.
    + assert (E : (floor (times 4000 (ratio_of 4000 4 800 600)),
                   floor (times 4 (ratio_of 4000 4 800 600))) = (800, 0))
        by (vm_compute; reflexivity).
      rewrite E in H. apply H.
Defined.


Lemma render_fits_target_witness :
  exists photo,
    result_of (load_current_image disk 801 599 gallery) = Ok (Some photo) /\
    0 <= fst (photo_size photo) <= 801 /\
    0 <= snd (photo_size photo) <= 599 /\
    (photo_size photo = (4000, 3000) <-> 4000 <= 801 /\ 3000 <= 599).
Proof.
  apply (render_fits_target disk 801 599 gallery "a.jpg" photo_a [1; 2; 3] 4000 3000).
  - vm_compute. reflexivity.
  - vm_compute. reflexivity.
  - reflexivity.
  - reflexivity.
  - vm_compute. split; reflexivity.
  - vm_compute. split; reflexivity.
  - vm_compute. split; [discriminate|reflexivity].
  - vm_compute. split; [discriminate|reflexivity].
  - intros _. vm_compute. discriminate.
  - intros r. reflexivity.
Defined.

(** ** The viewer at work on [disk] *)

Lemma update_display_waits_for_frame_witness :
  update_display disk posix_basename (21, 400) demo_viewer =
    (Ok tt, demo_viewer, [UpdateIdletasks; After 100 cb_update_display]).
Proof.
  apply (update_display_waits_for_frame disk posix_basename (21, 400) demo_viewer).
  - vm_compute. reflexivity.
  - left. vm_compute. discriminate.
Defined.

Lemma update_display_shows_position_witness :
  let v' := vstate_of (update_display disk posix_basename (820, 620) demo_viewer) in
  counter_label v' = "1 of 2"%string /\
  status_label v' = ("a.jpg - 4000" ++ times_sign ++ "3000 pixels")%string.
Proof.
  cbv zeta.
  destruct (update_display_shows_position disk posix_basename (820, 620) demo_viewer
              (mkPhotoImage (mkImage (800, 600) [1; 2; 3])))
    as (_ & _ & _ & (p & W & H & Hp & Hsz & _ & Hc & Hs) & _).
  - vm_compute. split; [discriminate|reflexivity].
  - vm_compute. split; reflexivity.
  - vm_compute. reflexivity.
  - rewrite Hc, Hs. vm_compute in Hp. injection Hp as <-.
    vm_compute in Hsz. injection Hsz as <- <-.
    vm_compute. split; reflexivity.
Defined.

Lemma update_display_render_failure_witness :
  let v' := vstate_of (update_display disk_without_a posix_basename (820, 620)
                         demo_viewer) in
  image_label_text v' = "Error loading image"%string /\
  counter_label v' = "1 of 2"%string.
Proof.
  cbv zeta.
  destruct (update_display_render_failure disk_without_a posix_basename (820, 620)
              demo_viewer)
    as (_ & _ & Ht & _ & _ & Hc & _).
  - vm_compute. reflexivity.
  - vm_compute. split; reflexivity.
  - vm_compute. reflexivity.
  - split; [exact Ht|]. rewrite Hc. vm_compute. reflexivity.
Defined.

Lemma viewer_navigation_at_boundary_witness :
  viewer_previous_image disk posix_basename (820, 620) demo_viewer =
    (Ok tt, demo_viewer, []).
Proof.
  apply (viewer_navigation_at_boundary disk posix_basename (820, 620) demo_viewer).
  vm_compute. reflexivity.
Defined.

Lemma viewer_navigation_moves_witness :
  let v' := vstate_of (viewer_next_image disk posix_basename (820, 620) demo_viewer) in
  current_index (image_handler v') = 1 /\
  status_label v' = "Next image"%string /\
  prev_button v' = normal.
Proof.
  cbv zeta.
  destruct (viewer_navigation_moves disk posix_basename (820, 620) demo_viewer)
    as [Hnext _].
  - vm_compute. split; [discriminate|reflexivity].
  - destruct Hnext as (_ & _ & Hc & Hs & Hp & _).
    + vm_compute. reflexivity.
    + rewrite Hc. split; [vm_compute; reflexivity|]. split; assumption.
Defined.

Lemma open_images_rejected_witness :
  let run := open_images disk posix_basename (820, 620)
               ["not_an_image.txt"]%string demo_viewer in
  image_handler (vstate_of run) = image_handler demo_viewer /\
  display (vstate_of run) = display demo_viewer /\
  status_label (vstate_of run) = "Error loading images"%string.
Proof.
  cbv zeta.
  destruct (open_images_rejected disk posix_basename (820, 620)
              ["not_an_image.txt"]%string demo_viewer)
    as (_ & Hh & Hd & _ & _ & _ & Hs).
  - vm_compute. reflexivity.
  - split; [exact Hh|]. split; [exact Hd|]. apply Hs. discriminate.
Defined.

Lemma open_images_loaded_witness :
  images (image_handler demo_viewer) = ["a.jpg"; "b.png"]%string /\
  status_label demo_viewer = "Loaded 3 images"%string /\
  prev_button demo_viewer = disabled.
Proof.
  destruct (open_images_loaded disk posix_basename (820, 620)
              ["a.jpg"; "not_an_image.txt"; "b.png"]%string new_viewer)
    as (_ & Hi & _ & Hs & Hp & _).
  - vm_compute. discriminate.
  - unfold demo_viewer.
    split; [rewrite Hi; vm_compute; reflexivity|].
    split; [rewrite Hs; vm_compute; reflexivity|exact Hp].
Defined.

Lemma resize_burst_leaves_one_timer_witness :
  pending_timers [7; 8; 9] (snd (resize_events [7; 8; 9] demo_viewer)) [] = [9] /\
  resize_after (fst (resize_events [7; 8; 9] demo_viewer)) = Some 9.
Proof.
  destruct (resize_burst_leaves_one_timer [7; 8; 9] demo_viewer) as [H _].
  - discriminate.
  - destruct H as (Hp & Hr & _).
    + vm_compute. reflexivity.
    + split; [exact Hp|exact Hr].
Defined.

Lemma demo_viewer_reachable : vreachable posix_basename demo_viewer.
Proof.
  assert (E : demo_viewer =
              vstate_of (perform posix_basename
                           (OpenImages disk (820, 620)
                              ["a.jpg"; "not_an_image.txt"; "b.png"]%string)
                           new_viewer)).
  { unfold demo_viewer, perform. reflexivity. }
  rewrite E. apply vreach_action, vreach_new.
Qed.

Lemma viewer_reachable_safe_witness :
  cursor_inv (image_handler demo_viewer) /\
  vresult_of (perform posix_basename (PressNext disk (820, 620)) demo_viewer) = Ok tt.
Proof.
  destruct (viewer_reachable_safe posix_basename demo_viewer demo_viewer_reachable)
    as (_ & Hinv & _ & _ & Hsafe).
  split; [exact Hinv|apply Hsafe].
Defined.
